(** * JsonCompare: the structural diff engine of [src/app/page.tsx]

    A shallow embedding of the comparison logic of the JSON comparator
    (shape analysis, key auto-selection, the validation gate, the
    classification loops, the field-change calculator and the final
    deduplication), of the handlers around it (the combined signatures,
    the key selector, the compare button) and of the first variant of
    the page, followed by the properties of its specification and by
    further properties of the code.

    Modelling conventions.
    - The embedding starts from the two parsed documents: the texts are
      not blank and [JSON.parse] accepted them.  A parsed document is a
      value of [Json].  Numbers are restricted to integers; strings are
      sequences of code units below U+0100.
    - A JavaScript object is the list of its own enumerable properties in
      enumeration order; well-formed objects have no repeated name
      ([wfJson]).  A property added to an object goes last, as it does
      for every name that is not an array index.
    - A record is read by its own properties ([getProp]).  Where the
      code reads a record under a name the record does not own, what it
      finds up the prototype chain is not a string, and the code goes
      the way it goes for [undefined].
    - The key configuration, the entries of the result and the objects
      of a change set are plain objects used as maps.  There the
      prototype chain is modelled: a read finds the members of
      [Object.prototype] ([keyFieldOf], [entryText]), and an assignment
      under the name [__proto__] leaves no property ([assignField]).  A
      native function prints as V8 prints it.
    - A [Map] is an insertion-ordered association list ([JsMap]): [set] on
      an existing key keeps the position and replaces the value.
    - Warnings pushed to [localErrors] are kept as structured values, one
      constructor per message template, carrying the interpolated values
      (for a value read from a record, its own property); so are the
      messages given to [setError].
    - [localeCompare], which orders the structures for display, is a
      parameter. *)

From Stdlib Require Import List String Ascii ZArith Bool Arith Lia.
From Stdlib Require Import Permutation DecimalString DecimalNat FinFun.
Import ListNotations.
Open Scope list_scope.
Open Scope string_scope.

Set Implicit Arguments.

(* ================================================================== *)
(** ** JSON values *)

Unset Elimination Schemes.

Inductive Json : Type :=
| JNull
| JBool (b : bool)
| JNum (n : Z)
| JStr (s : string)
| JArr (xs : list Json)
| JObj (fs : list (string * Json)).

Set Elimination Schemes.

(** A value read from a property: [None] is [undefined]. *)
Definition JsValue := option Json.

(** [typeof item === "object" && item !== null] *)
Definition isObject (item : Json) : bool :=
  match item with
  | JArr _ | JObj _ => true
  | _ => false
  end.

(** [Array.isArray] *)
Definition isArray (v : Json) : bool :=
  match v with
  | JArr _ => true
  | _ => false
  end.

(* ================================================================== *)
(** ** Insertion-ordered maps ([Map], and plain objects used as maps) *)

Section JsMapOps.
Variable V : Type.

Definition JsMap := list (string * V).

Fixpoint map_get (k : string) (m : JsMap) : option V :=
  match m with
  | [] => None
  | (k', v) :: m' => if String.eqb k k' then Some v else map_get k m'
  end.

Definition map_has (k : string) (m : JsMap) : bool :=
  match map_get k m with
  | Some _ => true
  | None => false
  end.

Fixpoint map_set (k : string) (v : V) (m : JsMap) : JsMap :=
  match m with
  | [] => [(k, v)]
  | (k', v') :: m' =>
      if String.eqb k k' then (k, v) :: m' else (k', v') :: map_set k v m'
  end.

Fixpoint map_delete (k : string) (m : JsMap) : JsMap :=
  match m with
  | [] => []
  | (k', v') :: m' =>
      if String.eqb k k' then m' else (k', v') :: map_delete k m'
  end.

Definition map_values (m : JsMap) : list V := map snd m.
Definition map_keys (m : JsMap) : list string := map fst m.
End JsMapOps.

Arguments map_get {V} k m.
Arguments map_has {V} k m.
Arguments map_set {V} k v m.
Arguments map_delete {V} k m.
Arguments map_values {V} m.
Arguments map_keys {V} m.

(** A [Set<string>]: insertion-ordered, [add] ignores a member. *)
Definition set_has (k : string) (s : list string) : bool :=
  existsb (String.eqb k) s.

Definition set_add (k : string) (s : list string) : list string :=
  if set_has k s then s else (s ++ [k])%list.

(* ================================================================== *)
(** ** Strings: [trim], [sort], [join] and decimal indices *)

(** White space and line terminators among the code units below U+0100:
    TAB, LF, VT, FF, CR, SP and NBSP. *)
Definition isWhitespace (c : ascii) : bool :=
  let n := nat_of_ascii c in
  ((9 <=? n)%nat && (n <=? 13)%nat) || (n =? 32)%nat || (n =? 160)%nat.

Fixpoint trimStart (s : string) : string :=
  match s with
  | EmptyString => EmptyString
  | String c s' => if isWhitespace c then trimStart s' else s
  end.

Fixpoint trimEnd (s : string) : string :=
  match s with
  | EmptyString => EmptyString
  | String c s' =>
      let t := trimEnd s' in
      if isWhitespace c && String.eqb t "" then "" else String c t
  end.

Definition trim (s : string) : string := trimEnd (trimStart s).

(** [Array.prototype.sort()] without comparator on strings: ascending
    code-unit order.  An insertion sort; it is stable, as the built-in. *)
Fixpoint insertSorted (s : string) (l : list string) : list string :=
  match l with
  | [] => [s]
  | x :: l' => if String.leb x s then x :: insertSorted s l' else s :: l
  end.

Definition sortStrings (l : list string) : list string :=
  fold_left (fun acc s => insertSorted s acc) l [].

(** [arr.join(sep)] *)
Definition join (sep : string) (l : list string) : string :=
  String.concat sep l.

(** The property name of array index [i]. *)
Definition indexKey (i : nat) : string :=
  NilZero.string_of_uint (Nat.to_uint i).

Definition numberToString (n : Z) : string :=
  NilZero.string_of_int (Z.to_int n).

(* ================================================================== *)
(** ** Own properties of a record *)

(** The own enumerable string-keyed properties, in enumeration order
    ([Object.entries]); an array is a record of its indices. *)
Definition ownEntries (item : Json) : list (string * Json) :=
  match item with
  | JObj fs => fs
  | JArr xs => combine (map indexKey (seq 0 (List.length xs))) xs
  | _ => []
  end.

(** [Object.keys] *)
Definition objectKeys (item : Json) : list string :=
  map fst (ownEntries item).

(** [item[key]] on an own property; an array also owns [length]. *)
Definition getProp (item : Json) (key : string) : JsValue :=
  match item with
  | JArr xs =>
      if String.eqb key "length" then Some (JNum (Z.of_nat (List.length xs)))
      else map_get key (ownEntries item)
  | _ => map_get key (ownEntries item)
  end.

(** [Object.prototype.hasOwnProperty.call(item, key)] *)
Definition hasOwnProperty (item : Json) (key : string) : bool :=
  match getProp item key with
  | Some _ => true
  | None => false
  end.

(** [getObjectSignature]: [Object.keys(obj).sort().join(",")] *)
Definition getObjectSignature (obj : Json) : string :=
  join "," (sortStrings (objectKeys obj)).

(** A plain object as produced by a spread: a list of properties. *)
Definition JsonEntry := list (string * Json).

(** [{...item, k1: v1, ..., kn: vn}] *)
Definition spreadWith (item : Json) (extra : list (string * Json)) : JsonEntry :=
  fold_left (fun o kv => map_set (fst kv) (snd kv) o) extra (ownEntries item).

(* ================================================================== *)
(** ** Deep equality (lodash [isEqual]) *)

(** Structural equality: arrays element-wise in order, objects by name
    whatever the order of their properties, an array never equal to a
    plain object. *)
Fixpoint isEqual (a b : Json) {struct a} : bool :=
  match a, b with
  | JNull, JNull => true
  | JBool x, JBool y => Bool.eqb x y
  | JNum x, JNum y => Z.eqb x y
  | JStr x, JStr y => String.eqb x y
  | JArr xs, JArr ys =>
      (fix go (xs ys : list Json) {struct xs} : bool :=
         match xs, ys with
         | [], [] => true
         | x :: xs', y :: ys' => isEqual x y && go xs' ys'
         | _, _ => false
         end) xs ys
  | JObj fs, JObj gs =>
      Nat.eqb (List.length fs) (List.length gs) &&
      (fix go (fs : list (string * Json)) : bool :=
         match fs with
         | [] => true
         | (k, v) :: fs' =>
             match map_get k gs with
             | Some w => isEqual v w && go fs'
             | None => false
             end
         end) fs
  | _, _ => false
  end.

(** [isEqual] on values that may be [undefined]. *)
Definition isEqualValue (a b : JsValue) : bool :=
  match a, b with
  | None, None => true
  | Some x, Some y => isEqual x y
  | _, _ => false
  end.

(** Well-formed documents: no object repeats a property name. *)
Fixpoint wfJson (v : Json) : Prop :=
  match v with
  | JArr xs =>
      (fix go (xs : list Json) : Prop :=
         match xs with
         | [] => True
         | x :: xs' => wfJson x /\ go xs'
         end) xs
  | JObj fs =>
      NoDup (map fst fs) /\
      (fix go (fs : list (string * Json)) : Prop :=
         match fs with
         | [] => True
         | (_, v) :: fs' => wfJson v /\ go fs'
         end) fs
  | _ => True
  end.

(* ================================================================== *)
(** ** String conversions: template literals and [JSON.stringify] *)

(** [String(v)], as a template literal applies it to an interpolated
    value. *)
Fixpoint toStringJson (v : Json) : string :=
  match v with
  | JNull => "null"
  | JBool true => "true"
  | JBool false => "false"
  | JNum n => numberToString n
  | JStr s => s
  | JArr xs =>
      join "," (map (fun x => match x with
                              | JNull => ""
                              | _ => toStringJson x
                              end) xs)
  | JObj _ => "[object Object]"
  end.

Definition toStringValue (v : JsValue) : string :=
  match v with
  | None => "undefined"
  | Some x => toStringJson x
  end.

Definition hexDigit (n : nat) : ascii :=
  ascii_of_nat (if (n <? 10)%nat then 48 + n else 87 + n).

Definition dquote : ascii := ascii_of_nat 34.
Definition backslash : ascii := ascii_of_nat 92.

(** The escape of one code unit inside a JSON string literal. *)
Definition escapeChar (c : ascii) : string :=
  let n := nat_of_ascii c in
  if (n =? 34)%nat then String backslash (String dquote EmptyString)
  else if (n =? 92)%nat then "\\"
  else if (n =? 8)%nat then "\b"
  else if (n =? 12)%nat then "\f"
  else if (n =? 10)%nat then "\n"
  else if (n =? 13)%nat then "\r"
  else if (n =? 9)%nat then "\t"
  else if (n <? 32)%nat then
    "\u00" ++ String (hexDigit (n / 16)) (String (hexDigit (n mod 16)) "")
  else String c "".

Fixpoint escapeString (s : string) : string :=
  match s with
  | EmptyString => EmptyString
  | String c s' => escapeChar c ++ escapeString s'
  end.

Definition quoteJson (s : string) : string :=
  String dquote (escapeString s ++ String dquote EmptyString).

(** [JSON.stringify(v)] without indentation. *)
Fixpoint jsonStringify (v : Json) : string :=
  match v with
  | JNull => "null"
  | JBool true => "true"
  | JBool false => "false"
  | JNum n => numberToString n
  | JStr s => quoteJson s
  | JArr xs => "[" ++ join "," (map jsonStringify xs) ++ "]"
  | JObj fs =>
      "{" ++ join "," (map (fun kv => quoteJson (fst kv) ++ ":" ++
                                      jsonStringify (snd kv)) fs) ++ "}"
  end.

(* ================================================================== *)
(** ** Interfaces of the result *)

(** [{ before: unknown; after: unknown }] of a changed field. *)
Module Change.
Record t : Type := make { before : Json; after : Json }.
End Change.

Record FieldChanges : Type := {
  added : JsMap Json;
  removed : JsMap Json;
  changed : JsMap Change.t
}.

Record ModifiedEntry : Type := {
  keyFieldValue : string;
  keyFieldUsed : string;
  objectSignature : string;
  before : Json;
  after : Json;
  changes : FieldChanges
}.

Inductive Side : Type := Before | After.

(** The messages pushed to [localErrors]. *)
Inductive Warning : Type :=
| SkippingNonObject (side : Side) (item : Json)
| InvalidKeyValue (side : Side) (keyField sig : string) (value : JsValue)
| DuplicateKey (side : Side) (keyValue keyField sig : string).

(** The messages given to [setError] before [compareJsons] returns
    without a result. *)
Inductive FatalError : Type :=
| InvalidInputShape (side : Side)
| MissingKeySelection (sig : string).

Record ComparisonResult : Type := {
  newEntries : list JsonEntry;
  modifiedEntries : list ModifiedEntry;
  deletedEntries : list JsonEntry;
  errors : list Warning
}.

Record JsonObjectStructure : Type := {
  signature : string;
  keys : list string;
  count : nat;
  potentialKeyFields : list string
}.

(** [SelectedKeyConfig]: a plain object from signature to key field. *)
Definition SelectedKeyConfig := JsMap string.

(** The names every plain object inherits from [Object.prototype]. *)
Definition objectPrototypeNames : list string :=
  ["constructor"; "__defineGetter__"; "__defineSetter__"; "hasOwnProperty";
   "__lookupGetter__"; "__lookupSetter__"; "isPrototypeOf";
   "propertyIsEnumerable"; "toString"; "valueOf"; "__proto__";
   "toLocaleString"].

Definition inheritedName (k : string) : bool :=
  existsb (String.eqb k) objectPrototypeNames.

(** [String(v)] for the member a plain object inherits under [name]: a
    native function prints its name, [constructor] being [Object]; under
    [__proto__] the member is the prototype object itself. *)
Definition memberText (name : string) : string :=
  if String.eqb name "__proto__" then "[object Object]"
  else "function " ++
       (if String.eqb name "constructor" then "Object" else name) ++
       "() { [native code] }".

(** [selectedKeyConfig[sig]] where it is tested for truthiness and then
    used as a key field.  An own entry gives its string, and the empty
    string counts as no key field.  Without an own entry the read goes
    to [Object.prototype]: a signature that is the name of one of its
    members reads that member, which is truthy; every later use of it as
    a key field ([item[keyField]], [hasOwnProperty], a template literal)
    converts it to its text. *)
Definition keyFieldOf (selectedKeyConfig : SelectedKeyConfig) (sig : string)
  : option string :=
  match map_get sig selectedKeyConfig with
  | Some kf => if String.eqb kf "" then None else Some kf
  | None => if inheritedName sig then Some (memberText sig) else None
  end.

(* ================================================================== *)
(** ** Shape analysis: [analyzeJsonStructures] *)

Inductive AnalysisError : Type :=
| NotAnArray
| NonObjectItems.

Record AnalysisResult : Type := {
  structures : list JsonObjectStructure;
  error : option AnalysisError
}.

(** The value kept per signature in [structureMap]. *)
Module Shape.
Record t : Type := make { keys : list string; instances : list Json }.
End Shape.

(** [structureMap.get(signature)!] followed by a mutation of the object
    it returns. *)
Fixpoint map_update {V : Type} (k : string) (f : V -> V) (m : JsMap V)
  : JsMap V :=
  match m with
  | [] => []
  | (k', v) :: m' =>
      if String.eqb k k' then (k', f v) :: m' else (k', v) :: map_update k f m'
  end.

(** [new Set(list)] *)
Definition set_of_list (l : list string) : list string :=
  fold_left (fun s k => set_add k s) l [].

(** One iteration of the grouping loop. *)
Definition groupItem (structureMap : JsMap Shape.t) (item : Json)
  : JsMap Shape.t :=
  if negb (isObject item) then structureMap
  else
    let sig := getObjectSignature item in
    let m1 :=
      if negb (map_has sig structureMap)
      then map_set sig (Shape.make (set_of_list (objectKeys item)) [])
             structureMap
      else structureMap in
    let m2 :=
      map_update sig
        (fun d => Shape.make (Shape.keys d) (Shape.instances d ++ [item])%list)
        m1 in
    fold_left
      (fun m k =>
         map_update sig
           (fun d => Shape.make (set_add k (Shape.keys d)) (Shape.instances d))
           m)
      (objectKeys item) m2.

(** The test of a potential key field on one instance. *)
Definition isNonEmptyStringField (instance : Json) (key : string) : bool :=
  hasOwnProperty instance key &&
  match getProp instance key with
  | Some (JStr s) => negb (String.eqb (trim s) "")
  | _ => false
  end.

Definition potentialKeysOf (instances : list Json) : list string :=
  match instances with
  | [] => []
  | first :: _ =>
      filter (fun key =>
                forallb (fun instance => isNonEmptyStringField instance key)
                  instances)
        (objectKeys first)
  end.

Definition structureOf (entry : string * Shape.t) : JsonObjectStructure :=
  let (sig, data) := entry in
  {| signature := sig;
     keys := sortStrings (Shape.keys data);
     count := List.length (Shape.instances data);
     potentialKeyFields := sortStrings (potentialKeysOf (Shape.instances data))
  |}.

Section Engine.

(** [a.localeCompare(b)]: the collation of the host, a parameter. *)
Variable localeCompare : string -> string -> comparison.

(** [structures.sort((a, b) => a.signature.localeCompare(b.signature))],
    as a stable insertion sort. *)
Fixpoint insertStructure (s : JsonObjectStructure)
  (l : list JsonObjectStructure) : list JsonObjectStructure :=
  match l with
  | [] => [s]
  | x :: l' =>
      match localeCompare (signature x) (signature s) with
      | Gt => s :: l
      | _ => x :: insertStructure s l'
      end
  end.

Definition sortStructures (l : list JsonObjectStructure)
  : list JsonObjectStructure :=
  fold_left (fun acc s => insertStructure s acc) l [].

(** [analyzeJsonStructures], from the parsed document on. *)
Definition analyzeJsonStructures (parsed : Json) : AnalysisResult :=
  match parsed with
  | JArr items =>
      if existsb (fun item => negb (isObject item)) items
      then {| structures := []; error := Some NonObjectItems |}
      else
        let structureMap := fold_left groupItem items [] in
        {| structures := sortStructures (map structureOf structureMap);
           error := None |}
  | _ => {| structures := []; error := Some NotAnArray |}
  end.

End Engine.

(* ================================================================== *)
(** ** Key auto-selection: the effect behind [resolveKeys] *)

(** [allAnalyzedStructures]: the structures of 'before', then those of
    'after' where the signature is new or has no candidate yet. *)
Definition mergeStructures
  (beforeStructures afterStructures : list JsonObjectStructure)
  : JsMap JsonObjectStructure :=
  let m0 := fold_left (fun m s => map_set (signature s) s m)
              beforeStructures [] in
  fold_left
    (fun m s =>
       if negb (map_has (signature s) m) ||
          match map_get (signature s) m with
          | Some s0 => Nat.eqb (List.length (potentialKeyFields s0)) 0
          | None => false
          end
       then map_set (signature s) s m
       else m)
    afterStructures m0.

(** One call of the [forEach] that fills [newSelectedKeys].  The
    assignment is reached where the read of the signature is falsy: the
    signature then has an own (empty) entry or is not the name of a
    member of [Object.prototype], and the assignment sets an own
    property. *)
Definition autoSelect (newSelectedKeys : SelectedKeyConfig)
  (s : JsonObjectStructure) : SelectedKeyConfig :=
  match potentialKeyFields s, keyFieldOf newSelectedKeys (signature s) with
  | [candidate], None => map_set (signature s) candidate newSelectedKeys
  | _, _ => newSelectedKeys
  end.

Definition resolveKeys
  (beforeStructures afterStructures : list JsonObjectStructure)
  (selectedKeyConfig : SelectedKeyConfig) : SelectedKeyConfig :=
  fold_left autoSelect
    (map_values (mergeStructures beforeStructures afterStructures))
    selectedKeyConfig.

(* ================================================================== *)
(** ** Field changes: [calculateFieldChanges] *)

Definition emptyChanges : FieldChanges :=
  {| added := []; removed := []; changed := [] |}.

(** [new Set([...Object.keys(obj1), ...Object.keys(obj2)])] *)
Definition allKeysOf (obj1 obj2 : Json) : list string :=
  set_of_list (objectKeys obj1 ++ objectKeys obj2)%list.

(** [o[key] = v] on one of the three objects of a change set, each
    created as [{}]: under the name [__proto__] the assignment reaches
    the setter of [Object.prototype] and leaves no own property. *)
Definition assignField (V : Type) (key : string) (v : V) (o : JsMap V)
  : JsMap V :=
  if String.eqb key "__proto__" then o else map_set key v o.

(** The body of [allKeys.forEach].  [obj1HasKey] is [val1 <> None]: an
    own property read is defined exactly when the property is owned. *)
Definition fieldChangeStep (obj1 obj2 : Json) (ch : FieldChanges)
  (key : string) : FieldChanges :=
  let val1 := getProp obj1 key in
  let val2 := getProp obj2 key in
  match val1, val2 with
  | None, Some v2 =>
      {| added := assignField key v2 (added ch);
         removed := removed ch; changed := changed ch |}
  | Some v1, None =>
      {| added := added ch;
         removed := assignField key v1 (removed ch); changed := changed ch |}
  | Some v1, Some v2 =>
      if negb (isEqual v1 v2)
      then {| added := added ch; removed := removed ch;
              changed := assignField key (Change.make v1 v2) (changed ch) |}
      else ch
  | None, None => ch
  end.

Definition calculateFieldChanges (obj1 obj2 : Json) : FieldChanges :=
  fold_left (fieldChangeStep obj1 obj2) (allKeysOf obj1 obj2) emptyChanges.

(** The same loop body as the first variant of the page writes it
    ([src/unnamed/part_000]): the third test is [!isEqual(val1, val2)]
    alone. *)
Definition fieldChangeStepLegacy (obj1 obj2 : Json) (ch : FieldChanges)
  (key : string) : FieldChanges :=
  let val1 := getProp obj1 key in
  let val2 := getProp obj2 key in
  if negb (hasOwnProperty obj1 key) && hasOwnProperty obj2 key
  then match val2 with
       | Some v2 =>
           {| added := assignField key v2 (added ch);
              removed := removed ch; changed := changed ch |}
       | None => ch
       end
  else if hasOwnProperty obj1 key && negb (hasOwnProperty obj2 key)
  then match val1 with
       | Some v1 =>
           {| added := added ch;
              removed := assignField key v1 (removed ch); changed := changed ch |}
       | None => ch
       end
  else if negb (isEqualValue val1 val2)
  then match val1, val2 with
       | Some v1, Some v2 =>
           {| added := added ch; removed := removed ch;
              changed := assignField key (Change.make v1 v2) (changed ch) |}
       | _, _ => ch
       end
  else ch.

Definition calculateFieldChangesLegacy (obj1 obj2 : Json) : FieldChanges :=
  fold_left (fieldChangeStepLegacy obj1 obj2) (allKeysOf obj1 obj2)
    emptyChanges.

(** [delete changes.changed[keyField]] when the entry exists although
    the two key values are deeply equal.  Where [changed] has no own
    entry for the key field the deletion has no effect, whatever the
    test reads through the prototype chain. *)
Definition dropSpuriousKeyChange (keyField : string) (b a : Json)
  (ch : FieldChanges) : FieldChanges :=
  if map_has keyField (changed ch) &&
     isEqualValue (getProp b keyField) (getProp a keyField)
  then {| added := added ch; removed := removed ch;
          changed := map_delete keyField (changed ch) |}
  else ch.

(** [Object.keys(changes.added).length > 0 || ...] *)
Definition hasChanges (ch : FieldChanges) : bool :=
  negb (Nat.eqb (List.length (added ch)) 0) ||
  negb (Nat.eqb (List.length (removed ch)) 0) ||
  negb (Nat.eqb (List.length (changed ch)) 0).

(** Re-applying a change set to a record, as the specification words
    it: every field of [removed] is deleted, every field of [added] is
    inserted with its after-value, every field of [changed] is replaced
    by its after-value. *)
Definition applyChanges (ch : FieldChanges) (fields : JsonEntry) : JsonEntry :=
  let r1 := fold_left (fun o kv => map_delete (fst kv) o) (removed ch) fields in
  let r2 := fold_left (fun o kv => map_set (fst kv) (snd kv) o) (added ch) r1 in
  fold_left (fun o kv => map_set (fst kv) (Change.after (snd kv)) o)
    (changed ch) r2.

(* ================================================================== *)
(** ** The comparison: [compareJsons] *)

(** The value kept per key value in [beforeMap] and [afterMap]. *)
Module Entry.
Record t : Type := make { item : Json; signature : string; keyField : string }.
End Entry.

(** The test on the key field of a record: its value when the record
    owns the field and holds there a string that is not empty once
    trimmed, [None] when the record is to be skipped. *)
Definition validKeyValue (item : Json) (keyField : string) : option string :=
  if negb (hasOwnProperty item keyField) then None
  else match getProp item keyField with
       | Some (JStr s) => if String.eqb (trim s) "" then None else Some s
       | _ => None
       end.

(** One iteration of the loop that fills [beforeMap] or [afterMap]. *)
Definition populateStep (side : Side) (selectedKeyConfig : SelectedKeyConfig)
  (st : JsMap Entry.t * list Warning) (item : Json)
  : JsMap Entry.t * list Warning :=
  let (m, localErrors) := st in
  if negb (isObject item)
  then (m, (localErrors ++ [SkippingNonObject side item])%list)
  else
    let sig := getObjectSignature item in
    match keyFieldOf selectedKeyConfig sig with
    | None => (m, localErrors)
    | Some keyField =>
        match validKeyValue item keyField with
        | None =>
            (m, (localErrors ++
                 [InvalidKeyValue side keyField sig (getProp item keyField)])%list)
        | Some keyValue =>
            let localErrors' :=
              if map_has keyValue m
              then (localErrors ++ [DuplicateKey side keyValue keyField sig])%list
              else localErrors in
            (map_set keyValue (Entry.make item sig keyField) m, localErrors')
        end
    end.

Definition populateMap (side : Side) (selectedKeyConfig : SelectedKeyConfig)
  (data : list Json) (localErrors : list Warning)
  : JsMap Entry.t * list Warning :=
  fold_left (populateStep side selectedKeyConfig) data ([], localErrors).

(** The three lists while they are being filled. *)
Record Lists : Type := {
  pushedNew : list JsonEntry;
  pushedModified : list ModifiedEntry;
  pushedDeleted : list JsonEntry
}.

Definition emptyLists : Lists :=
  {| pushedNew := []; pushedModified := []; pushedDeleted := [] |}.

Definition pushNew (e : JsonEntry) (st : Lists) : Lists :=
  {| pushedNew := (pushedNew st ++ [e])%list;
     pushedModified := pushedModified st;
     pushedDeleted := pushedDeleted st |}.

Definition pushModified (e : ModifiedEntry) (st : Lists) : Lists :=
  {| pushedNew := pushedNew st;
     pushedModified := (pushedModified st ++ [e])%list;
     pushedDeleted := pushedDeleted st |}.

Definition pushDeleted (e : JsonEntry) (st : Lists) : Lists :=
  {| pushedNew := pushedNew st;
     pushedModified := pushedModified st;
     pushedDeleted := (pushedDeleted st ++ [e])%list |}.

(** [{...item, objectSignature: sig}] *)
Definition unkeyedEntry (item : Json) (sig : string) : JsonEntry :=
  spreadWith item [("objectSignature", JStr sig)].

(** [{...item, objectSignature: sig, keyFieldUsed: keyField}] *)
Definition keyedEntry (item : Json) (sig keyField : string) : JsonEntry :=
  spreadWith item
    [("objectSignature", JStr sig); ("keyFieldUsed", JStr keyField)].

(** One iteration of the loop over [afterData]. *)
Definition classifyAfterStep (selectedKeyConfig : SelectedKeyConfig)
  (beforeMap afterMap : JsMap Entry.t) (st : Lists) (item : Json) : Lists :=
  if negb (isObject item) then st
  else
    let sig := getObjectSignature item in
    match keyFieldOf selectedKeyConfig sig with
    | None => pushNew (unkeyedEntry item sig) st
    | Some keyField =>
        (* [afterMap.get(item[keyField])]: the keys of the map are
           strings, and only an own property of a record holds one *)
        match getProp item keyField with
        | Some (JStr keyValue) =>
            match map_get keyValue afterMap with
            | None => st
            | Some afterEntry =>
                match map_get keyValue beforeMap with
                | None =>
                    pushNew (keyedEntry (Entry.item afterEntry) sig keyField)
                      st
                | Some beforeEntry =>
                    if negb (String.eqb (Entry.signature beforeEntry)
                               (Entry.signature afterEntry))
                    then
                      pushNew
                        (keyedEntry (Entry.item afterEntry)
                           (Entry.signature afterEntry)
                           (Entry.keyField afterEntry))
                        (pushDeleted
                           (keyedEntry (Entry.item beforeEntry)
                              (Entry.signature beforeEntry)
                              (Entry.keyField beforeEntry)) st)
                    else if negb (isEqual (Entry.item beforeEntry)
                                    (Entry.item afterEntry))
                    then
                      let ch :=
                        dropSpuriousKeyChange keyField
                          (Entry.item beforeEntry) (Entry.item afterEntry)
                          (calculateFieldChanges (Entry.item beforeEntry)
                             (Entry.item afterEntry)) in
                      if hasChanges ch
                      then pushModified
                             {| keyFieldValue := keyValue;
                                keyFieldUsed := keyField;
                                objectSignature := sig;
                                before := Entry.item beforeEntry;
                                after := Entry.item afterEntry;
                                changes := ch |} st
                      else st
                    else st
                end
            end
        | _ => st
        end
    end.

(** [value === s] for a string [s]; a value found up the prototype
    chain is no string. *)
Definition strictEqString (v : JsValue) (s : string) : bool :=
  match v with
  | Some (JStr t) => String.eqb t s
  | _ => false
  end.

(** One iteration of the loop over [beforeData]. *)
Definition classifyBeforeStep (selectedKeyConfig : SelectedKeyConfig)
  (afterData : list Json) (beforeMap afterMap : JsMap Entry.t)
  (st : Lists) (item : Json) : Lists :=
  if negb (isObject item) then st
  else
    let sig := getObjectSignature item in
    match keyFieldOf selectedKeyConfig sig with
    | None =>
        let isPotentiallyDeleted :=
          negb (existsb
                  (fun afterItem =>
                     if isObject afterItem
                     then String.eqb (getObjectSignature afterItem) sig
                     else false)
                  afterData) in
        if isPotentiallyDeleted
        then pushDeleted (unkeyedEntry item sig) st
        else st
    | Some keyField =>
        match getProp item keyField with
        | Some (JStr keyValue) =>
            match map_get keyValue beforeMap with
            | Some beforeEntry =>
                if negb (map_has keyValue afterMap)
                then
                  let alreadyDeletedDueToSigChange :=
                    existsb
                      (fun de =>
                         strictEqString (map_get "objectSignature" de)
                           (Entry.signature beforeEntry) &&
                         strictEqString
                           (map_get (Entry.keyField beforeEntry) de) keyValue)
                      (pushedDeleted st) in
                  if negb alreadyDeletedDueToSigChange
                  then pushDeleted
                         (keyedEntry (Entry.item beforeEntry) sig keyField) st
                  else st
                else st
            | None => st
            end
        | _ => st
        end
    end.

(** [`${entry[k]}`] on an entry, a plain object: an own property, or
    the member inherited under that name, or [undefined]. *)
Definition entryText (e : JsonEntry) (k : string) : string :=
  match map_get k e with
  | Some v => toStringJson v
  | None => if inheritedName k then memberText k else "undefined"
  end.

(** [makeEntryId(e, e.objectSignature, selectedKeyConfig)] *)
Definition makeEntryId (selectedKeyConfig : SelectedKeyConfig) (e : JsonEntry)
  : string :=
  let sig := toStringValue (map_get "objectSignature" e) in
  match keyFieldOf selectedKeyConfig sig with
  | Some kf => sig ++ "::" ++ entryText e kf
  | None => sig ++ "::" ++ jsonStringify (JObj e)
  end.

(** [Array.from(new Map(entries.map(e => [makeEntryId(...), e])).values())] *)
Definition dedupEntries (selectedKeyConfig : SelectedKeyConfig)
  (entries : list JsonEntry) : list JsonEntry :=
  map_values
    (fold_left (fun m e => map_set (makeEntryId selectedKeyConfig e) e m)
       entries []).

(** [activeSignatures] *)
Definition addSignatures (data : list Json) (s : list string) : list string :=
  fold_left (fun s item =>
               if isObject item then set_add (getObjectSignature item) s
               else s)
    data s.

Definition hasSignature (l : list JsonObjectStructure) (sig : string) : bool :=
  existsb (fun s => String.eqb (signature s) sig) l.

(** The first signature at which the validation loop returns. *)
Definition missingKeySelection
  (beforeJsonStructures afterJsonStructures : list JsonObjectStructure)
  (selectedKeyConfig : SelectedKeyConfig) (activeSignatures : list string)
  : option string :=
  find (fun sig =>
          hasSignature beforeJsonStructures sig &&
          hasSignature afterJsonStructures sig &&
          match keyFieldOf selectedKeyConfig sig with
          | None => true
          | Some _ => false
          end)
    activeSignatures.

(** The classification before the deduplication pass. *)
Definition classify (selectedKeyConfig : SelectedKeyConfig)
  (beforeData afterData : list Json) (beforeMap afterMap : JsMap Entry.t)
  : Lists :=
  let st1 :=
    fold_left (classifyAfterStep selectedKeyConfig beforeMap afterMap)
      afterData emptyLists in
  fold_left
    (classifyBeforeStep selectedKeyConfig afterData beforeMap afterMap)
    beforeData st1.

(** [compareJsons], from the two parsed documents on; the structures and
    the key configuration are the component state it reads. *)
Definition compareJsons (beforeParsed afterParsed : Json)
  (beforeJsonStructures afterJsonStructures : list JsonObjectStructure)
  (selectedKeyConfig : SelectedKeyConfig)
  : FatalError + ComparisonResult :=
  match beforeParsed with
  | JArr beforeData =>
      match afterParsed with
      | JArr afterData =>
          let activeSignatures :=
            addSignatures afterData (addSignatures beforeData []) in
          match missingKeySelection beforeJsonStructures afterJsonStructures
                  selectedKeyConfig activeSignatures with
          | Some sig => inl (MissingKeySelection sig)
          | None =>
              let (beforeMap, errs1) :=
                populateMap Before selectedKeyConfig beforeData [] in
              let (afterMap, errs2) :=
                populateMap After selectedKeyConfig afterData errs1 in
              let st :=
                classify selectedKeyConfig beforeData afterData
                  beforeMap afterMap in
              inr {| newEntries :=
                       dedupEntries selectedKeyConfig (pushedNew st);
                     modifiedEntries := pushedModified st;
                     deletedEntries :=
                       dedupEntries selectedKeyConfig (pushedDeleted st);
                     errors := errs2 |}
          end
      | _ => inl (InvalidInputShape After)
      end
  | _ => inl (InvalidInputShape Before)
  end.

Section Diff.

Variable localeCompare : string -> string -> comparison.

(** The engine as the specification names it: the structures read by
    [compareJsons] are those the analysis effect computed from the same
    two documents. *)
Definition diff (beforeParsed afterParsed : Json)
  (selectedKeyConfig : SelectedKeyConfig) : FatalError + ComparisonResult :=
  compareJsons beforeParsed afterParsed
    (structures (analyzeJsonStructures localeCompare beforeParsed))
    (structures (analyzeJsonStructures localeCompare afterParsed))
    selectedKeyConfig.

End Diff.

(* ================================================================== *)
(** ** Auxiliary predicates *)

(** Every value of the merged map sits under its own signature. *)
Definition keyedBySignature (m : JsMap JsonObjectStructure) : Prop :=
  NoDup (map_keys m) /\ forall k s, In (k, s) m -> signature s = k.


(** The map component of [populateStep]. *)
Definition storeItem (selectedKeyConfig : SelectedKeyConfig)
  (m : JsMap Entry.t) (item : Json) : JsMap Entry.t :=
  if negb (isObject item) then m
  else
    match keyFieldOf selectedKeyConfig (getObjectSignature item) with
    | None => m
    | Some keyField =>
        match validKeyValue item keyField with
        | None => m
        | Some keyValue =>
            map_set keyValue
              (Entry.make item (getObjectSignature item) keyField) m
        end
    end.

(** [e] is what [populateStep] stores for [item] under [keyValue]. *)
Definition entryOf (selectedKeyConfig : SelectedKeyConfig) (item : Json)
  (keyValue : string) (e : Entry.t) : Prop :=
  isObject item = true /\
  Entry.item e = item /\
  Entry.signature e = getObjectSignature item /\
  keyFieldOf selectedKeyConfig (getObjectSignature item) =
    Some (Entry.keyField e) /\
  validKeyValue item (Entry.keyField e) = Some keyValue.

Definition chars (s : string) : list ascii := list_ascii_of_string s.

Definition isDigit (c : ascii) : Prop :=
  (48 <= nat_of_ascii c <= 57)%nat.

(** What [fieldChangeStep] records for a field in each sub-mapping;
    nothing under the name [__proto__]. *)
Definition addedAt (obj1 obj2 : Json) (key : string) : option Json :=
  if String.eqb key "__proto__" then None
  else match getProp obj1 key, getProp obj2 key with
       | None, Some v2 => Some v2
       | _, _ => None
       end.

Definition removedAt (obj1 obj2 : Json) (key : string) : option Json :=
  if String.eqb key "__proto__" then None
  else match getProp obj1 key, getProp obj2 key with
       | Some v1, None => Some v1
       | _, _ => None
       end.

Definition changedAt (obj1 obj2 : Json) (key : string) : option Change.t :=
  if String.eqb key "__proto__" then None
  else match getProp obj1 key, getProp obj2 key with
       | Some v1, Some v2 =>
           if negb (isEqual v1 v2) then Some (Change.make v1 v2) else None
       | _, _ => None
       end.

(** A loop that sets, for each key of a list, the value a function
    gives for it, if any. *)
Definition setEach (V : Type) (f : string -> option V) (l : list string)
  (m : JsMap V) : JsMap V :=
  fold_left (fun m key => match f key with
                          | Some v => map_set key v m
                          | None => m
                          end) l m.

(** The ways one iteration over [afterData] changes the three lists. *)
Inductive AfterOutcome (kc : SelectedKeyConfig)
  (beforeMap afterMap : JsMap Entry.t) (item : Json) (st : Lists)
  : Lists -> Prop :=
| AfterSkipped : AfterOutcome kc beforeMap afterMap item st st
| AfterUnkeyed :
    isObject item = true ->
    keyFieldOf kc (getObjectSignature item) = None ->
    AfterOutcome kc beforeMap afterMap item st
      (pushNew (unkeyedEntry item (getObjectSignature item)) st)
| AfterNew kf v ea :
    isObject item = true ->
    keyFieldOf kc (getObjectSignature item) = Some kf ->
    getProp item kf = Some (JStr v) ->
    map_get v afterMap = Some ea ->
    map_get v beforeMap = None ->
    AfterOutcome kc beforeMap afterMap item st
      (pushNew (keyedEntry (Entry.item ea) (getObjectSignature item) kf) st)
| AfterReplaced kf v ea eb :
    isObject item = true ->
    keyFieldOf kc (getObjectSignature item) = Some kf ->
    getProp item kf = Some (JStr v) ->
    map_get v afterMap = Some ea ->
    map_get v beforeMap = Some eb ->
    Entry.signature eb <> Entry.signature ea ->
    AfterOutcome kc beforeMap afterMap item st
      (pushNew
         (keyedEntry (Entry.item ea) (Entry.signature ea) (Entry.keyField ea))
         (pushDeleted
            (keyedEntry (Entry.item eb) (Entry.signature eb)
               (Entry.keyField eb)) st))
| AfterModified kf v ea eb :
    isObject item = true ->
    keyFieldOf kc (getObjectSignature item) = Some kf ->
    getProp item kf = Some (JStr v) ->
    map_get v afterMap = Some ea ->
    map_get v beforeMap = Some eb ->
    Entry.signature eb = Entry.signature ea ->
    isEqual (Entry.item eb) (Entry.item ea) = false ->
    hasChanges (calculateFieldChanges (Entry.item eb) (Entry.item ea)) = true ->
    AfterOutcome kc beforeMap afterMap item st
      (pushModified
         {| keyFieldValue := v;
            keyFieldUsed := kf;
            objectSignature := getObjectSignature item;
            before := Entry.item eb;
            after := Entry.item ea;
            changes := calculateFieldChanges (Entry.item eb) (Entry.item ea) |}
         st).

(** The ways one iteration over [beforeData] changes the three lists. *)
Inductive BeforeOutcome (kc : SelectedKeyConfig) (afterData : list Json)
  (beforeMap afterMap : JsMap Entry.t) (item : Json) (st : Lists)
  : Lists -> Prop :=
| BeforeSkipped : BeforeOutcome kc afterData beforeMap afterMap item st st
| BeforeUnkeyed :
    isObject item = true ->
    keyFieldOf kc (getObjectSignature item) = None ->
    (forall afterItem, In afterItem afterData -> isObject afterItem = true ->
                       getObjectSignature afterItem <> getObjectSignature item) ->
    BeforeOutcome kc afterData beforeMap afterMap item st
      (pushDeleted (unkeyedEntry item (getObjectSignature item)) st)
| BeforeDeleted kf v eb :
    isObject item = true ->
    keyFieldOf kc (getObjectSignature item) = Some kf ->
    getProp item kf = Some (JStr v) ->
    map_get v beforeMap = Some eb ->
    map_get v afterMap = None ->
    BeforeOutcome kc afterData beforeMap afterMap item st
      (pushDeleted (keyedEntry (Entry.item eb) (getObjectSignature item) kf) st).

(** A modified entry pairs the two records the lookups hold for its key
    value, which have one signature, and carries their field changes. *)
Definition matchedPair (beforeMap afterMap : JsMap Entry.t)
  (m : ModifiedEntry) : Prop :=
  exists eb ea,
    map_get (keyFieldValue m) beforeMap = Some eb /\
    map_get (keyFieldValue m) afterMap = Some ea /\
    before m = Entry.item eb /\
    after m = Entry.item ea /\
    Entry.signature eb = Entry.signature ea /\
    changes m = calculateFieldChanges (before m) (after m) /\
    hasChanges (changes m) = true.

(** A record the comparison can track: an object that is unkeyed, or
    whose configured key field holds a valid key value. *)
Definition trackable (kc : SelectedKeyConfig) (item : Json) : Prop :=
  isObject item = true /\
  (keyFieldOf kc (getObjectSignature item) = None \/
   exists kf v, keyFieldOf kc (getObjectSignature item) = Some kf /\
                validKeyValue item kf = Some v).

(** [e] is a copy of [item] with the labels the loops add. *)
Definition labelledCopy (e : JsonEntry) (item : Json) : Prop :=
  exists sig, e = unkeyedEntry item sig \/ exists kf, e = keyedEntry item sig kf.

(** Every entry of a list is the labelled copy of a trackable record of
    [data]. *)
Definition sourcedFrom (kc : SelectedKeyConfig) (data : list Json)
  (l : list JsonEntry) : Prop :=
  forall e, In e l ->
            exists item, In item data /\ trackable kc item /\ labelledCopy e item.

(** The key-indexed lookup of one side, as the populate loop leaves it:
    under each valid key value the last record that carries it. *)
Definition keyLookup (selectedKeyConfig : SelectedKeyConfig)
  (data : list Json) : JsMap Entry.t :=
  fold_left (storeItem selectedKeyConfig) data [].

(** The lists of [compareJsons] before the deduplication pass. *)
Definition pushedLists (selectedKeyConfig : SelectedKeyConfig)
  (beforeData afterData : list Json) : Lists :=
  classify selectedKeyConfig beforeData afterData
    (keyLookup selectedKeyConfig beforeData)
    (keyLookup selectedKeyConfig afterData).

(* ================================================================== *)
(** ** Example documents *)

Module Examples.

Definition record (fs : list (string * Json)) : Json := JObj fs.

(** One key value under two shapes on the 'after' side. *)
Definition supersededBefore : list Json :=
  [record [("id", JStr "a"); ("y", JNum 1)]].
Definition supersededRecord : Json :=
  record [("id", JStr "a"); ("x", JNum 1)].
Definition supersededAfter : list Json :=
  [supersededRecord; record [("id", JStr "a"); ("y", JNum 2)]].
Definition supersededKeys : SelectedKeyConfig :=
  [("id,x", "id"); ("id,y", "id")].

(** Scenario B of the specification: one renamed record. *)
Definition aliceData : list Json :=
  [record [("id", JStr "1"); ("name", JStr "Alice")]].
Definition aliciaData : list Json :=
  [record [("id", JStr "1"); ("name", JStr "Alicia")]].
Definition nameKeys : SelectedKeyConfig := [("id,name", "id")].
Definition noResult : ComparisonResult :=
  {| newEntries := []; modifiedEntries := []; deletedEntries := [];
     errors := [] |}.
Definition aliciaEntry : ModifiedEntry :=
  {| keyFieldValue := "1";
     keyFieldUsed := "id";
     objectSignature := "id,name";
     before := record [("id", JStr "1"); ("name", JStr "Alice")];
     after := record [("id", JStr "1"); ("name", JStr "Alicia")];
     changes :=
       {| added := []; removed := [];
          changed := [("name", Change.make (JStr "Alice") (JStr "Alicia"))]
       |} |}.
Definition aliciaResult : ComparisonResult :=
  {| newEntries := []; modifiedEntries := [aliciaEntry];
     deletedEntries := []; errors := [] |}.

(** The same documents with the fields listed in the other order. *)
Definition aliceReordered : list Json :=
  [record [("name", JStr "Alice"); ("id", JStr "1")]].

(** A record that changes shape under one key value. *)
Definition reshapedBefore : list Json :=
  [record [("id", JStr "5"); ("x", JNum 1)]].
Definition reshapedAfter : list Json :=
  [record [("id", JStr "5"); ("x", JNum 1); ("y", JNum 2)]].
Definition reshapedKeys : SelectedKeyConfig :=
  [("id,x", "id"); ("id,x,y", "id")].
Definition reshapedOld : Entry.t :=
  Entry.make (record [("id", JStr "5"); ("x", JNum 1)]) "id,x" "id".
Definition reshapedNew : Entry.t :=
  Entry.make (record [("id", JStr "5"); ("x", JNum 1); ("y", JNum 2)])
    "id,x,y" "id".
Definition reshapedResult : ComparisonResult :=
  {| newEntries :=
       [[("id", JStr "5"); ("x", JNum 1); ("y", JNum 2);
         ("objectSignature", JStr "id,x,y"); ("keyFieldUsed", JStr "id")]];
     modifiedEntries := [];
     deletedEntries :=
       [[("id", JStr "5"); ("x", JNum 1);
         ("objectSignature", JStr "id,x"); ("keyFieldUsed", JStr "id")]];
     errors := [] |}.

(** A record whose key field holds the empty string. *)
Definition blankKeyRecord : Json := record [("id", JStr ""); ("x", JNum 1)].
Definition blankKeyKeys : SelectedKeyConfig := [("id,x", "id")].
Definition blankKeyResult : ComparisonResult :=
  {| newEntries := []; modifiedEntries := []; deletedEntries := [];
     errors := [InvalidKeyValue After "id" "id,x" (Some (JStr ""))] |}.

(** Two shapes that share a key value on the 'after' side, next to a
    record of the first shape that is matched and modified. *)
Definition mislabelBefore : list Json :=
  [record [("id", JStr "q"); ("x", JNum 1)]].
Definition mislabelAfter : list Json :=
  [record [("id", JStr "a"); ("x", JNum 1)];
   record [("id", JStr "q"); ("name", JStr "a")];
   record [("id", JStr "q"); ("x", JNum 2)]].
Definition mislabelKeys : SelectedKeyConfig :=
  [("id,x", "id"); ("id,name", "name")].
Definition mislabelledEntry : JsonEntry :=
  [("id", JStr "q"); ("name", JStr "a");
   ("objectSignature", JStr "id,x"); ("keyFieldUsed", JStr "id")].

(** Documents whose inventories disagree on the candidates of one
    signature, and a mapping with an empty entry. *)
Definition candidatesBeforeDoc : Json :=
  JArr [record [("id", JStr "1"); ("name", JStr "A")]].
Definition candidatesAfterDoc : Json :=
  JArr [record [("id", JStr "2"); ("name", JStr "")];
        record [("k", JStr "v")]].
Definition candidatesBefore : list JsonObjectStructure :=
  structures (analyzeJsonStructures String.compare candidatesBeforeDoc).
Definition candidatesAfter : list JsonObjectStructure :=
  structures (analyzeJsonStructures String.compare candidatesAfterDoc).


End Examples.

(* ================================================================== *)
(** ** Equality up to field order *)

(** Two documents equal as mappings: well formed and deeply equal. *)
Definition sameRecord (a b : Json) : Prop :=
  wfJson a /\ wfJson b /\ isEqual a b = true.

Definition sameValue (a b : JsValue) : Prop :=
  match a, b with
  | None, None => True
  | Some x, Some y => sameRecord x y
  | _, _ => False
  end.











(* ================================================================== *)
(** ** Logical entities *)

(** The entity an entry of [newEntries] or [deletedEntries] stands for,
    read off the entry as [makeEntryId] reads it: the labelled signature
    with the value of its key field, or with the whole entry when the
    signature has no key field. *)
Inductive Entity : Type :=
| KeyedEntity (sig keyValue : string)
| UnkeyedEntity (sig : string) (content : JsonEntry).

Definition entityOfEntry (kc : SelectedKeyConfig) (e : JsonEntry)
  : option Entity :=
  match map_get "objectSignature" e with
  | Some (JStr s) =>
      match keyFieldOf kc s with
      | Some kf =>
          match map_get kf e with
          | Some (JStr v) => Some (KeyedEntity s v)
          | _ => None
          end
      | None => Some (UnkeyedEntity s e)
      end
  | _ => None
  end.

Definition entityOfModified (m : ModifiedEntry) : Entity :=
  KeyedEntity (objectSignature m) (keyFieldValue m).

(** No record of the collection is superseded in the lookup by a later
    record with the same key value. *)
Definition noSuperseded (kc : SelectedKeyConfig) (data : list Json) : Prop :=
  forall item kf v,
    In item data -> isObject item = true ->
    keyFieldOf kc (getObjectSignature item) = Some kf ->
    validKeyValue item kf = Some v ->
    exists e, map_get v (keyLookup kc data) = Some e /\ Entry.item e = item.

(** No key field bears the name of a label the loops add to entries. *)
Definition noReservedKeyField (kc : SelectedKeyConfig) : Prop :=
  forall s kf, keyFieldOf kc s = Some kf ->
               kf <> "objectSignature" /\ kf <> "keyFieldUsed".

(** What is known of a pushed entry of the new list. *)
Definition newEntryOrigin (kc : SelectedKeyConfig) (bD aD : list Json)
  (e : JsonEntry) : Prop :=
  (exists item,
      In item aD /\ isObject item = true /\
      keyFieldOf kc (getObjectSignature item) = None /\
      entityOfEntry kc e = Some (UnkeyedEntity (getObjectSignature item) e)) \/
  (exists v ea,
      map_get v (keyLookup kc aD) = Some ea /\
      entityOfEntry kc e = Some (KeyedEntity (Entry.signature ea) v) /\
      (map_get v (keyLookup kc bD) = None \/
       exists eb, map_get v (keyLookup kc bD) = Some eb /\
                  Entry.signature eb <> Entry.signature ea)).

(** What is known of a pushed entry of the deleted list. *)
Definition deletedEntryOrigin (kc : SelectedKeyConfig) (bD aD : list Json)
  (e : JsonEntry) : Prop :=
  (exists item,
      keyFieldOf kc (getObjectSignature item) = None /\
      (forall afterItem, In afterItem aD -> isObject afterItem = true ->
                         getObjectSignature afterItem <> getObjectSignature item)
      /\ entityOfEntry kc e = Some (UnkeyedEntity (getObjectSignature item) e)) \/
  (exists v eb,
      map_get v (keyLookup kc bD) = Some eb /\
      entityOfEntry kc e = Some (KeyedEntity (Entry.signature eb) v) /\
      (map_get v (keyLookup kc aD) = None \/
       exists ea, map_get v (keyLookup kc aD) = Some ea /\
                  Entry.signature eb <> Entry.signature ea)).

(* ================================================================== *)
(** ** The first variant of the page ([src/unnamed/part_000]) *)

(** One key field for every record, no signatures: [parseJson] rejects a
    document unless every element is an object with that field as a
    non-empty string. *)
Module Legacy.

Record ModifiedEntry : Type := {
  keyFieldValue : string;
  before : Json;
  after : Json;
  changes : FieldChanges
}.

Record ComparisonResult : Type := {
  newEntries : list Json;
  modifiedEntries : list ModifiedEntry;
  deletedEntries : list Json
}.

(** [parseJson], from the parsed document on; [None] where it sets the
    error and returns [null]. *)
Definition parseJson (parsed : Json) (currentKeyField : string)
  : option (list Json) :=
  if String.eqb (trim currentKeyField) "" then None
  else
    match parsed with
    | JArr items =>
        if forallb (fun item =>
                      isObject item && isNonEmptyStringField item currentKeyField)
             items
        then Some items
        else None
    | _ => None
    end.

(** [data.forEach(item => map.set(item[keyField], item))]; every key is
    a string once [parseJson] has accepted the document. *)
Definition indexByKey (keyField : string) (data : list Json) : JsMap Json :=
  fold_left
    (fun m item =>
       match getProp item keyField with
       | Some (JStr keyValue) => map_set keyValue item m
       | _ => m
       end)
    data [].

(** The body of [afterMap.forEach]. *)
Definition afterStep (keyField : string) (beforeMap : JsMap Json)
  (st : list Json * list ModifiedEntry) (entry : string * Json)
  : list Json * list ModifiedEntry :=
  let (keyValue, afterItem) := entry in
  match map_get keyValue beforeMap with
  | None => ((fst st ++ [afterItem])%list, snd st)
  | Some beforeItem =>
      if negb (isEqual beforeItem afterItem)
      then
        let ch :=
          dropSpuriousKeyChange keyField beforeItem afterItem
            (calculateFieldChangesLegacy beforeItem afterItem) in
        if hasChanges ch
        then (fst st,
              (snd st ++ [{| keyFieldValue := keyValue;
                             before := beforeItem;
                             after := afterItem;
                             changes := ch |}])%list)
        else st
      else st
  end.

(** The body of [beforeMap.forEach]. *)
Definition beforeStep (afterMap : JsMap Json) (deleted : list Json)
  (entry : string * Json) : list Json :=
  let (keyValue, beforeItem) := entry in
  if negb (map_has keyValue afterMap) then (deleted ++ [beforeItem])%list
  else deleted.

Definition compareJsons (keyField : string) (beforeParsed afterParsed : Json)
  : option ComparisonResult :=
  if String.eqb (trim keyField) "" then None
  else
    match parseJson beforeParsed keyField, parseJson afterParsed keyField with
    | Some beforeData, Some afterData =>
        let beforeMap := indexByKey keyField beforeData in
        let afterMap := indexByKey keyField afterData in
        let st := fold_left (afterStep keyField beforeMap) afterMap ([], []) in
        Some {| newEntries := fst st;
                modifiedEntries := snd st;
                deletedEntries := fold_left (beforeStep afterMap) beforeMap [] |}
    | _, _ => None
    end.

(** An array matched with a plain object that has a field [length]. *)
Definition arrayBefore : Json := JArr [JArr [JStr "a"]].
Definition arrayAfter : Json :=
  JArr [JObj [("0", JStr "a"); ("length", JNum 1); ("z", JNum 2)]].

End Legacy.

(* ================================================================== *)
(** ** The other effects and handlers of the page *)

(** The [forEach] of the auto-select effect together with the flag
    [changedByAutoSelect] it raises; the effect calls
    [setSelectedKeyConfig] only when the flag is set, and runs again
    whenever the configuration changes. *)
Definition autoSelectFlagged (st : SelectedKeyConfig * bool)
  (s : JsonObjectStructure) : SelectedKeyConfig * bool :=
  match potentialKeyFields s, keyFieldOf (fst st) (signature s) with
  | [candidate], None => (map_set (signature s) candidate (fst st), true)
  | _, _ => st
  end.

Definition changedByAutoSelect
  (beforeStructures afterStructures : list JsonObjectStructure)
  (selectedKeyConfig : SelectedKeyConfig) : bool :=
  snd (fold_left autoSelectFlagged
         (map_values (mergeStructures beforeStructures afterStructures))
         (selectedKeyConfig, false)).

(** The effect that fills [combinedSignatures]:
    [Array.from(allSigs).sort()]. *)
Definition combinedSignatures
  (beforeJsonStructures afterJsonStructures : list JsonObjectStructure)
  : list string :=
  let allSigs :=
    fold_left (fun sigs s => set_add (signature s) sigs)
      beforeJsonStructures [] in
  let allSigs :=
    fold_left (fun sigs s => set_add (signature s) sigs)
      afterJsonStructures allSigs in
  sortStrings allSigs.

(** [handleKeySelectionChange]: [{ ...prev, [signature]: keyField }].
    The configuration is only ever read by name. *)
Definition handleKeySelectionChange (sig keyField : string)
  (prev : SelectedKeyConfig) : SelectedKeyConfig :=
  map_set sig keyField prev.

(** [isCompareDisabled], on the two texts and the component state. *)
Definition isCompareDisabled (beforeJsonString afterJsonString : string)
  (combined : list string)
  (beforeJsonStructures afterJsonStructures : list JsonObjectStructure)
  (selectedKeyConfig : SelectedKeyConfig) : bool :=
  if String.eqb (trim beforeJsonString) "" ||
     String.eqb (trim afterJsonString) ""
  then true
  else
    existsb
      (fun sig =>
         hasSignature beforeJsonStructures sig &&
         hasSignature afterJsonStructures sig &&
         match keyFieldOf selectedKeyConfig sig with
         | None => true
         | Some _ => false
         end)
      combined.

(** [structures.find((s) => s.signature === signature)] *)
Definition findStructure (l : list JsonObjectStructure) (sig : string)
  : option JsonObjectStructure :=
  find (fun s => String.eqb (signature s) sig) l.

(** [validKeysForSelect] of one row of the key configuration table. *)
Definition validKeysForSelect
  (beforeJsonStructures afterJsonStructures : list JsonObjectStructure)
  (sig : string) : list string :=
  match findStructure beforeJsonStructures sig,
        findStructure afterJsonStructures sig with
  | Some structBefore, Some structAfter =>
      filter (fun k => existsb (String.eqb k) (potentialKeyFields structAfter))
        (potentialKeyFields structBefore)
  | Some structBefore, None => potentialKeyFields structBefore
  | None, Some structAfter => potentialKeyFields structAfter
  | None, None => []
  end.

(** The instances [structureMap] holds for a signature. *)
Definition instancesAt (sig : string) (structureMap : JsMap Shape.t)
  : list Json :=
  match map_get sig structureMap with
  | Some d => Shape.instances d
  | None => []
  end.

(** The records of a document that have a given signature. *)
Definition recordsOf (sig : string) (items : list Json) : list Json :=
  filter (fun item =>
            isObject item && String.eqb (getObjectSignature item) sig)
    items.

(** Further example documents. *)
Module Samples.

Definition alice : Json :=
  JObj [("id", JStr "1"); ("name", JStr "Alice")].
Definition aliceReordered : Json :=
  JObj [("name", JStr "Alice"); ("id", JStr "1")].
Definition alicia : Json :=
  JObj [("id", JStr "1"); ("name", JStr "Alicia")].

(** The structure of the documents of scenario B. *)
Definition personStructure : JsonObjectStructure :=
  {| signature := "id,name"; keys := ["id"; "name"]; count := 1;
     potentialKeyFields := ["id"; "name"] |}.


(** A record of a shape without key field. *)
Definition loose : Json := JObj [("note", JNum 7)].
Definition looseResult : ComparisonResult :=
  {| newEntries := [unkeyedEntry loose "note"];
     modifiedEntries := [];
     deletedEntries := [];
     errors := [] |}.

(** Two records with one key value. *)
Definition first : Json := JObj [("id", JStr "q"); ("x", JNum 1)].
Definition second : Json := JObj [("id", JStr "q"); ("x", JNum 2)].
Definition idKeys : SelectedKeyConfig := [("id,x", "id")].

(** Three people, one renamed, one gone, one arrived. *)
Definition bob : Json := JObj [("id", JStr "2"); ("name", JStr "Bob")].
Definition carol : Json := JObj [("id", JStr "3"); ("name", JStr "Carol")].
Definition peopleBefore : list Json := [alice; bob].
Definition peopleAfter : list Json := [alicia; carol].
Definition carolEntry : JsonEntry := keyedEntry carol "id,name" "id".
Definition bobEntry : JsonEntry := keyedEntry bob "id,name" "id".
Definition peopleDiff : ComparisonResult :=
  {| newEntries := [carolEntry];
     modifiedEntries := [Examples.aliciaEntry];
     deletedEntries := [bobEntry];
     errors := [] |}.
Definition peopleResult : Legacy.ComparisonResult :=
  {| Legacy.newEntries := [carol];
     Legacy.modifiedEntries :=
       [{| Legacy.keyFieldValue := "1";
           Legacy.before := alice;
           Legacy.after := alicia;
           Legacy.changes :=
             {| added := []; removed := [];
                changed :=
                  [("name", Change.make (JStr "Alice") (JStr "Alicia"))] |}
        |}];
     Legacy.deletedEntries := [bob]
  |}.
Definition peopleReversed : Legacy.ComparisonResult :=
  {| Legacy.newEntries := [bob];
     Legacy.modifiedEntries :=
       [{| Legacy.keyFieldValue := "1";
           Legacy.before := alicia;
           Legacy.after := alice;
           Legacy.changes :=
             {| added := []; removed := [];
                changed :=
                  [("name", Change.make (JStr "Alicia") (JStr "Alice"))] |}
        |}];
     Legacy.deletedEntries := [carol]
  |}.

(** Two records that differ in the field [__proto__] and in another
    field. *)
Definition protoBefore : list Json :=
  [JObj [("id", JStr "1"); ("__proto__", JNum 1); ("x", JNum 1)]].
Definition protoAfter : list Json :=
  [JObj [("id", JStr "1"); ("__proto__", JNum 2); ("x", JNum 2)]].
Definition protoKeys : SelectedKeyConfig := [("__proto__,id,x", "id")].
Definition protoEntry : ModifiedEntry :=
  {| keyFieldValue := "1";
     keyFieldUsed := "id";
     objectSignature := "__proto__,id,x";
     before := JObj [("id", JStr "1"); ("__proto__", JNum 1); ("x", JNum 1)];
     after := JObj [("id", JStr "1"); ("__proto__", JNum 2); ("x", JNum 2)];
     changes :=
       {| added := []; removed := [];
          changed := [("x", Change.make (JNum 1) (JNum 2))] |} |}.

(** Two documents of the signature [constructor], and what the
    comparison returns for them with an empty key configuration. *)
Definition ctorBefore : list Json := [JObj [("constructor", JStr "a")]].
Definition ctorAfter : list Json := [JObj [("constructor", JStr "b")]].
Definition ctorResult : ComparisonResult :=
  {| newEntries := []; modifiedEntries := []; deletedEntries := [];
     errors :=
       [InvalidKeyValue Before "function Object() { [native code] }"
          "constructor" None;
        InvalidKeyValue After "function Object() { [native code] }"
          "constructor" None] |}.

(** Two shapes, each with one candidate, that share a key value on the
    'after' side. *)
Definition mixedBefore : list Json :=
  [JObj [("id", JStr "q"); ("k", JNum 1)]].
Definition mixedAfter : list Json :=
  [JObj [("a", JNum 1); ("k", JStr "q")];
   JObj [("id", JStr "q"); ("k", JNum 2)]].
Definition mixedKeys : SelectedKeyConfig := [("id,k", "id"); ("a,k", "k")].
Definition mixedEntry : ModifiedEntry :=
  {| keyFieldValue := "q";
     keyFieldUsed := "k";
     objectSignature := "a,k";
     before := JObj [("id", JStr "q"); ("k", JNum 1)];
     after := JObj [("id", JStr "q"); ("k", JNum 2)];
     changes :=
       {| added := []; removed := [];
          changed := [("k", Change.make (JNum 1) (JNum 2))] |} |}.

End Samples.

(** The field names [structureMap] has collected for a signature. *)
Definition keysAt (sig : string) (structureMap : JsMap Shape.t)
  : list string :=
  match map_get sig structureMap with
  | Some d => Shape.keys d
  | None => []
  end.

(** What a warning of [compareJsons] says of the two documents. *)
Definition justified (beforeData afterData : list Json)
  (kc : SelectedKeyConfig) (w : Warning) : Prop :=
  let dataOf side :=
    match side with
    | Before => beforeData
    | After => afterData
    end in
  match w with
  | SkippingNonObject side item =>
      In item (dataOf side) /\ isObject item = false
  | InvalidKeyValue side keyField sig value =>
      exists item,
        In item (dataOf side) /\ isObject item = true /\
        getObjectSignature item = sig /\
        keyFieldOf kc sig = Some keyField /\
        validKeyValue item keyField = None /\
        getProp item keyField = value
  | DuplicateKey side keyValue keyField sig =>
      exists earlier item later,
        dataOf side = (earlier ++ item :: later)%list /\
        isObject item = true /\
        getObjectSignature item = sig /\
        keyFieldOf kc sig = Some keyField /\
        validKeyValue item keyField = Some keyValue /\
        map_has keyValue (keyLookup kc earlier) = true
  end.

(* ================================================================== *)
(** * Properties *)

(** ** Insertion-ordered maps *)

Section JsMapFacts.
Variable V : Type.
Implicit Types (m : JsMap V) (k : string) (v : V).

Lemma map_get_set_same k v m : map_get k (map_set k v m) = Some v.
Proof.
  induction m as [|[k' v'] m IH]; simpl.
  - now rewrite String.eqb_refl.
  - destruct (String.eqb k k') eqn:E; simpl; rewrite ?String.eqb_refl, ?E; auto.
Qed.

Lemma map_get_set_other k k' v m :
  k' <> k -> map_get k' (map_set k v m) = map_get k' m.
Proof.
  intros Hne. induction m as [|[k0 v0] m IH]; simpl.
  - apply String.eqb_neq in Hne. now rewrite Hne.
  - destruct (String.eqb k k0) eqn:E; simpl.
    + apply String.eqb_eq in E. subst k0.
      apply String.eqb_neq in Hne. now rewrite Hne.
    + now rewrite IH.
Qed.

Lemma map_get_set k k' v m :
  map_get k' (map_set k v m) = if String.eqb k' k then Some v else map_get k' m.
Proof.
  destruct (String.eqb_spec k' k) as [->|Hne].
  - apply map_get_set_same.
  - now apply map_get_set_other.
Qed.

Lemma map_get_In k v m : map_get k m = Some v -> In (k, v) m.
Proof.
  induction m as [|[k' v'] m IH]; simpl; [discriminate|].
  destruct (String.eqb_spec k k') as [->|Hne].
  - intros [= ->]. now left.
  - intros H. right. auto.
Qed.

Lemma map_get_None k m : map_get k m = None <-> ~ In k (map_keys m).
Proof.
  induction m as [|[k' v'] m IH]; simpl.
  - tauto.
  - destruct (String.eqb_spec k k') as [->|Hne].
    + split; [discriminate|]. intros H. exfalso. apply H. now left.
    + rewrite IH. split.
      * intros H [E|E]; [congruence|auto].
      * intros H E. apply H. now right.
Qed.

Lemma map_get_Some_key k v m : map_get k m = Some v -> In k (map_keys m).
Proof.
  intros H. apply map_get_In in H. now apply (in_map fst) in H.
Qed.

Lemma map_get_key_Some k m :
  In k (map_keys m) -> exists v, map_get k m = Some v.
Proof.
  intros H. destruct (map_get k m) as [v|] eqn:E; eauto.
  apply map_get_None in E. contradiction.
Qed.

Lemma In_map_get k v m :
  NoDup (map_keys m) -> In (k, v) m -> map_get k m = Some v.
Proof.
  induction m as [|[k' v'] m IH]; simpl; [tauto|].
  intros Hnd [E|Hin].
  - inversion E; subst. now rewrite String.eqb_refl.
  - inversion Hnd as [|? ? Hnotin Hnd']; subst.
    destruct (String.eqb_spec k k') as [->|Hne].
    + exfalso. apply Hnotin. now apply (in_map fst) in Hin.
    + auto.
Qed.

Lemma map_has_true k m : map_has k m = true <-> In k (map_keys m).
Proof.
  unfold map_has. destruct (map_get k m) eqn:E.
  - split; auto. intros _. eapply map_get_Some_key; eauto.
  - apply map_get_None in E. split; [discriminate|contradiction].
Qed.

Lemma map_keys_set k v m k' :
  In k' (map_keys (map_set k v m)) <-> k' = k \/ In k' (map_keys m).
Proof.
  induction m as [|[k0 v0] m IH]; simpl.
  - intuition.
  - destruct (String.eqb_spec k k0) as [->|Hne]; simpl.
    + intuition.
    + rewrite IH. intuition.
Qed.

Lemma map_values_set_In k v m x :
  In x (map_values (map_set k v m)) -> x = v \/ In x (map_values m).
Proof.
  induction m as [|[k0 v0] m IH]; simpl.
  - intuition.
  - destruct (String.eqb_spec k k0) as [->|Hne]; simpl.
    + intuition.
    + intros [E|H]; [auto|]. apply IH in H. intuition.
Qed.

Lemma map_keys_set_NoDup k v m :
  NoDup (map_keys m) -> NoDup (map_keys (map_set k v m)).
Proof.
  induction m as [|[k0 v0] m IH]; simpl; intros Hnd.
  - constructor; [intros []|constructor].
  - inversion Hnd as [|? ? Hnotin Hnd']; subst.
    destruct (String.eqb_spec k k0) as [->|Hne]; simpl.
    + now constructor.
    + constructor; [|auto].
      intros Hin. apply map_keys_set in Hin. destruct Hin; [congruence|auto].
Qed.

Lemma map_keys_update k (f : V -> V) m :
  map_keys (map_update k f m) = map_keys m.
Proof.
  induction m as [|[k0 v0] m IH]; simpl; [reflexivity|].
  destruct (String.eqb k k0); simpl; congruence.
Qed.

Lemma map_get_delete_same k m :
  NoDup (map_keys m) -> map_get k (map_delete k m) = None.
Proof.
  induction m as [|[k0 v0] m IH]; simpl; [reflexivity|].
  intros Hnd. inversion Hnd as [|? ? Hnotin Hnd']; subst.
  destruct (String.eqb_spec k k0) as [->|Hne]; simpl.
  - now apply map_get_None.
  - apply String.eqb_neq in Hne. rewrite Hne. auto.
Qed.

Lemma map_get_delete_other k k' m :
  k' <> k -> map_get k' (map_delete k m) = map_get k' m.
Proof.
  intros Hne. induction m as [|[k0 v0] m IH]; simpl; [reflexivity|].
  destruct (String.eqb_spec k k0) as [->|Hne0]; simpl.
  - apply String.eqb_neq in Hne. now rewrite Hne.
  - now rewrite IH.
Qed.

Lemma map_keys_delete_NoDup k m :
  NoDup (map_keys m) -> NoDup (map_keys (map_delete k m)).
Proof.
  induction m as [|[k0 v0] m IH]; simpl; intros Hnd; [constructor|].
  inversion Hnd as [|? ? Hnotin Hnd']; subst.
  destruct (String.eqb_spec k k0) as [->|Hne]; simpl; [assumption|].
  constructor; [|auto].
  intros Hin. apply Hnotin.
  clear - Hin. induction m as [|[k1 v1] m IH]; simpl in *; [tauto|].
  destruct (String.eqb k k1); simpl in *; intuition.
Qed.
End JsMapFacts.

Lemma set_has_true k s : set_has k s = true <-> In k s.
Proof.
  unfold set_has. rewrite existsb_exists. split.
  - intros [x [Hin E]]. apply String.eqb_eq in E. now subst.
  - intros H. exists k. split; [assumption|apply String.eqb_refl].
Qed.

Lemma set_add_In k s x : In x (set_add k s) <-> x = k \/ In x s.
Proof.
  unfold set_add. destruct (set_has k s) eqn:E.
  - apply set_has_true in E. split; [auto|]. intros [->|H]; auto.
  - rewrite in_app_iff. simpl. intuition.
Qed.

Lemma set_add_NoDup k s : NoDup s -> NoDup (set_add k s).
Proof.
  intros Hnd. unfold set_add. destruct (set_has k s) eqn:E; [assumption|].
  assert (~ In k s) as Hn.
  { intros H. apply set_has_true in H. congruence. }
  apply NoDup_app; [assumption| |].
  - constructor; [intros []|constructor].
  - intros a Ha [<-|[]]. contradiction.
Qed.

Lemma set_of_list_In l x : In x (set_of_list l) <-> In x l.
Proof.
  unfold set_of_list.
  enough (forall acc, In x (fold_left (fun s k => set_add k s) l acc) <->
                      In x acc \/ In x l) as H.
  { rewrite H. simpl. tauto. }
  induction l as [|a l IH]; intros acc; simpl.
  - tauto.
  - rewrite IH, set_add_In. intuition.
Qed.

(** ** Shape analysis *)

Lemma fold_map_update_keys (V : Type) (sig : string) (g : string -> V -> V)
  (l : list string) (m : JsMap V) :
  map_keys (fold_left (fun m k => map_update sig (g k) m) l m) = map_keys m.
Proof.
  revert m. induction l as [|a l IH]; intros m; simpl; [reflexivity|].
  now rewrite IH, map_keys_update.
Qed.

Lemma groupItem_keys m item x :
  In x (map_keys (groupItem m item)) <->
  In x (map_keys m) \/ (isObject item = true /\ getObjectSignature item = x).
Proof.
  unfold groupItem. destruct (isObject item) eqn:Hobj; simpl.
  - rewrite (fold_map_update_keys (getObjectSignature item)
               (fun k d => Shape.make (set_add k (Shape.keys d))
                             (Shape.instances d))).
    rewrite map_keys_update.
    destruct (map_has (getObjectSignature item) m) eqn:Hhas; simpl.
    + apply map_has_true in Hhas. split; [auto|].
      intros [H|[_ <-]]; assumption.
    + rewrite map_keys_set. split.
      * intros [->|H]; auto.
      * intros [H|[_ <-]]; auto.
  - split; [auto|]. intros [H|[H _]]; [assumption|discriminate].
Qed.

Lemma structureMap_keys items m x :
  In x (map_keys (fold_left groupItem items m)) <->
  In x (map_keys m) \/
  exists item, In item items /\ isObject item = true /\
               getObjectSignature item = x.
Proof.
  revert m. induction items as [|a items IH]; intros m; simpl.
  - split; [auto|]. intros [H|[item [[] _]]]. assumption.
  - rewrite IH, groupItem_keys. split.
    + intros [[H|[Ho Hs]]|[item [Hin H]]]; eauto 6.
    + intros [H|[item [[<-|Hin] H]]]; eauto 6.
Qed.

Lemma signature_structureOf (e : string * Shape.t) :
  signature (structureOf e) = fst e.
Proof. now destruct e. Qed.

Section AnalysisFacts.
Variable localeCompare : string -> string -> comparison.

Lemma insertStructure_In s l x :
  In x (insertStructure localeCompare s l) <-> x = s \/ In x l.
Proof.
  induction l as [|a l IH]; simpl.
  - intuition.
  - destruct (localeCompare (signature a) (signature s)); simpl;
      rewrite ?IH; intuition.
Qed.

Lemma sortStructures_In l x :
  In x (sortStructures localeCompare l) <-> In x l.
Proof.
  unfold sortStructures.
  enough (forall acc,
            In x (fold_left (fun acc s => insertStructure localeCompare s acc)
                    l acc) <-> In x acc \/ In x l) as H.
  { rewrite H. simpl. tauto. }
  induction l as [|a l IH]; intros acc; simpl.
  - tauto.
  - rewrite IH, insertStructure_In. intuition.
Qed.

Lemma hasSignature_true l sig :
  hasSignature l sig = true <-> In sig (map signature l).
Proof.
  unfold hasSignature. rewrite existsb_exists, in_map_iff. split.
  - intros [s [Hin E]]. apply String.eqb_eq in E. eauto.
  - intros [s [E Hin]]. exists s. split; [assumption|].
    now apply String.eqb_eq.
Qed.

(** The inventory of a collection holds exactly the signatures of its
    records, provided every element is an object; otherwise it is
    empty. *)
Lemma inventory_signatures items sig :
  hasSignature (structures (analyzeJsonStructures localeCompare (JArr items)))
    sig = true <->
  forallb isObject items = true /\
  exists item, In item items /\ getObjectSignature item = sig.
Proof.
  simpl. destruct (existsb (fun item => negb (isObject item)) items) eqn:Hex.
  - simpl. split; [discriminate|]. intros [Hall _].
    apply existsb_exists in Hex. destruct Hex as [x [Hin Hx]].
    rewrite forallb_forall in Hall. apply Hall in Hin.
    rewrite Hin in Hx. discriminate.
  - assert (forallb isObject items = true) as Hall.
    { apply forallb_forall. intros x Hin.
      destruct (isObject x) eqn:E; [reflexivity|].
      assert (existsb (fun item => negb (isObject item)) items = true) as C.
      { apply existsb_exists. exists x. now rewrite E. }
      congruence. }
    simpl. rewrite hasSignature_true. split.
    + intros H. split; [assumption|].
      apply in_map_iff in H. destruct H as [s [Es Hs]].
      apply (proj1 (sortStructures_In _ _)) in Hs. apply in_map_iff in Hs.
      destruct Hs as [e [Ee He]]. subst s.
      rewrite signature_structureOf in Es.
      assert (In sig (map_keys (fold_left groupItem items []))) as Hk.
      { subst sig. now apply in_map. }
      apply (proj1 (structureMap_keys _ _ _)) in Hk.
      destruct Hk as [[]|[item [Hin [_ E]]]].
      eauto.
    + intros [_ [item [Hin E]]].
      assert (In sig (map_keys (fold_left groupItem items []))) as Hk.
      { apply structureMap_keys. right. exists item.
        rewrite forallb_forall in Hall. auto. }
      apply in_map_iff in Hk. destruct Hk as [e [Ee He]].
      apply in_map_iff. exists (structureOf e). split.
      * now rewrite signature_structureOf.
      * apply sortStructures_In. now apply in_map.
Qed.

End AnalysisFacts.

Lemma addSignatures_In data s sig :
  In sig (addSignatures data s) <->
  In sig s \/
  exists item, In item data /\ isObject item = true /\
               getObjectSignature item = sig.
Proof.
  unfold addSignatures. revert s. induction data as [|a data IH]; intros s; simpl.
  - split; [auto|]. intros [H|[item [[] _]]]. assumption.
  - rewrite IH. destruct (isObject a) eqn:Ha.
    + rewrite set_add_In. split.
      * intros [[->|H]|[item [Hin H]]]; eauto 7.
      * intros [H|[item [[<-|Hin] [Ho Hs]]]]; eauto 7.
    + split.
      * intros [H|[item [Hin H]]]; eauto 7.
      * intros [H|[item [[<-|Hin] [Ho Hs]]]]; eauto 7. congruence.
Qed.

(** ** The validation gate *)

Lemma compareJsons_gate beforeData afterData bS aS kc :
  match missingKeySelection bS aS kc
          (addSignatures afterData (addSignatures beforeData [])) with
  | Some sig =>
      compareJsons (JArr beforeData) (JArr afterData) bS aS kc =
      inl (MissingKeySelection sig)
  | None =>
      exists res,
        compareJsons (JArr beforeData) (JArr afterData) bS aS kc = inr res
  end.
Proof.
  unfold compareJsons.
  destruct (missingKeySelection bS aS kc _) as [sig|]; [reflexivity|].
  destruct (populateMap Before kc beforeData []) as [beforeMap errs1].
  destruct (populateMap After kc afterData errs1) as [afterMap errs2].
  eauto.
Qed.

(** The validation gate as the code reads the mapping.  On two arrays,
    [diff] stops with [MissingKeySelection sig] exactly when some
    signature of both inventories reads no key field from the key
    mapping ([keyFieldOf]): the signature it names is such a signature
    (so a signature of one inventory only never causes the failure), the
    failure occurs whenever such a signature exists, and the outcome is
    then the error alone, without any classification. *)
Theorem missing_key_selection_gate :
  forall (localeCompare : string -> string -> comparison)
         (beforeData afterData : list Json) (kc : SelectedKeyConfig),
    let inventoryB :=
      structures (analyzeJsonStructures localeCompare (JArr beforeData)) in
    let inventoryA :=
      structures (analyzeJsonStructures localeCompare (JArr afterData)) in
    (forall sig,
        diff localeCompare (JArr beforeData) (JArr afterData) kc =
        inl (MissingKeySelection sig) ->
        hasSignature inventoryB sig = true /\
        hasSignature inventoryA sig = true /\
        keyFieldOf kc sig = None) /\
    ((exists sig,
         hasSignature inventoryB sig = true /\
         hasSignature inventoryA sig = true /\
         keyFieldOf kc sig = None) <->
     (exists sig,
         diff localeCompare (JArr beforeData) (JArr afterData) kc =
         inl (MissingKeySelection sig))).
Proof.
  intros lc beforeData afterData kc inventoryB inventoryA.
  pose proof (compareJsons_gate beforeData afterData inventoryB inventoryA kc)
    as Hgate.
  unfold diff. fold inventoryB inventoryA.
  assert (forall sig,
             compareJsons (JArr beforeData) (JArr afterData)
               inventoryB inventoryA kc =
             inl (MissingKeySelection sig) ->
             hasSignature inventoryB sig = true /\
             hasSignature inventoryA sig = true /\
             keyFieldOf kc sig = None) as Hname.
  { intros sig Hd.
    destruct (missingKeySelection inventoryB inventoryA kc _) as [sig'|] eqn:Hm.
    - rewrite Hgate in Hd. injection Hd as ->.
      apply find_some in Hm. destruct Hm as [_ Hm].
      apply andb_prop in Hm. destruct Hm as [Hm Hk].
      apply andb_prop in Hm. destruct Hm as [Hb Ha].
      repeat split; try assumption.
      destruct (keyFieldOf kc sig); [discriminate|reflexivity].
    - destruct Hgate as [res Hres]. rewrite Hres in Hd. discriminate. }
  split; [exact Hname|]. split.
  - intros [sig [Hb [Ha Hk]]].
    destruct (missingKeySelection inventoryB inventoryA kc _) as [sig'|] eqn:Hm.
    + eauto.
    + exfalso.
      assert (In sig (addSignatures afterData (addSignatures beforeData [])))
        as Hin.
      { apply addSignatures_In. left. apply addSignatures_In. right.
        apply inventory_signatures in Hb. destruct Hb as [Hall [item [Hin E]]].
        exists item. rewrite forallb_forall in Hall. auto. }
      pose proof (find_none _ _ Hm _ Hin) as Hf. simpl in Hf.
      rewrite Hb, Ha, Hk in Hf. discriminate.
  - intros [sig Hd]. exists sig. auto.
Qed.

(** ** Key auto-selection *)

Lemma autoSelect_other ks s sig :
  signature s <> sig -> map_get sig (autoSelect ks s) = map_get sig ks.
Proof.
  intros Hne. unfold autoSelect.
  destruct (potentialKeyFields s) as [|c [|c' l]]; try reflexivity.
  destruct (keyFieldOf ks (signature s)); [reflexivity|].
  apply map_get_set_other. congruence.
Qed.

Lemma autoSelect_sticky ks s sig kf :
  keyFieldOf ks sig = Some kf ->
  map_get sig (autoSelect ks s) = map_get sig ks.
Proof.
  intros Hk. destruct (String.eqb_spec (signature s) sig) as [E|Hne].
  - unfold autoSelect. rewrite E, Hk. now destruct (potentialKeyFields s) as [|? [|? ?]].
  - now apply autoSelect_other.
Qed.

Lemma fold_autoSelect_sticky l ks sig kf :
  keyFieldOf ks sig = Some kf ->
  map_get sig (fold_left autoSelect l ks) = map_get sig ks.
Proof.
  revert ks. induction l as [|s l IH]; intros ks Hk; simpl; [reflexivity|].
  pose proof (autoSelect_sticky ks s sig Hk) as Hs.
  rewrite IH.
  - exact Hs.
  - unfold keyFieldOf in *. now rewrite Hs.
Qed.

Lemma fold_autoSelect_other l ks sig :
  ~ In sig (map signature l) ->
  map_get sig (fold_left autoSelect l ks) = map_get sig ks.
Proof.
  revert ks. induction l as [|s l IH]; intros ks Hn; simpl; [reflexivity|].
  rewrite IH.
  - apply autoSelect_other. intros E. apply Hn. now left.
  - intros H. apply Hn. now right.
Qed.

Lemma fold_autoSelect_fills l ks s c :
  NoDup (map signature l) -> In s l ->
  potentialKeyFields s = [c] -> keyFieldOf ks (signature s) = None ->
  map_get (signature s) (fold_left autoSelect l ks) = Some c.
Proof.
  revert ks. induction l as [|s0 l IH]; intros ks Hnd Hin Hc Hk; [destruct Hin|].
  simpl in Hnd. inversion Hnd as [|? ? Hnotin Hnd']; subst.
  destruct Hin as [->|Hin]; simpl.
  - rewrite fold_autoSelect_other by assumption.
    unfold autoSelect. rewrite Hc, Hk. apply map_get_set_same.
  - apply IH; try assumption.
    assert (signature s0 <> signature s) as Hne.
    { intros E. apply Hnotin. rewrite E. now apply in_map. }
    unfold keyFieldOf in *. now rewrite autoSelect_other.
Qed.

Lemma keyedBySignature_set m s :
  keyedBySignature m -> keyedBySignature (map_set (signature s) s m).
Proof.
  intros [Hnd Hsig]. split.
  - now apply map_keys_set_NoDup.
  - intros k s' Hin.
    assert (map_get k (map_set (signature s) s m) = Some s') as Hg.
    { apply In_map_get; [now apply map_keys_set_NoDup|assumption]. }
    rewrite map_get_set in Hg.
    destruct (String.eqb_spec k (signature s)) as [->|Hne].
    + now injection Hg as <-.
    + apply Hsig. now apply map_get_In.
Qed.

Lemma mergeStructures_keyed bS aS : keyedBySignature (mergeStructures bS aS).
Proof.
  unfold mergeStructures.
  assert (forall l m, keyedBySignature m ->
            keyedBySignature (fold_left (fun m s => map_set (signature s) s m) l m))
    as H0.
  { induction l as [|s l IH]; intros m Hm; simpl; [assumption|].
    apply IH. now apply keyedBySignature_set. }
  assert (keyedBySignature (@nil (string * JsonObjectStructure))) as Hnil.
  { split; [constructor|intros ? ? []]. }
  generalize (H0 bS [] Hnil).
  generalize (fold_left (fun m s => map_set (signature s) s m) bS []).
  induction aS as [|s l IH]; intros m Hm; simpl; [assumption|].
  apply IH.
  destruct (negb (map_has (signature s) m) || _); [|assumption].
  now apply keyedBySignature_set.
Qed.

Lemma keyedBySignature_values m :
  keyedBySignature m -> map signature (map_values m) = map_keys m.
Proof.
  intros [_ Hsig]. unfold map_values, map_keys. rewrite map_map.
  apply map_ext_in. intros [k s] Hin. simpl. now apply Hsig.
Qed.







(** The inventory of a document lists every signature once. *)
Lemma groupItem_NoDup m item :
  NoDup (map_keys m) -> NoDup (map_keys (groupItem m item)).
Proof.
  intros Hnd. unfold groupItem. destruct (negb (isObject item)); [assumption|].
  rewrite (fold_map_update_keys (getObjectSignature item)
             (fun k d => Shape.make (set_add k (Shape.keys d))
                           (Shape.instances d))).
  rewrite map_keys_update.
  destruct (negb (map_has (getObjectSignature item) m)); [|assumption].
  now apply map_keys_set_NoDup.
Qed.

Lemma insertStructure_perm lc s l :
  Permutation (s :: l) (insertStructure lc s l).
Proof.
  induction l as [|x l IH]; simpl; [reflexivity|].
  destruct (lc (signature x) (signature s)); try reflexivity;
    (rewrite perm_swap; now constructor).
Qed.

Lemma sortStructures_perm lc l : Permutation l (sortStructures lc l).
Proof.
  unfold sortStructures.
  enough (forall acc,
            Permutation (acc ++ l)
              (fold_left (fun acc s => insertStructure lc s acc) l acc)) as H.
  { apply (H []). }
  induction l as [|x l IH]; intros acc; simpl.
  - now rewrite app_nil_r.
  - rewrite <- IH. rewrite <- insertStructure_perm.
    symmetry. apply Permutation_middle.
Qed.

Lemma inventory_NoDup lc parsed :
  NoDup (map signature (structures (analyzeJsonStructures lc parsed))).
Proof.
  destruct parsed as [ | | | | items | ]; simpl; try constructor.
  destruct (existsb _ items); simpl; [constructor|].
  eapply Permutation_NoDup.
  - apply Permutation_map. apply sortStructures_perm.
  - rewrite map_map.
    rewrite (map_ext _ fst) by (intros e; apply signature_structureOf).
    assert (forall l m, NoDup (map_keys m) ->
              NoDup (map_keys (fold_left groupItem l m))) as H.
    { induction l as [|x l IH]; intros m Hm; simpl; [assumption|].
      apply IH. now apply groupItem_NoDup. }
    apply (H items []). constructor.
Qed.

(** ** Deep equality *)

Lemma Json_ind (P : Json -> Prop)
  (HNull : P JNull)
  (HBool : forall b, P (JBool b))
  (HNum : forall n, P (JNum n))
  (HStr : forall s, P (JStr s))
  (HArr : forall xs, Forall P xs -> P (JArr xs))
  (HObj : forall fs, Forall (fun kv => P (snd kv)) fs -> P (JObj fs)) :
  forall v, P v.
Proof.
  fix IH 1. intros [ | b | n | s | xs | fs ].
  - exact HNull.
  - apply HBool.
  - apply HNum.
  - apply HStr.
  - apply HArr. induction xs as [|x xs IHxs]; constructor; [apply IH|exact IHxs].
  - apply HObj. induction fs as [|[k v] fs IHfs]; constructor;
      [apply IH|exact IHfs].
Qed.

Lemma wfJson_arr xs : wfJson (JArr xs) <-> Forall wfJson xs.
Proof.
  simpl. induction xs as [|x xs IH].
  - split; auto.
  - rewrite IH. split.
    + intros [H1 H2]. now constructor.
    + intros H. inversion H. auto.
Qed.

Lemma wfJson_obj fs :
  wfJson (JObj fs) <->
  NoDup (map fst fs) /\ Forall (fun kv => wfJson (snd kv)) fs.
Proof.
  simpl. apply and_iff_compat_l. induction fs as [|[k v] fs IH].
  - split; auto.
  - rewrite IH. split.
    + intros [H1 H2]. now constructor.
    + intros H. inversion H. auto.
Qed.

Lemma isEqual_arr xs ys :
  isEqual (JArr xs) (JArr ys) = true <->
  Forall2 (fun x y => isEqual x y = true) xs ys.
Proof.
  simpl. revert ys. induction xs as [|x xs IH]; intros [|y ys].
  - split; auto.
  - split; [discriminate|]. intros H. inversion H.
  - split; [discriminate|]. intros H. inversion H.
  - rewrite andb_true_iff, IH. split.
    + intros [H1 H2]. now constructor.
    + intros H. inversion H. auto.
Qed.

Lemma isEqual_obj fs gs :
  isEqual (JObj fs) (JObj gs) = true <->
  List.length fs = List.length gs /\
  forall k v, In (k, v) fs ->
              exists w, map_get k gs = Some w /\ isEqual v w = true.
Proof.
  simpl. rewrite andb_true_iff, Nat.eqb_eq. apply and_iff_compat_l.
  induction fs as [|[k v] fs IH].
  - split; [intros _ ? ? []|auto].
  - destruct (map_get k gs) as [w|] eqn:Hg.
    + rewrite andb_true_iff, IH. split.
      * intros [H1 H2] k' v' [E|Hin]; [|auto].
        inversion E; subst. eauto.
      * intros H. split.
        -- destruct (H k v (or_introl eq_refl)) as [w' [Hw He]].
           congruence.
        -- intros k' v' Hin. apply H. now right.
    + split; [discriminate|]. intros H.
      destruct (H k v (or_introl eq_refl)) as [w' [Hw _]]. congruence.
Qed.

Lemma isEqual_refl v : wfJson v -> isEqual v v = true.
Proof.
  induction v as [ | b | n | s | xs IH | fs IH ] using Json_ind; intros Hwf.
  - reflexivity.
  - apply Bool.eqb_reflx.
  - apply Z.eqb_refl.
  - apply String.eqb_refl.
  - apply isEqual_arr. apply wfJson_arr in Hwf.
    induction xs as [|x xs IHxs]; constructor.
    + inversion IH; inversion Hwf; auto.
    + inversion IH; inversion Hwf; auto.
  - apply isEqual_obj. apply wfJson_obj in Hwf. destruct Hwf as [Hnd Hall].
    split; [reflexivity|]. intros k v Hin. exists v. split.
    + now apply In_map_get.
    + rewrite Forall_forall in IH, Hall.
      apply (IH (k, v) Hin). apply (Hall (k, v) Hin).
Qed.

(** ** Own properties *)

Lemma objectKeys_arr xs :
  objectKeys (JArr xs) = map indexKey (seq 0 (List.length xs)).
Proof.
  unfold objectKeys. simpl.
  enough (forall (A B : Type) (l : list A) (l' : list B),
            List.length l = List.length l' -> map fst (combine l l') = l) as H.
  { apply H. now rewrite length_map, length_seq. }
  clear. induction l as [|a l IH]; intros [|b l'] Hlen; simpl in *;
    try discriminate; [reflexivity|].
  f_equal. apply IH. now injection Hlen.
Qed.

(** C10.  An array met as an element of the top-level array is taken
    as a record: it passes the object test of both entry points, its
    field names are its indices, the analysis reports one structure and
    no error for [[1,2]], and the comparison lists it as a deleted record
    without any warning. *)
Theorem array_element_accepted_as_record :
  forall localeCompare : string -> string -> comparison,
    (forall xs, isObject (JArr xs) = true /\
                objectKeys (JArr xs) = map indexKey (seq 0 (List.length xs))) /\
    analyzeJsonStructures localeCompare (JArr [JArr [JNum 1; JNum 2]]) =
      {| structures :=
           [{| signature := "0,1"; keys := ["0"; "1"]; count := 1;
               potentialKeyFields := [] |}];
         error := None |} /\
    diff localeCompare (JArr [JArr [JNum 1; JNum 2]]) (JArr []) [] =
      inr {| newEntries := [];
             modifiedEntries := [];
             deletedEntries :=
               [[("0", JNum 1); ("1", JNum 2);
                 ("objectSignature", JStr "0,1")]];
             errors := [] |}.
Proof.
  intros lc. split; [|split].
  - intros xs. split; [reflexivity|apply objectKeys_arr].
  - reflexivity.
  - reflexivity.
Qed.

(** ** The key-indexed lookups *)

Lemma validKeyValue_Some item kf v :
  validKeyValue item kf = Some v <->
  getProp item kf = Some (JStr v) /\ String.eqb (trim v) "" = false.
Proof.
  unfold validKeyValue, hasOwnProperty.
  destruct (getProp item kf) as [[ | b | n | s | xs | fs ]|]; simpl;
    try (split; [discriminate|intros [H _]; discriminate]).
  destruct (String.eqb (trim s) "") eqn:E.
  - split; [discriminate|]. intros [H1 H2]. congruence.
  - split.
    + intros [= ->]. auto.
    + intros [[= ->] _]. reflexivity.
Qed.

Lemma populateStep_fst side kc m errs item :
  fst (populateStep side kc (m, errs) item) = storeItem kc m item.
Proof.
  unfold populateStep, storeItem.
  destruct (negb (isObject item)); [reflexivity|].
  destruct (keyFieldOf kc (getObjectSignature item)) as [kf|]; [|reflexivity].
  destruct (validKeyValue item kf); reflexivity.
Qed.

Lemma populateMap_fold side kc data m errs :
  fst (fold_left (populateStep side kc) data (m, errs)) =
  fold_left (storeItem kc) data m.
Proof.
  revert m errs. induction data as [|item data IH]; intros m errs;
    cbn [fold_left].
  - reflexivity.
  - pose proof (populateStep_fst side kc m errs item) as H.
    destruct (populateStep side kc (m, errs) item) as [m' errs'].
    simpl in H. subst m'. apply IH.
Qed.

Lemma populateMap_fst side kc data errs :
  fst (populateMap side kc data errs) = fold_left (storeItem kc) data [].
Proof. apply populateMap_fold. Qed.

Lemma storeItem_entries kc data :
  forall m v e,
    map_get v (fold_left (storeItem kc) data m) = Some e ->
    map_get v m = Some e \/ exists item, In item data /\ entryOf kc item v e.
Proof.
  induction data as [|item data IH]; intros m v e Hg; simpl in *; [now left|].
  apply IH in Hg. destruct Hg as [Hg|[item' [Hin He]]]; [|eauto 6].
  unfold storeItem in Hg.
  destruct (isObject item) eqn:Hobj; simpl in Hg; [|now left].
  destruct (keyFieldOf kc (getObjectSignature item)) as [kf|] eqn:Hk;
    [|now left].
  destruct (validKeyValue item kf) as [v'|] eqn:Hv; [|now left].
  rewrite map_get_set in Hg.
  destruct (String.eqb_spec v v') as [->|Hne]; [|now left].
  injection Hg as <-. right. exists item. split; [now left|].
  unfold entryOf. simpl. auto.
Qed.

(** ** Unchanged loops *)


Lemma compareJsons_result beforeData afterData bS aS kc res :
  compareJsons (JArr beforeData) (JArr afterData) bS aS kc = inr res ->
  missingKeySelection bS aS kc
    (addSignatures afterData (addSignatures beforeData [])) = None /\
  let beforeMap := fold_left (storeItem kc) beforeData [] in
  let afterMap := fold_left (storeItem kc) afterData [] in
  let st := classify kc beforeData afterData beforeMap afterMap in
  newEntries res = dedupEntries kc (pushedNew st) /\
  modifiedEntries res = pushedModified st /\
  deletedEntries res = dedupEntries kc (pushedDeleted st) /\
  errors res =
    snd (populateMap After kc afterData
           (snd (populateMap Before kc beforeData []))).
Proof.
  unfold compareJsons.
  destruct (missingKeySelection bS aS kc _) as [sig|]; [discriminate|].
  pose proof (populateMap_fst Before kc beforeData []) as HB.
  destruct (populateMap Before kc beforeData []) as [beforeMap errs1] eqn:EB.
  pose proof (populateMap_fst After kc afterData errs1) as HA.
  destruct (populateMap After kc afterData errs1) as [afterMap errs2] eqn:EA.
  simpl in HB, HA. subst beforeMap afterMap.
  intros [= <-]. simpl. rewrite EA. simpl. auto.
Qed.


(** ** Sorting, joining and index names *)

Lemma insertSorted_perm s l : Permutation (s :: l) (insertSorted s l).
Proof.
  induction l as [|x l IH]; simpl; [reflexivity|].
  destruct (String.leb x s); [|reflexivity].
  rewrite perm_swap. now constructor.
Qed.

Lemma sortStrings_perm l : Permutation l (sortStrings l).
Proof.
  unfold sortStrings.
  enough (forall acc,
            Permutation (acc ++ l)
              (fold_left (fun acc s => insertSorted s acc) l acc)) as H.
  { apply (H []). }
  induction l as [|x l IH]; intros acc; simpl.
  - now rewrite app_nil_r.
  - rewrite <- IH. rewrite <- insertSorted_perm.
    symmetry. apply Permutation_middle.
Qed.

Lemma sortStrings_In l x : In x (sortStrings l) <-> In x l.
Proof.
  split; apply Permutation_in; [symmetry|]; apply sortStrings_perm.
Qed.

Lemma chars_append s t : chars (s ++ t) = (chars s ++ chars t)%list.
Proof.
  unfold chars. induction s as [|c s IH]; simpl; [reflexivity|].
  now rewrite IH.
Qed.

Lemma chars_join_In sep l c :
  In c (chars (join sep l)) <->
  (exists k, In k l /\ In c (chars k)) \/
  (In c (chars sep) /\ (2 <= List.length l)%nat).
Proof.
  unfold join. induction l as [|x [|y l] IH].
  - simpl. split; [tauto|]. intros [[k [[] _]]|[_ H]]. inversion H.
  - simpl. split.
    + intros H. left. exists x. auto.
    + intros [[k [[<-|[]] H]]|[_ H]]; [assumption|].
      simpl in H. lia.
  - change (String.concat sep (x :: y :: l))
      with (x ++ sep ++ String.concat sep (y :: l)).
    rewrite !chars_append, !in_app_iff, IH. split.
    + intros [H|[H|[[k [Hin H]]|[H _]]]].
      * left. exists x. simpl. auto.
      * right. split; [assumption|simpl; lia].
      * left. exists k. split; [now right|assumption].
      * right. split; [assumption|simpl; lia].
    + intros [[k [[<-|Hin] H]]|[H _]]; [auto| |auto].
      right. right. left. eauto.
Qed.

Lemma chars_string_of_uint d c :
  In c (chars (NilEmpty.string_of_uint d)) -> isDigit c.
Proof.
  unfold isDigit.
  induction d; simpl; try tauto;
    (intros [<-|H]; [vm_compute; lia|auto]).
Qed.

Lemma chars_indexKey i c : In c (chars (indexKey i)) -> isDigit c.
Proof.
  unfold indexKey, NilZero.string_of_uint.
  destruct (Nat.to_uint i) eqn:E;
    try (rewrite <- E; apply chars_string_of_uint).
  simpl. intros [<-|[]]. unfold isDigit. vm_compute. lia.
Qed.

Lemma to_uint_nonnil n : Nat.to_uint n <> Decimal.Nil.
Proof.
  intros H. pose proof (DecimalNat.Unsigned.of_to n) as E.
  rewrite H in E. simpl in E. subst n. discriminate H.
Qed.

Lemma indexKey_inj i j : indexKey i = indexKey j -> i = j.
Proof.
  unfold indexKey. intros H.
  apply DecimalNat.Unsigned.to_uint_inj.
  pose proof (NilZero.usu _ (to_uint_nonnil i)) as Hi.
  pose proof (NilZero.usu _ (to_uint_nonnil j)) as Hj.
  rewrite H in Hi. congruence.
Qed.

Lemma objectKeys_arr_NoDup xs : NoDup (objectKeys (JArr xs)).
Proof.
  rewrite objectKeys_arr.
  apply Injective_map_NoDup; [|apply seq_NoDup].
  intros i j. apply indexKey_inj.
Qed.

Lemma ownEntries_NoDup item : wfJson item -> NoDup (objectKeys item).
Proof.
  destruct item as [ | b | n | s | xs | fs ]; intros Hwf;
    try (unfold objectKeys; simpl; constructor).
  - apply objectKeys_arr_NoDup.
  - apply wfJson_obj in Hwf. apply Hwf.
Qed.

Lemma getProp_own item k :
  isArray item = false \/ k <> "length" ->
  getProp item k = map_get k (ownEntries item).
Proof.
  intros H. destruct item as [ | b | n | s | xs | fs ]; try reflexivity.
  destruct H as [H|H]; [discriminate|].
  unfold getProp. apply String.eqb_neq in H. now rewrite H.
Qed.

(** The signature of an array is made of digits and commas; no record
    with a field named [length] shares it. *)
Lemma array_signature_no_length xs item :
  getObjectSignature (JArr xs) = getObjectSignature item ->
  ~ In "length" (objectKeys item).
Proof.
  intros Hsig Hin.
  assert (In "l"%char (chars (getObjectSignature item))) as Hl.
  { unfold getObjectSignature. apply chars_join_In. left.
    exists "length". split; [now apply sortStrings_In|]. simpl. auto. }
  rewrite <- Hsig in Hl. unfold getObjectSignature in Hl.
  apply (proj1 (chars_join_In _ _ _)) in Hl.
  destruct Hl as [[k [Hk Hc]]|[Hc _]].
  - apply (proj1 (sortStrings_In _ _)) in Hk. rewrite objectKeys_arr in Hk.
    apply in_map_iff in Hk. destruct Hk as [i [<- _]].
    apply chars_indexKey in Hc. unfold isDigit in Hc.
    vm_compute in Hc. lia.
  - simpl in Hc. destruct Hc as [Hc|[]]. discriminate Hc.
Qed.

Lemma array_no_length_key xs : ~ In "length" (objectKeys (JArr xs)).
Proof. apply (array_signature_no_length xs). reflexivity. Qed.

(** Between two records of one signature, every property read of
    [calculateFieldChanges] is a read of an enumerable property. *)
Lemma same_signature_own b a k :
  getObjectSignature b = getObjectSignature a ->
  In k (objectKeys b) \/ In k (objectKeys a) ->
  getProp b k = map_get k (ownEntries b) /\
  getProp a k = map_get k (ownEntries a).
Proof.
  intros Hsig Hk.
  destruct (String.eqb_spec k "length") as [->|Hne].
  - assert (isArray b = false /\ isArray a = false) as [Hb Ha].
    { split.
      - destruct b as [ | | | | xs | ]; try reflexivity. exfalso.
        destruct Hk as [Hk|Hk].
        + now apply array_no_length_key in Hk.
        + now apply (array_signature_no_length xs a) in Hk.
      - destruct a as [ | | | | xs | ]; try reflexivity. exfalso.
        destruct Hk as [Hk|Hk].
        + now apply (array_signature_no_length xs b) in Hk.
        + now apply array_no_length_key in Hk. }
    split; apply getProp_own; auto.
  - split; apply getProp_own; auto.
Qed.

(** ** Field changes *)

Lemma setEach_get (V : Type) (f : string -> option V) l m k :
  map_get k (setEach f l m) =
  if existsb (String.eqb k) l
  then match f k with
       | Some v => Some v
       | None => map_get k m
       end
  else map_get k m.
Proof.
  unfold setEach. revert m. induction l as [|x l IH]; intros m; simpl;
    [reflexivity|].
  rewrite IH. destruct (String.eqb_spec k x) as [->|Hne]; simpl.
  - destruct (f x) as [v|] eqn:Hf.
    + rewrite map_get_set_same. now destruct (existsb (String.eqb x) l).
    + now destruct (existsb (String.eqb x) l).
  - destruct (f x) as [v|]; [|reflexivity].
    now rewrite map_get_set_other.
Qed.

Lemma setEach_NoDup (V : Type) (f : string -> option V) l m :
  NoDup (map_keys m) -> NoDup (map_keys (setEach f l m)).
Proof.
  unfold setEach. revert m. induction l as [|x l IH]; intros m Hm; simpl;
    [assumption|].
  apply IH. destruct (f x); [now apply map_keys_set_NoDup|assumption].
Qed.

Lemma fieldChanges_fold obj1 obj2 l ch :
  let ch' := fold_left (fieldChangeStep obj1 obj2) l ch in
  added ch' = setEach (addedAt obj1 obj2) l (added ch) /\
  removed ch' = setEach (removedAt obj1 obj2) l (removed ch) /\
  changed ch' = setEach (changedAt obj1 obj2) l (changed ch).
Proof.
  unfold setEach. revert ch. induction l as [|x l IH]; intros ch; simpl;
    [auto|].
  specialize (IH (fieldChangeStep obj1 obj2 ch x)). simpl in IH.
  destruct IH as [-> [-> ->]].
  unfold fieldChangeStep, addedAt, removedAt, changedAt, assignField.
  destruct (String.eqb x "__proto__");
    destruct (getProp obj1 x) as [v1|], (getProp obj2 x) as [v2|]; simpl;
    auto; destruct (negb (isEqual v1 v2)); simpl; auto.
Qed.

(** The two variants of the page compute the same change set. *)
Lemma fieldChangeStepLegacy_eq obj1 obj2 ch key :
  fieldChangeStepLegacy obj1 obj2 ch key = fieldChangeStep obj1 obj2 ch key.
Proof.
  unfold fieldChangeStepLegacy, fieldChangeStep, hasOwnProperty.
  destruct (getProp obj1 key) as [v1|], (getProp obj2 key) as [v2|];
    simpl; reflexivity.
Qed.

Lemma calculateFieldChangesLegacy_eq obj1 obj2 :
  calculateFieldChangesLegacy obj1 obj2 = calculateFieldChanges obj1 obj2.
Proof.
  unfold calculateFieldChangesLegacy, calculateFieldChanges.
  generalize emptyChanges.
  induction (allKeysOf obj1 obj2) as [|k l IH]; intros ch; simpl;
    [reflexivity|].
  now rewrite fieldChangeStepLegacy_eq, IH.
Qed.

Lemma allKeysOf_In obj1 obj2 k :
  existsb (String.eqb k) (allKeysOf obj1 obj2) = true <->
  In k (objectKeys obj1) \/ In k (objectKeys obj2).
Proof.
  fold (set_has k (allKeysOf obj1 obj2)).
  rewrite set_has_true. unfold allKeysOf.
  now rewrite set_of_list_In, in_app_iff.
Qed.

Lemma calculateFieldChanges_added obj1 obj2 k :
  map_get k (added (calculateFieldChanges obj1 obj2)) =
  if existsb (String.eqb k) (allKeysOf obj1 obj2)
  then addedAt obj1 obj2 k else None.
Proof.
  unfold calculateFieldChanges.
  destruct (fieldChanges_fold obj1 obj2 (allKeysOf obj1 obj2) emptyChanges)
    as [-> _].
  rewrite setEach_get. simpl.
  now destruct (existsb _ _), (addedAt obj1 obj2 k).
Qed.

Lemma calculateFieldChanges_removed obj1 obj2 k :
  map_get k (removed (calculateFieldChanges obj1 obj2)) =
  if existsb (String.eqb k) (allKeysOf obj1 obj2)
  then removedAt obj1 obj2 k else None.
Proof.
  unfold calculateFieldChanges.
  destruct (fieldChanges_fold obj1 obj2 (allKeysOf obj1 obj2) emptyChanges)
    as [_ [-> _]].
  rewrite setEach_get. simpl.
  now destruct (existsb _ _), (removedAt obj1 obj2 k).
Qed.

Lemma calculateFieldChanges_changed obj1 obj2 k :
  map_get k (changed (calculateFieldChanges obj1 obj2)) =
  if existsb (String.eqb k) (allKeysOf obj1 obj2)
  then changedAt obj1 obj2 k else None.
Proof.
  unfold calculateFieldChanges.
  destruct (fieldChanges_fold obj1 obj2 (allKeysOf obj1 obj2) emptyChanges)
    as [_ [_ ->]].
  rewrite setEach_get. simpl.
  now destruct (existsb _ _), (changedAt obj1 obj2 k).
Qed.

Lemma calculateFieldChanges_NoDup obj1 obj2 :
  let ch := calculateFieldChanges obj1 obj2 in
  NoDup (map_keys (added ch)) /\ NoDup (map_keys (removed ch)) /\
  NoDup (map_keys (changed ch)).
Proof.
  unfold calculateFieldChanges.
  destruct (fieldChanges_fold obj1 obj2 (allKeysOf obj1 obj2) emptyChanges)
    as [-> [-> ->]].
  repeat split; apply setEach_NoDup; constructor.
Qed.

(** A field recorded as changed holds two values that differ. *)
Lemma changed_differs obj1 obj2 k c :
  map_get k (changed (calculateFieldChanges obj1 obj2)) = Some c ->
  isEqualValue (getProp obj1 k) (getProp obj2 k) = false.
Proof.
  rewrite calculateFieldChanges_changed.
  destruct (existsb _ _); [|discriminate].
  unfold changedAt. destruct (String.eqb k "__proto__"); [discriminate|].
  destruct (getProp obj1 k) as [v1|], (getProp obj2 k) as [v2|];
    try discriminate.
  simpl. destruct (isEqual v1 v2); [discriminate|reflexivity].
Qed.

(** The removal of the key field from [changed] never fires: the entry
    exists only when the two values differ. *)
Lemma dropSpuriousKeyChange_id keyField b a :
  dropSpuriousKeyChange keyField b a (calculateFieldChanges b a) =
  calculateFieldChanges b a.
Proof.
  unfold dropSpuriousKeyChange, map_has.
  destruct (map_get keyField (changed (calculateFieldChanges b a))) as [c|] eqn:E;
    [|reflexivity].
  apply changed_differs in E. now rewrite E.
Qed.

(** ** The classification loops *)

Lemma classifyAfterStep_outcome kc beforeMap afterMap st item :
  AfterOutcome kc beforeMap afterMap item st
    (classifyAfterStep kc beforeMap afterMap st item).
Proof.
  unfold classifyAfterStep.
  destruct (isObject item) eqn:Hobj; simpl; [|constructor].
  destruct (keyFieldOf kc (getObjectSignature item)) as [kf|] eqn:Hk;
    [|now constructor].
  destruct (getProp item kf) as [[ | | | v | | ]|] eqn:Hv; try constructor.
  destruct (map_get v afterMap) as [ea|] eqn:Ha; [|constructor].
  destruct (map_get v beforeMap) as [eb|] eqn:Hb;
    [|now apply AfterNew with (v := v)].
  destruct (String.eqb_spec (Entry.signature eb) (Entry.signature ea))
    as [Hs|Hs]; simpl.
  - destruct (isEqual (Entry.item eb) (Entry.item ea)) eqn:He; simpl;
      [constructor|].
    rewrite dropSpuriousKeyChange_id.
    destruct (hasChanges _) eqn:Hc; [|constructor].
    now apply AfterModified.
  - now apply AfterReplaced with (kf := kf) (v := v).
Qed.

Lemma classifyBeforeStep_outcome kc afterData beforeMap afterMap st item :
  BeforeOutcome kc afterData beforeMap afterMap item st
    (classifyBeforeStep kc afterData beforeMap afterMap st item).
Proof.
  unfold classifyBeforeStep.
  destruct (isObject item) eqn:Hobj; simpl; [|constructor].
  destruct (keyFieldOf kc (getObjectSignature item)) as [kf|] eqn:Hk.
  - destruct (getProp item kf) as [[ | | | v | | ]|] eqn:Hv; try constructor.
    destruct (map_get v beforeMap) as [eb|] eqn:Hb; [|constructor].
    unfold map_has. destruct (map_get v afterMap) as [ea|] eqn:Ha; simpl;
      [constructor|].
    destruct (negb _); [|constructor].
    now apply BeforeDeleted with (v := v).
  - destruct (existsb _ afterData) eqn:Hex; simpl; [constructor|].
    apply BeforeUnkeyed; try assumption.
    intros afterItem Hin Ho Hs.
    assert (existsb
              (fun afterItem =>
                 if isObject afterItem
                 then String.eqb (getObjectSignature afterItem)
                        (getObjectSignature item)
                 else false) afterData = true) as C.
    { apply existsb_exists. exists afterItem. split; [assumption|].
      rewrite Ho. now apply String.eqb_eq. }
    congruence.
Qed.

(** Induction over the two loops of [classify]. *)
Lemma classify_ind kc beforeData afterData beforeMap afterMap
  (P : Lists -> Prop) :
  P emptyLists ->
  (forall item st st',
      In item afterData -> P st ->
      AfterOutcome kc beforeMap afterMap item st st' -> P st') ->
  (forall item st st',
      In item beforeData -> P st ->
      BeforeOutcome kc afterData beforeMap afterMap item st st' -> P st') ->
  P (classify kc beforeData afterData beforeMap afterMap).
Proof.
  intros H0 HA HB. unfold classify.
  assert (forall l st, incl l afterData -> P st ->
            P (fold_left (classifyAfterStep kc beforeMap afterMap) l st))
    as HloopA.
  { induction l as [|x l IH]; intros st Hincl Hst; simpl; [assumption|].
    apply IH.
    - intros y Hy. apply Hincl. now right.
    - eapply HA; [apply Hincl; now left|exact Hst|].
      apply classifyAfterStep_outcome. }
  assert (forall l st, incl l beforeData -> P st ->
            P (fold_left
                 (classifyBeforeStep kc afterData beforeMap afterMap) l st))
    as HloopB.
  { induction l as [|x l IH]; intros st Hincl Hst; simpl; [assumption|].
    apply IH.
    - intros y Hy. apply Hincl. now right.
    - eapply HB; [apply Hincl; now left|exact Hst|].
      apply classifyBeforeStep_outcome. }
  apply HloopB; [apply incl_refl|].
  apply HloopA; [apply incl_refl|assumption].
Qed.

Lemma classify_modified_matched kc beforeData afterData beforeMap afterMap m :
  In m (pushedModified (classify kc beforeData afterData beforeMap afterMap)) ->
  matchedPair beforeMap afterMap m.
Proof.
  revert m. apply classify_ind.
  - intros m [].
  - intros item st st' _ IH Hout m Hin.
    inversion Hout; subst; simpl in Hin; auto.
    apply in_app_or in Hin. destruct Hin as [Hin|[<-|[]]]; [auto|].
    unfold matchedPair. simpl. eauto 10.
  - intros item st st' _ IH Hout m Hin.
    inversion Hout; subst; simpl in Hin; auto.
Qed.

Lemma entryOf_keyed kc item v e :
  entryOf kc item v e ->
  keyFieldOf kc (getObjectSignature (Entry.item e)) = Some (Entry.keyField e) /\
  getProp (Entry.item e) (Entry.keyField e) = Some (JStr v) /\
  Entry.signature e = getObjectSignature (Entry.item e).
Proof.
  intros [Hobj [Hitem [Hsig [Hk Hv]]]]. rewrite Hitem.
  apply validKeyValue_Some in Hv. destruct Hv as [Hv _]. auto.
Qed.

(** Every modified entry pairs two records of one signature that hold
    the entry's key value under the key field configured for that
    signature, and the [changed] sub-mapping of its change set has no
    entry for that field. *)
Theorem modified_changed_excludes_key_field :
  forall (localeCompare : string -> string -> comparison)
         (beforeData afterData : list Json) (kc : SelectedKeyConfig)
         (res : ComparisonResult) (m : ModifiedEntry),
    diff localeCompare (JArr beforeData) (JArr afterData) kc = inr res ->
    In m (modifiedEntries res) ->
    exists keyField,
      keyFieldOf kc (getObjectSignature (before m)) = Some keyField /\
      keyFieldOf kc (getObjectSignature (after m)) = Some keyField /\
      getProp (before m) keyField = Some (JStr (keyFieldValue m)) /\
      getProp (after m) keyField = Some (JStr (keyFieldValue m)) /\
      map_get keyField (changed (changes m)) = None.
Proof.
  intros lc beforeData afterData kc res m Hd Hin. unfold diff in Hd.
  apply compareJsons_result in Hd. destruct Hd as [_ [_ [Hmod _]]].
  rewrite Hmod in Hin. apply classify_modified_matched in Hin.
  destruct Hin as [eb [ea [Hb [Ha [Eb [Ea [Hsig [Hch _]]]]]]]].
  apply storeItem_entries in Hb. destruct Hb as [Hb|[ib [_ Hb]]];
    [discriminate|].
  apply storeItem_entries in Ha. destruct Ha as [Ha|[ia [_ Ha]]];
    [discriminate|].
  apply entryOf_keyed in Hb, Ha.
  destruct Hb as [Hkb [Hvb Hsb]]. destruct Ha as [Hka [Hva Hsa]].
  rewrite <- Eb in Hkb, Hvb, Hsb. rewrite <- Ea in Hka, Hva, Hsa.
  assert (getObjectSignature (before m) = getObjectSignature (after m)) as Hs
    by congruence.
  assert (Entry.keyField eb = Entry.keyField ea) as Hkf by congruence.
  exists (Entry.keyField eb). repeat split; try congruence.
  destruct (map_get (Entry.keyField eb) (changed (changes m))) as [c|] eqn:E;
    [|reflexivity].
  rewrite Hch in E. apply changed_differs in E.
  rewrite Hvb, Hkf, Hva in E. simpl in E.
  rewrite String.eqb_refl in E. discriminate.
Qed.

(** ** Re-applying a change set *)

Lemma fold_set_get (V W : Type) (g : V -> W) (l : JsMap V) (o : JsMap W) k :
  NoDup (map_keys l) ->
  map_get k (fold_left (fun o kv => map_set (fst kv) (g (snd kv)) o) l o) =
  match map_get k l with
  | Some x => Some (g x)
  | None => map_get k o
  end.
Proof.
  revert o. induction l as [|[k0 x0] l IH]; intros o Hnd; simpl;
    [reflexivity|].
  simpl in Hnd. inversion Hnd as [|? ? Hnotin Hnd']; subst.
  rewrite IH by assumption.
  destruct (String.eqb_spec k k0) as [->|Hne].
  - assert (map_get k0 l = None) as -> by now apply map_get_None.
    apply map_get_set_same.
  - destruct (map_get k l); [reflexivity|]. now apply map_get_set_other.
Qed.

Lemma fold_delete_get (V W : Type) (l : JsMap V) (o : JsMap W) k :
  NoDup (map_keys o) ->
  map_get k (fold_left (fun o kv => map_delete (fst kv) o) l o) =
  if map_has k l then None else map_get k o.
Proof.
  revert o. induction l as [|[k0 x0] l IH]; intros o Hnd; simpl;
    [reflexivity|].
  rewrite IH by now apply map_keys_delete_NoDup.
  unfold map_has. simpl.
  destruct (String.eqb_spec k k0) as [->|Hne].
  - rewrite map_get_delete_same by assumption. now destruct (map_get k0 l).
  - rewrite map_get_delete_other by assumption. reflexivity.
Qed.

Lemma applyChanges_get ch fields k :
  NoDup (map_keys fields) ->
  NoDup (map_keys (added ch)) -> NoDup (map_keys (changed ch)) ->
  map_get k (applyChanges ch fields) =
  match map_get k (changed ch) with
  | Some c => Some (Change.after c)
  | None =>
      match map_get k (added ch) with
      | Some v => Some v
      | None => if map_has k (removed ch) then None else map_get k fields
      end
  end.
Proof.
  intros Hf Ha Hc. unfold applyChanges.
  rewrite (fold_set_get Change.after) by assumption.
  rewrite (fold_set_get (fun v : Json => v)) by assumption.
  now rewrite fold_delete_get.
Qed.

Lemma ownEntries_wf item k v :
  wfJson item -> map_get k (ownEntries item) = Some v -> wfJson v.
Proof.
  intros Hwf Hg. apply map_get_In in Hg.
  destruct item as [ | b | n | s | xs | fs ]; simpl in Hg; try contradiction.
  - apply wfJson_arr in Hwf. apply in_combine_r in Hg.
    rewrite Forall_forall in Hwf. auto.
  - apply wfJson_obj in Hwf. destruct Hwf as [_ Hall].
    rewrite Forall_forall in Hall. apply (Hall (k, v) Hg).
Qed.

(** Between two records of one signature, or two plain objects, that
    agree on the field [__proto__] (which no change set records), the
    change set computed by [calculateFieldChanges], applied to the first,
    gives the fields of the second, up to deep equality of the values left
    in place. *)
Lemma applyChanges_calculateFieldChanges b a k :
  wfJson b -> wfJson a ->
  getObjectSignature b = getObjectSignature a \/
  (isArray b = false /\ isArray a = false) ->
  isEqualValue (map_get "__proto__" (ownEntries b))
               (map_get "__proto__" (ownEntries a)) = true ->
  isEqualValue
    (map_get k (applyChanges (calculateFieldChanges b a) (ownEntries b)))
    (map_get k (ownEntries a)) = true.
Proof.
  intros Hwb Hwa Hsig Hproto.
  assert (In k (objectKeys b) \/ In k (objectKeys a) ->
          getProp b k = map_get k (ownEntries b) /\
          getProp a k = map_get k (ownEntries a)) as Hown.
  { intros Hk. destruct Hsig as [Hsig|[Hb Ha]].
    - now apply same_signature_own.
    - split; apply getProp_own; auto. }
  destruct (calculateFieldChanges_NoDup b a) as [Hna [_ Hnc]].
  rewrite applyChanges_get; try assumption;
    [|now apply ownEntries_NoDup].
  unfold map_has.
  rewrite calculateFieldChanges_changed, calculateFieldChanges_added,
    calculateFieldChanges_removed.
  unfold changedAt, addedAt, removedAt.
  destruct (String.eqb_spec k "__proto__") as [Ek|Hp].
  { subst k. destruct (existsb _ (allKeysOf b a)); exact Hproto. }
  destruct (existsb (String.eqb k) (allKeysOf b a)) eqn:Hin.
  - apply allKeysOf_In in Hin.
    destruct (Hown Hin) as [Hb Ha].
    rewrite Hb, Ha.
    destruct (map_get k (ownEntries b)) as [v1|] eqn:E1,
             (map_get k (ownEntries a)) as [v2|] eqn:E2; simpl;
      try reflexivity.
    + destruct (isEqual v1 v2) eqn:He; simpl; [exact He|].
      apply isEqual_refl. eapply ownEntries_wf; eauto.
    + apply isEqual_refl. eapply ownEntries_wf; eauto.
  - assert (~ (In k (objectKeys b) \/ In k (objectKeys a))) as Hn.
    { intros H. apply allKeysOf_In in H. congruence. }
    assert (map_get k (ownEntries b) = None) as ->.
    { apply map_get_None. tauto. }
    assert (map_get k (ownEntries a) = None) as ->.
    { apply map_get_None. tauto. }
    reflexivity.
Qed.

Lemma applyChanges_NoDup ch fields :
  NoDup (map_keys fields) -> NoDup (map_keys (applyChanges ch fields)).
Proof.
  intros Hf. unfold applyChanges.
  assert (forall (V : Type) (g : V -> Json) (l : JsMap V) (o : JsonEntry),
            NoDup (map_keys o) ->
            NoDup (map_keys
                     (fold_left (fun o kv => map_set (fst kv) (g (snd kv)) o)
                        l o))) as Hset.
  { intros V g l. induction l as [|x l IH]; intros o Ho; simpl; [assumption|].
    apply IH. now apply map_keys_set_NoDup. }
  assert (forall (V : Type) (l : JsMap V) (o : JsonEntry),
            NoDup (map_keys o) ->
            NoDup (map_keys
                     (fold_left (fun o kv => map_delete (fst kv) o) l o)))
    as Hdel.
  { intros V l. induction l as [|x l IH]; intros o Ho; simpl; [assumption|].
    apply IH. now apply map_keys_delete_NoDup. }
  apply (Hset _ Change.after). apply (Hset _ (fun v : Json => v)).
  now apply Hdel.
Qed.

(** Two plain objects without repeated names that agree field by field
    are deeply equal. *)
Lemma isEqual_obj_pointwise fs gs :
  NoDup (map_keys fs) -> NoDup (map_keys gs) ->
  (forall k, isEqualValue (map_get k fs) (map_get k gs) = true) ->
  isEqual (JObj fs) (JObj gs) = true.
Proof.
  intros Hf Hg H. apply isEqual_obj. split.
  - assert (Permutation (map_keys fs) (map_keys gs)) as Hp.
    { apply NoDup_Permutation; try assumption. intros k.
      specialize (H k). split; intros Hk.
      - apply map_get_key_Some in Hk. destruct Hk as [v Hv]. rewrite Hv in H.
        destruct (map_get k gs) eqn:E; [|discriminate].
        eapply map_get_Some_key; eauto.
      - apply map_get_key_Some in Hk. destruct Hk as [v Hv]. rewrite Hv in H.
        destruct (map_get k fs) eqn:E; [|discriminate].
        eapply map_get_Some_key; eauto. }
    apply Permutation_length in Hp. unfold map_keys in Hp.
    now rewrite !length_map in Hp.
  - intros k v Hin. specialize (H k).
    rewrite (@In_map_get _ k v fs Hf Hin) in H.
    destruct (map_get k gs) as [w|]; [|discriminate]. eauto.
Qed.

(** For every modified entry whose two records agree on the field
    [__proto__], deleting the fields of [removed] from the before
    record, inserting those of [added] and replacing those of [changed]
    by their after-values gives the after record: field by field, the
    two hold deeply equal values or are both absent, and [isEqual] holds
    between the two objects. *)
Theorem field_changes_reconstruct_after :
  forall (localeCompare : string -> string -> comparison)
         (beforeData afterData : list Json) (kc : SelectedKeyConfig)
         (res : ComparisonResult) (m : ModifiedEntry),
    Forall wfJson beforeData -> Forall wfJson afterData ->
    diff localeCompare (JArr beforeData) (JArr afterData) kc = inr res ->
    In m (modifiedEntries res) ->
    isEqualValue (map_get "__proto__" (ownEntries (before m)))
                 (map_get "__proto__" (ownEntries (after m))) = true ->
    (forall k,
        isEqualValue
          (map_get k (applyChanges (changes m) (ownEntries (before m))))
          (map_get k (ownEntries (after m))) = true) /\
    isEqual (JObj (applyChanges (changes m) (ownEntries (before m))))
      (JObj (ownEntries (after m))) = true.
Proof.
  intros lc beforeData afterData kc res m HwB HwA Hd Hin Hproto.
  unfold diff in Hd.
  apply compareJsons_result in Hd. destruct Hd as [_ [_ [Hmod _]]].
  rewrite Hmod in Hin. apply classify_modified_matched in Hin.
  destruct Hin as [eb [ea [Hb [Ha [Eb [Ea [Hsig [Hch _]]]]]]]].
  apply storeItem_entries in Hb. destruct Hb as [Hb|[ib [Hinb Hb]]];
    [discriminate|].
  apply storeItem_entries in Ha. destruct Ha as [Ha|[ia [Hina Ha]]];
    [discriminate|].
  destruct Hb as [_ [Hib [Hsb _]]]. destruct Ha as [_ [Hia [Hsa _]]].
  rewrite Forall_forall in HwB, HwA.
  assert (wfJson (before m)) as Wb by (rewrite Eb, Hib; auto).
  assert (wfJson (after m)) as Wa by (rewrite Ea, Hia; auto).
  assert (forall k,
             isEqualValue
               (map_get k (applyChanges (changes m) (ownEntries (before m))))
               (map_get k (ownEntries (after m))) = true) as Hpoint.
  { intros k. rewrite Hch. apply applyChanges_calculateFieldChanges;
      try assumption.
    left. rewrite Eb, Ea, Hib, Hia. congruence. }
  split; [exact Hpoint|].
  apply isEqual_obj_pointwise; try assumption.
  - apply applyChanges_NoDup. now apply ownEntries_NoDup.
  - now apply ownEntries_NoDup.
Qed.

(** ** Warnings and the provenance of entries *)

Lemma populateStep_keeps side kc m errs item w :
  In w errs -> In w (snd (populateStep side kc (m, errs) item)).
Proof.
  intros Hin. unfold populateStep.
  destruct (negb (isObject item)); simpl; [apply in_or_app; auto|].
  destruct (keyFieldOf kc (getObjectSignature item)) as [kf|]; [|assumption].
  destruct (validKeyValue item kf) as [v|]; simpl; [|apply in_or_app; auto].
  destruct (map_has v m); [apply in_or_app; auto|assumption].
Qed.

Lemma populate_keeps side kc data m errs w :
  In w errs -> In w (snd (fold_left (populateStep side kc) data (m, errs))).
Proof.
  revert m errs. induction data as [|x data IH]; intros m errs Hin;
    cbn [fold_left]; [assumption|].
  pose proof (@populateStep_keeps side kc m errs x w Hin) as H.
  destruct (populateStep side kc (m, errs) x) as [m' errs']. now apply IH.
Qed.


Lemma dedupEntries_incl kc l e : In e (dedupEntries kc l) -> In e l.
Proof.
  unfold dedupEntries.
  enough (forall m, In e (map_values
                            (fold_left
                               (fun m e => map_set (makeEntryId kc e) e m) l m)) ->
                    In e (map_values m) \/ In e l) as H.
  { intros Hin. apply H in Hin. destruct Hin as [[]|Hin]. assumption. }
  induction l as [|x l IH]; intros m Hin; simpl in *; [now left|].
  apply IH in Hin. destruct Hin as [Hin|Hin]; [|auto].
  apply map_values_set_In in Hin. destruct Hin as [->|Hin]; auto.
Qed.

Lemma entryOf_trackable kc item v e :
  entryOf kc item v e -> trackable kc (Entry.item e).
Proof.
  intros [Hobj [Hitem [Hsig [Hk Hv]]]]. rewrite Hitem.
  split; [assumption|]. right. eauto.
Qed.

Lemma stored_source kc data v e :
  map_get v (fold_left (storeItem kc) data []) = Some e ->
  In (Entry.item e) data /\ trackable kc (Entry.item e).
Proof.
  intros Hg. apply storeItem_entries in Hg.
  destruct Hg as [Hg|[item [Hin He]]]; [discriminate|].
  split.
  - destruct He as [_ [-> _]]. assumption.
  - eapply entryOf_trackable; eauto.
Qed.

Lemma labelledCopy_keyed item sig kf : labelledCopy (keyedEntry item sig kf) item.
Proof. exists sig. right. now exists kf. Qed.

Lemma labelledCopy_unkeyed item sig : labelledCopy (unkeyedEntry item sig) item.
Proof. exists sig. now left. Qed.

Lemma sourcedFrom_push kc data l e item :
  sourcedFrom kc data l -> In item data -> trackable kc item ->
  labelledCopy e item -> sourcedFrom kc data (l ++ [e])%list.
Proof.
  intros Hl Hin Ht Hc e' He'. apply in_app_or in He'.
  destruct He' as [He'|[<-|[]]]; [auto|eauto].
Qed.

(** Every entry pushed by the loops copies a trackable record of the
    side it reports on; every modified entry pairs two of them. *)
Lemma classify_sources kc beforeData afterData :
  let st := classify kc beforeData afterData
              (fold_left (storeItem kc) beforeData [])
              (fold_left (storeItem kc) afterData []) in
  sourcedFrom kc afterData (pushedNew st) /\
  sourcedFrom kc beforeData (pushedDeleted st) /\
  (forall m, In m (pushedModified st) ->
             In (before m) beforeData /\ trackable kc (before m) /\
             In (after m) afterData /\ trackable kc (after m)).
Proof.
  cbv zeta.
  apply classify_ind
    with (P := fun st =>
                 sourcedFrom kc afterData (pushedNew st) /\
                 sourcedFrom kc beforeData (pushedDeleted st) /\
                 (forall m, In m (pushedModified st) ->
                            In (before m) beforeData /\
                            trackable kc (before m) /\
                            In (after m) afterData /\
                            trackable kc (after m))).
  - split; [|split]; [intros e He|intros e He|intros m He]; destruct He.
  - intros item st st' Hin [HN [HD HM]] Hout.
    inversion Hout; subst; simpl.
    + auto.
    + (split; [|split]); try assumption.
      apply sourcedFrom_push with (item := item); try assumption.
      * split; auto.
      * apply labelledCopy_unkeyed.
    + (split; [|split]); try assumption.
      match goal with H : map_get _ _ = Some ea |- _ =>
        apply stored_source in H; destruct H end.
      apply sourcedFrom_push with (item := Entry.item ea); try assumption.
      apply labelledCopy_keyed.
    + repeat match goal with H : map_get _ _ = Some _ |- _ =>
        apply stored_source in H; destruct H end.
      (split; [|split]); try assumption.
      * apply sourcedFrom_push with (item := Entry.item ea); try assumption.
        apply labelledCopy_keyed.
      * apply sourcedFrom_push with (item := Entry.item eb); try assumption.
        apply labelledCopy_keyed.
    + repeat match goal with H : map_get _ _ = Some _ |- _ =>
        apply stored_source in H; destruct H end.
      (split; [|split]); try assumption.
      intros m Hm. apply in_app_or in Hm.
      destruct Hm as [Hm|[<-|[]]]; [auto|]. simpl. auto.
  - intros item st st' Hin [HN [HD HM]] Hout.
    inversion Hout; subst; simpl.
    + auto.
    + (split; [|split]); try assumption.
      apply sourcedFrom_push with (item := item); try assumption.
      * split; auto.
      * apply labelledCopy_unkeyed.
    + match goal with H : map_get _ _ = Some eb |- _ =>
        apply stored_source in H; destruct H end.
      (split; [|split]); try assumption.
      apply sourcedFrom_push with (item := Entry.item eb); try assumption.
      apply labelledCopy_keyed.
Qed.



(** ** Replacement on a signature change *)

Lemma classifyAfterStep_grows kc bm am st item :
  incl (pushedNew st) (pushedNew (classifyAfterStep kc bm am st item)) /\
  incl (pushedModified st)
    (pushedModified (classifyAfterStep kc bm am st item)) /\
  incl (pushedDeleted st) (pushedDeleted (classifyAfterStep kc bm am st item)).
Proof.
  destruct (classifyAfterStep_outcome kc bm am st item); simpl;
    (split; [|split]); try apply incl_refl; try apply incl_appl;
    apply incl_refl.
Qed.

Lemma classifyBeforeStep_grows kc afterData bm am st item :
  incl (pushedNew st)
    (pushedNew (classifyBeforeStep kc afterData bm am st item)) /\
  incl (pushedModified st)
    (pushedModified (classifyBeforeStep kc afterData bm am st item)) /\
  incl (pushedDeleted st)
    (pushedDeleted (classifyBeforeStep kc afterData bm am st item)).
Proof.
  destruct (classifyBeforeStep_outcome kc afterData bm am st item); simpl;
    (split; [|split]); try apply incl_refl; try apply incl_appl;
    apply incl_refl.
Qed.

Lemma fold_grows (f : Lists -> Json -> Lists) l st :
  (forall st item,
      incl (pushedNew st) (pushedNew (f st item)) /\
      incl (pushedModified st) (pushedModified (f st item)) /\
      incl (pushedDeleted st) (pushedDeleted (f st item))) ->
  incl (pushedNew st) (pushedNew (fold_left f l st)) /\
  incl (pushedModified st) (pushedModified (fold_left f l st)) /\
  incl (pushedDeleted st) (pushedDeleted (fold_left f l st)).
Proof.
  intros Hf. revert st. induction l as [|x l IH]; intros st; simpl.
  - repeat split; apply incl_refl.
  - destruct (Hf st x) as [H1 [H2 H3]].
    destruct (IH (f st x)) as [I1 [I2 I3]].
    repeat split; eapply incl_tran; eauto.
Qed.

(** What one iteration pushes does not depend on the lists so far. *)
Lemma classifyAfterStep_from_empty kc bm am st item :
  incl (pushedNew (classifyAfterStep kc bm am emptyLists item))
    (pushedNew (classifyAfterStep kc bm am st item)) /\
  incl (pushedDeleted (classifyAfterStep kc bm am emptyLists item))
    (pushedDeleted (classifyAfterStep kc bm am st item)).
Proof.
  unfold classifyAfterStep.
  destruct (negb (isObject item)); [split; apply incl_nil_l|].
  destruct (keyFieldOf kc (getObjectSignature item)) as [kf|].
  - destruct (getProp item kf) as [[ | | | v | | ]|];
      try (split; apply incl_nil_l).
    destruct (map_get v am) as [ea|]; [|split; apply incl_nil_l].
    destruct (map_get v bm) as [eb|].
    + destruct (negb (String.eqb _ _)).
      * simpl. split; apply incl_appr, incl_refl.
      * destruct (negb (isEqual _ _)); [|split; apply incl_nil_l].
        destruct (hasChanges _); simpl; split; apply incl_nil_l.
    + simpl. split; [apply incl_appr, incl_refl|apply incl_nil_l].
  - simpl. split; [apply incl_appr, incl_refl|apply incl_nil_l].
Qed.

(** What the loop over [afterData] pushes for a record stays pushed. *)
Lemma classify_after_pushes kc beforeData afterData bm am item :
  In item afterData ->
  let st' := classifyAfterStep kc bm am emptyLists item in
  let st := classify kc beforeData afterData bm am in
  incl (pushedNew st') (pushedNew st) /\
  incl (pushedDeleted st') (pushedDeleted st).
Proof.
  intros Hin. cbv zeta. unfold classify.
  set (fB := classifyBeforeStep kc afterData bm am).
  set (fA := classifyAfterStep kc bm am).
  assert (forall st,
             incl (pushedNew st) (pushedNew (fold_left fB beforeData st)) /\
             incl (pushedDeleted st)
               (pushedDeleted (fold_left fB beforeData st))) as HB.
  { intros st.
    destruct (@fold_grows fB beforeData st) as [H1 [_ H3]]; [|auto].
    intros. apply classifyBeforeStep_grows. }
  assert (forall l st,
             In item l ->
             incl (pushedNew (fA emptyLists item))
               (pushedNew (fold_left fA l st)) /\
             incl (pushedDeleted (fA emptyLists item))
               (pushedDeleted (fold_left fA l st))) as HA.
  { induction l as [|x l IH]; intros st Hl; [destruct Hl|].
    simpl. destruct Hl as [->|Hl]; [|now apply IH].
    destruct (@fold_grows fA l (fA st item)) as [H1 [_ H3]].
    { intros. apply classifyAfterStep_grows. }
    destruct (classifyAfterStep_from_empty kc bm am st item) as [G1 G3].
    split; eapply incl_tran; eauto. }
  destruct (HA afterData emptyLists Hin) as [A1 A3].
  destruct (HB (fold_left fA afterData emptyLists)) as [B1 B3].
  split; eapply incl_tran; eauto.
Qed.

(** ** The deduplication pass *)

Lemma dedupEntries_keeps_id kc l e :
  In e l ->
  exists e', In e' (dedupEntries kc l) /\ makeEntryId kc e' = makeEntryId kc e.
Proof.
  unfold dedupEntries.
  set (step := fun (m : JsMap JsonEntry) e => map_set (makeEntryId kc e) e m).
  assert (forall l m,
            (forall k x, In (k, x) m -> makeEntryId kc x = k) ->
            NoDup (map_keys m) ->
            (forall k x, In (k, x) (fold_left step l m) -> makeEntryId kc x = k)
            /\ NoDup (map_keys (fold_left step l m))) as Hinv.
  { induction l0 as [|x l0 IH]; intros m Hm Hnd; simpl; [auto|].
    apply IH.
    - intros k y Hin. unfold step in Hin.
      assert (map_get k (map_set (makeEntryId kc x) x m) = Some y) as Hg.
      { apply In_map_get; [now apply map_keys_set_NoDup|assumption]. }
      rewrite map_get_set in Hg.
      destruct (String.eqb_spec k (makeEntryId kc x)) as [->|Hne].
      + now injection Hg as <-.
      + apply Hm. now apply map_get_In.
    - now apply map_keys_set_NoDup. }
  assert (forall l m k, In k (map_keys m) -> In k (map_keys (fold_left step l m)))
    as Hkeep.
  { induction l0 as [|x l0 IH]; intros m k Hk; simpl; [assumption|].
    apply IH. unfold step. apply map_keys_set. now right. }
  assert (forall l m, In e l ->
            In (makeEntryId kc e) (map_keys (fold_left step l m))) as Hkey.
  { induction l0 as [|x l0 IH]; intros m Hin; [destruct Hin|].
    simpl. destruct Hin as [->|Hin]; [|now apply IH].
    apply Hkeep. unfold step. apply map_keys_set. now left. }
  intros Hin.
  destruct (Hinv l []) as [Hid _]; [intros ? ? []|constructor|].
  specialize (Hkey l [] Hin). apply map_get_key_Some in Hkey.
  destruct Hkey as [e' He']. apply map_get_In in He'.
  exists e'. split.
  - unfold map_values. now apply (in_map snd) in He'.
  - now apply Hid.
Qed.

Lemma compareJsons_pushed beforeData afterData bS aS kc res :
  compareJsons (JArr beforeData) (JArr afterData) bS aS kc = inr res ->
  let st := pushedLists kc beforeData afterData in
  newEntries res = dedupEntries kc (pushedNew st) /\
  modifiedEntries res = pushedModified st /\
  deletedEntries res = dedupEntries kc (pushedDeleted st).
Proof.
  intros H. apply compareJsons_result in H. destruct H as [_ [H1 [H2 [H3 _]]]].
  auto.
Qed.

(** C4, as the code has it.  When the records that the two lookups
    hold for a key value -- on each side the last valid record carrying
    it -- have different signatures, no modified entry is emitted for
    that key value; the before-side record is pushed to the deleted list
    and the after-side record to the new list, each under its own
    signature and key field; and each result list keeps an entry with the
    same entry id, which is that very entry when no other pushed entry
    shares its id. *)
Theorem signature_change_is_replacement :
  forall (localeCompare : string -> string -> comparison)
         (beforeData afterData : list Json) (kc : SelectedKeyConfig)
         (res : ComparisonResult) (keyValue : string) (eb ea : Entry.t),
    diff localeCompare (JArr beforeData) (JArr afterData) kc = inr res ->
    map_get keyValue (keyLookup kc beforeData) = Some eb ->
    map_get keyValue (keyLookup kc afterData) = Some ea ->
    Entry.signature eb <> Entry.signature ea ->
    let deletedEntry :=
      keyedEntry (Entry.item eb) (Entry.signature eb) (Entry.keyField eb) in
    let newEntry :=
      keyedEntry (Entry.item ea) (Entry.signature ea) (Entry.keyField ea) in
    let st := pushedLists kc beforeData afterData in
    (forall m, In m (modifiedEntries res) -> keyFieldValue m <> keyValue) /\
    In deletedEntry (pushedDeleted st) /\
    In newEntry (pushedNew st) /\
    (exists e, In e (deletedEntries res) /\
               makeEntryId kc e = makeEntryId kc deletedEntry) /\
    (exists e, In e (newEntries res) /\
               makeEntryId kc e = makeEntryId kc newEntry) /\
    ((forall e, In e (pushedDeleted st) ->
                makeEntryId kc e = makeEntryId kc deletedEntry ->
                e = deletedEntry) ->
     In deletedEntry (deletedEntries res)) /\
    ((forall e, In e (pushedNew st) ->
                makeEntryId kc e = makeEntryId kc newEntry -> e = newEntry) ->
     In newEntry (newEntries res)).
Proof.
  intros lc beforeData afterData kc res v eb ea Hd Hb Ha Hsig
    deletedEntry newEntry st.
  unfold diff in Hd. apply compareJsons_pushed in Hd. fold st in Hd.
  destruct Hd as [HN [HM HD]].
  assert (In deletedEntry (pushedDeleted st) /\ In newEntry (pushedNew st))
    as [HpD HpN].
  { pose proof Ha as Hsrc. unfold keyLookup in Hsrc.
    apply storeItem_entries in Hsrc.
    destruct Hsrc as [Hsrc|[item [Hin He]]]; [discriminate|].
    destruct He as [Hobj [Hitem [Hs [Hk Hv]]]].
    apply validKeyValue_Some in Hv. destruct Hv as [Hv _].
    destruct (@classify_after_pushes kc beforeData afterData
                (keyLookup kc beforeData) (keyLookup kc afterData) item Hin)
      as [I1 I3].
    fold (pushedLists kc beforeData afterData) in I1, I3. fold st in I1, I3.
    assert (classifyAfterStep kc (keyLookup kc beforeData)
              (keyLookup kc afterData) emptyLists item =
            pushNew newEntry (pushDeleted deletedEntry emptyLists)) as Hstep.
    { unfold classifyAfterStep. rewrite Hobj, Hk, Hv, Ha, Hb. simpl.
      apply String.eqb_neq in Hsig. now rewrite Hsig. }
    rewrite Hstep in I1, I3. simpl in I1, I3.
    split; [apply I3|apply I1]; now left. }
  assert (exists e, In e (deletedEntries res) /\
                    makeEntryId kc e = makeEntryId kc deletedEntry) as HeD.
  { rewrite HD. now apply dedupEntries_keeps_id. }
  assert (exists e, In e (newEntries res) /\
                    makeEntryId kc e = makeEntryId kc newEntry) as HeN.
  { rewrite HN. now apply dedupEntries_keeps_id. }
  split; [|split; [|split; [|split; [|split; [|split]]]]];
    try assumption.
  - intros m Hm E. rewrite HM in Hm.
    apply classify_modified_matched in Hm.
    destruct Hm as [eb' [ea' [Hb' [Ha' [_ [_ [Hs' _]]]]]]].
    rewrite E in Hb', Ha'. congruence.
  - intros Huniq. destruct HeD as [e [Hin Hid]].
    assert (e = deletedEntry) as <-; [|assumption].
    apply Huniq; [|assumption]. rewrite HD in Hin.
    now apply dedupEntries_incl in Hin.
  - intros Huniq. destruct HeN as [e [Hin Hid]].
    assert (e = newEntry) as <-; [|assumption].
    apply Huniq; [|assumption]. rewrite HN in Hin.
    now apply dedupEntries_incl in Hin.
Qed.

(** ** Order of strings and the canonical signature *)

Lemma ascii_compare_refl x : Ascii.compare x x = Eq.
Proof. unfold Ascii.compare. apply N.compare_refl. Qed.

Lemma ascii_compare_lt_trans x y z :
  Ascii.compare x y = Lt -> Ascii.compare y z = Lt -> Ascii.compare x z = Lt.
Proof.
  unfold Ascii.compare. rewrite !N.compare_lt_iff. apply N.lt_trans.
Qed.

Lemma string_leb_trans a b c :
  String.leb a b = true -> String.leb b c = true -> String.leb a c = true.
Proof.
  unfold String.leb. revert b c.
  induction a as [|x a IH]; intros [|y b] [|z c]; simpl; try easy.
  destruct (Ascii.compare x y) eqn:Exy; try easy;
    destruct (Ascii.compare y z) eqn:Eyz; try easy.
  - apply Ascii.compare_eq_iff in Exy, Eyz. subst.
    rewrite ascii_compare_refl. apply IH.
  - apply Ascii.compare_eq_iff in Exy. subst. now rewrite Eyz.
  - apply Ascii.compare_eq_iff in Eyz. subst. now rewrite Exy.
  - now rewrite (ascii_compare_lt_trans _ _ _ Exy Eyz).
Qed.

Lemma string_leb_false a b : String.leb a b = false -> String.leb b a = true.
Proof.
  intros H. destruct (String.leb_total a b) as [E|E]; congruence.
Qed.

Lemma insertSorted_comm a b l :
  insertSorted a (insertSorted b l) = insertSorted b (insertSorted a l).
Proof.
  induction l as [|x l IH]; simpl.
  - destruct (String.leb b a) eqn:Eba, (String.leb a b) eqn:Eab;
      try reflexivity.
    + now rewrite (String.leb_antisym _ _ Eba Eab).
    + apply string_leb_false in Eba. congruence.
  - destruct (String.leb x b) eqn:Exb, (String.leb x a) eqn:Exa; simpl;
      rewrite ?Exb, ?Exa.
    + now rewrite IH.
    + apply string_leb_false in Exa.
      now rewrite (string_leb_trans _ _ _ Exa Exb).
    + apply string_leb_false in Exb.
      now rewrite (string_leb_trans _ _ _ Exb Exa).
    + destruct (String.leb b a) eqn:Eba, (String.leb a b) eqn:Eab;
        simpl; rewrite ?Exa, ?Exb; try reflexivity.
      * now rewrite (String.leb_antisym _ _ Eba Eab).
      * apply string_leb_false in Eba. congruence.
Qed.

(** Sorting forgets the order in which the names were listed. *)
Lemma sortStrings_permutation l l' :
  Permutation l l' -> sortStrings l = sortStrings l'.
Proof.
  unfold sortStrings. intros Hp.
  enough (forall acc,
            fold_left (fun acc s => insertSorted s acc) l acc =
            fold_left (fun acc s => insertSorted s acc) l' acc) by auto.
  induction Hp as [|x l l' Hp IH|x y l|l l' l'' Hp1 IH1 Hp2 IH2];
    intros acc; simpl.
  - reflexivity.
  - apply IH.
  - now rewrite insertSorted_comm.
  - now rewrite IH1.
Qed.

(** ** Deep equality is an equivalence on well-formed documents *)

Lemma isEqual_trans a : forall b c,
  isEqual a b = true -> isEqual b c = true -> isEqual a c = true.
Proof.
  induction a as [ | x | x | x | xs IH | fs IH ] using Json_ind;
    intros b c Hab Hbc.
  - destruct b; try discriminate. assumption.
  - destruct b; try discriminate. destruct c; try discriminate.
    simpl in *. apply Bool.eqb_prop in Hab. now subst.
  - destruct b; try discriminate. destruct c; try discriminate.
    simpl in *. apply Z.eqb_eq in Hab. now subst.
  - destruct b; try discriminate. destruct c; try discriminate.
    simpl in *. apply String.eqb_eq in Hab. now subst.
  - destruct b as [ | | | | ys | ]; try discriminate.
    destruct c as [ | | | | zs | ]; try discriminate.
    apply isEqual_arr in Hab, Hbc. apply isEqual_arr.
    revert zs Hbc. induction Hab as [|x y xs ys Hxy Hab IHab];
      intros zs Hbc; inversion Hbc; subst; constructor.
    + inversion IH; subst. eauto.
    + inversion IH; subst. auto.
  - destruct b as [ | | | | | gs ]; try discriminate.
    destruct c as [ | | | | | hs ]; try discriminate.
    apply isEqual_obj in Hab, Hbc. apply isEqual_obj.
    destruct Hab as [Hl1 H1]. destruct Hbc as [Hl2 H2].
    split; [congruence|]. intros k v Hin.
    destruct (H1 k v Hin) as [w [Hw Hvw]].
    destruct (H2 k w (@map_get_In _ k w gs Hw)) as [u [Hu Hwu]].
    exists u. split; [assumption|].
    rewrite Forall_forall in IH. apply (IH (k, v) Hin w u); assumption.
Qed.

Lemma isEqual_obj_keys fs gs :
  NoDup (map fst fs) -> isEqual (JObj fs) (JObj gs) = true ->
  forall k, In k (map fst gs) -> In k (map fst fs).
Proof.
  intros Hnd He. apply isEqual_obj in He. destruct He as [Hlen H].
  apply NoDup_length_incl; [assumption|rewrite !length_map; lia|].
  intros k Hk. apply in_map_iff in Hk. destruct Hk as [[k' v] [<- Hin]].
  destruct (H k' v Hin) as [w [Hw _]]. simpl.
  eapply map_get_Some_key; eauto.
Qed.

Lemma isEqual_sym a : forall b,
  wfJson a -> wfJson b -> isEqual a b = true -> isEqual b a = true.
Proof.
  induction a as [ | x | x | x | xs IH | fs IH ] using Json_ind;
    intros b Hwa Hwb Hab.
  - destruct b; try discriminate. reflexivity.
  - destruct b; try discriminate. simpl in *.
    apply Bool.eqb_prop in Hab. subst. apply Bool.eqb_reflx.
  - destruct b; try discriminate. simpl in *.
    apply Z.eqb_eq in Hab. subst. apply Z.eqb_refl.
  - destruct b; try discriminate. simpl in *.
    apply String.eqb_eq in Hab. subst. apply String.eqb_refl.
  - destruct b as [ | | | | ys | ]; try discriminate.
    apply isEqual_arr in Hab. apply isEqual_arr.
    apply wfJson_arr in Hwa, Hwb.
    induction Hab as [|x y xs ys Hxy Hab IHab]; constructor.
    + inversion IH; inversion Hwa; inversion Hwb; subst. auto.
    + inversion IH; inversion Hwa; inversion Hwb; subst. auto.
  - destruct b as [ | | | | | gs ]; try discriminate.
    pose proof Hab as Hab'.
    apply isEqual_obj in Hab. destruct Hab as [Hlen H].
    apply isEqual_obj. split; [congruence|].
    apply wfJson_obj in Hwa, Hwb.
    destruct Hwa as [Hnda Hva]. destruct Hwb as [Hndb Hvb].
    intros k w Hin.
    assert (In k (map fst fs)) as Hk.
    { eapply isEqual_obj_keys; eauto. now apply (in_map fst) in Hin. }
    apply map_get_key_Some in Hk. destruct Hk as [v Hv].
    exists v. split; [assumption|].
    pose proof (@map_get_In _ k v fs Hv) as Hinv.
    destruct (H k v Hinv) as [w' [Hw' Hvw]].
    assert (w' = w) as ->.
    { pose proof (@In_map_get _ k w gs Hndb Hin) as Hg. congruence. }
    rewrite Forall_forall in IH, Hva, Hvb.
    apply (IH (k, v) Hinv w); [apply (Hva (k, v) Hinv)| |assumption].
    apply (Hvb (k, w) Hin).
Qed.

(** ** Records equal up to field order *)


Lemma sameRecord_sym a b : sameRecord a b -> sameRecord b a.
Proof.
  intros [Ha [Hb He]]. repeat split; try assumption. now apply isEqual_sym.
Qed.

Lemma sameRecord_trans a b c :
  sameRecord a b -> sameRecord b c -> sameRecord a c.
Proof.
  intros [Ha [Hb He]] [_ [Hc He']]. repeat split; try assumption.
  eapply isEqual_trans; eauto.
Qed.


Lemma sameValue_sym v v' : sameValue v v' -> sameValue v' v.
Proof. destruct v, v'; simpl; auto using sameRecord_sym. Qed.

Lemma sameRecord_string s b : sameRecord (JStr s) b -> b = JStr s.
Proof.
  intros [_ [_ H]]. destruct b; try discriminate. simpl in H.
  apply String.eqb_eq in H. now subst.
Qed.













(** ** Lookups built from records equal up to field order *)






(** ** The gate on records equal up to field order *)









(** ** Field changes between records equal up to field order *)






(** ** The loops on records equal up to field order *)










(** ** Entry ids and the deduplication on records equal up to field order *)







Lemma keyedEntry_label item sig kf :
  map_get "objectSignature" (keyedEntry item sig kf) = Some (JStr sig).
Proof.
  unfold keyedEntry, spreadWith. simpl.
  rewrite map_get_set_other by discriminate. apply map_get_set_same.
Qed.




(** ** The partition when no record is superseded *)

Lemma unkeyedEntry_label item sig :
  map_get "objectSignature" (unkeyedEntry item sig) = Some (JStr sig).
Proof. unfold unkeyedEntry, spreadWith. simpl. apply map_get_set_same. Qed.

Lemma keyedEntry_field item sig kf0 kf :
  kf <> "objectSignature" -> kf <> "keyFieldUsed" ->
  map_get kf (keyedEntry item sig kf0) = map_get kf (ownEntries item).
Proof.
  intros H1 H2. unfold keyedEntry, spreadWith. simpl.
  now rewrite !map_get_set_other.
Qed.

Lemma valid_key_own item kf v :
  validKeyValue item kf = Some v ->
  map_get kf (ownEntries item) = Some (JStr v).
Proof.
  intros Hv. apply validKeyValue_Some in Hv. destruct Hv as [Hv _].
  rewrite <- Hv. symmetry. apply getProp_own.
  destruct item as [ | | | | xs | ]; auto.
  right. intros ->. simpl in Hv. discriminate.
Qed.

Lemma stored_entity kc data v e :
  noReservedKeyField kc ->
  map_get v (keyLookup kc data) = Some e ->
  entityOfEntry kc
    (keyedEntry (Entry.item e) (Entry.signature e) (Entry.keyField e)) =
  Some (KeyedEntity (Entry.signature e) v).
Proof.
  intros Hres Hg. unfold keyLookup in Hg. apply storeItem_entries in Hg.
  destruct Hg as [Hg|[item [_ [_ [Hi [Hs [Hk Hv]]]]]]]; [discriminate|].
  unfold entityOfEntry. rewrite keyedEntry_label, Hs, Hk.
  destruct (Hres _ _ Hk) as [R1 R2].
  rewrite keyedEntry_field by assumption.
  rewrite Hi. now rewrite (valid_key_own _ _ Hv).
Qed.

(** Where no record is superseded, the lookup holds the record being
    visited. *)
Lemma lookup_current kc data item kf v e :
  noSuperseded kc data ->
  In item data -> isObject item = true ->
  keyFieldOf kc (getObjectSignature item) = Some kf ->
  getProp item kf = Some (JStr v) ->
  map_get v (keyLookup kc data) = Some e ->
  Entry.signature e = getObjectSignature item /\ Entry.keyField e = kf.
Proof.
  intros Hns Hin Hobj Hk Hp Hg.
  assert (validKeyValue item kf = Some v) as Hv.
  { apply validKeyValue_Some. split; [assumption|].
    pose proof Hg as Hg'. unfold keyLookup in Hg'.
    apply storeItem_entries in Hg'.
    destruct Hg' as [Hg'|[item' [_ [_ [_ [_ [_ Hv']]]]]]]; [discriminate|].
    apply validKeyValue_Some in Hv'. apply Hv'. }
  destruct (Hns item kf v Hin Hobj Hk Hv) as [e' [Hg' Hitem]].
  assert (e' = e) as -> by congruence.
  unfold keyLookup in Hg. apply storeItem_entries in Hg.
  destruct Hg as [Hg|[item' [_ [_ [Hi [Hs [Hk' _]]]]]]]; [discriminate|].
  assert (item' = item) as -> by congruence.
  split; congruence.
Qed.

Lemma classify_origins kc bD aD :
  noSuperseded kc bD -> noSuperseded kc aD -> noReservedKeyField kc ->
  let st := pushedLists kc bD aD in
  Forall (newEntryOrigin kc bD aD) (pushedNew st) /\
  Forall (deletedEntryOrigin kc bD aD) (pushedDeleted st).
Proof.
  intros HnB HnA Hres. cbv zeta. unfold pushedLists.
  apply classify_ind
    with (P := fun st =>
                 Forall (newEntryOrigin kc bD aD) (pushedNew st) /\
                 Forall (deletedEntryOrigin kc bD aD) (pushedDeleted st)).
  - split; constructor.
  - intros item st st' Hin [HN HD] Hout.
    assert (forall (Q : JsonEntry -> Prop) l e,
               Forall Q l -> Q e -> Forall Q (l ++ [e])%list) as Hpush.
    { intros Q l e Hl He. apply Forall_app. split; [assumption|].
      constructor; [assumption|constructor]. }
    destruct Hout as [ |Hobj Hk|kf v ea Hobj Hk Hp Ha Hb
                      |kf v ea eb Hobj Hk Hp Ha Hb Hs
                      |kf v ea eb Hobj Hk Hp Ha Hb Hs He Hc]; simpl.
    + auto.
    + split; [|assumption]. apply Hpush; [assumption|].
      left. exists item. repeat split; try assumption.
      unfold entityOfEntry. now rewrite unkeyedEntry_label, Hk.
    + split; [|assumption]. apply Hpush; [assumption|].
      right. exists v, ea. split; [assumption|]. split; [|now left].
      destruct (@lookup_current kc aD item kf v ea HnA Hin Hobj Hk Hp Ha)
        as [<- <-].
      now apply stored_entity with (data := aD).
    + split; apply Hpush; try assumption.
      * right. exists v, ea. split; [assumption|].
        split; [now apply stored_entity with (data := aD)|].
        right. eauto.
      * right. exists v, eb. split; [assumption|].
        split; [now apply stored_entity with (data := bD)|].
        right. eauto.
    + auto.
  - intros item st st' Hin [HN HD] Hout.
    destruct Hout as [ |Hobj Hk Hno|kf v eb Hobj Hk Hp Hb Ha]; simpl.
    + auto.
    + split; [assumption|]. apply Forall_app. split; [assumption|].
      constructor; [|constructor].
      left. exists item. repeat split; try assumption.
      unfold entityOfEntry. now rewrite unkeyedEntry_label, Hk.
    + split; [assumption|]. apply Forall_app. split; [assumption|].
      constructor; [|constructor].
      right. exists v, eb. split; [assumption|]. split; [|now left].
      destruct (@lookup_current kc bD item kf v eb HnB Hin Hobj Hk Hp Hb)
        as [<- <-].
      now apply stored_entity with (data := bD).
Qed.

(** Where no record is superseded under its key value and no key field
    bears the name of a label, no entity is listed twice: the entity of
    an entry of [newEntries] or of [deletedEntries] is never that of a
    modified entry, and the two lists share no entity. *)
Theorem partition_without_superseded_records :
  forall (localeCompare : string -> string -> comparison)
         (bD aD : list Json) (kc : SelectedKeyConfig) (res : ComparisonResult),
    diff localeCompare (JArr bD) (JArr aD) kc = inr res ->
    noSuperseded kc bD -> noSuperseded kc aD -> noReservedKeyField kc ->
    (forall e m, In e (newEntries res) -> In m (modifiedEntries res) ->
                 entityOfEntry kc e <> Some (entityOfModified m)) /\
    (forall e m, In e (deletedEntries res) -> In m (modifiedEntries res) ->
                 entityOfEntry kc e <> Some (entityOfModified m)) /\
    (forall e e', In e (newEntries res) -> In e' (deletedEntries res) ->
                  entityOfEntry kc e <> None /\
                  entityOfEntry kc e <> entityOfEntry kc e').
Proof.
  intros lc bD aD kc res Hd HnB HnA Hres. unfold diff in Hd.
  apply compareJsons_pushed in Hd. cbv zeta in Hd.
  destruct Hd as [HN [HM HD]].
  destruct (@classify_origins kc bD aD HnB HnA Hres) as [ON OD].
  rewrite Forall_forall in ON, OD.
  assert (forall e, In e (newEntries res) -> newEntryOrigin kc bD aD e) as PN.
  { intros e He. rewrite HN in He. apply dedupEntries_incl in He. auto. }
  assert (forall e, In e (deletedEntries res) ->
                    deletedEntryOrigin kc bD aD e) as PD.
  { intros e He. rewrite HD in He. apply dedupEntries_incl in He. auto. }
  assert (forall m, In m (modifiedEntries res) ->
                    matchedPair (keyLookup kc bD) (keyLookup kc aD) m) as PM.
  { intros m Hm. rewrite HM in Hm.
    now apply classify_modified_matched in Hm. }
  split; [|split].
  - intros e m He Hm E.
    destruct (PM m Hm) as [eb [ea [Hb [Ha [_ [_ [Hs _]]]]]]].
    destruct (PN e He) as [[item [_ [_ [_ Ee]]]]|[v [ea' [Ha' [Ee Hcase]]]]];
      rewrite Ee in E; [discriminate|].
    injection E as _ Ev. rewrite <- Ev in Hb, Ha.
    destruct Hcase as [Hnone|[eb' [Hb' Hne]]]; congruence.
  - intros e m He Hm E.
    destruct (PM m Hm) as [eb [ea [Hb [Ha [_ [_ [Hs _]]]]]]].
    destruct (PD e He) as [[item [_ [_ Ee]]]|[v [eb' [Hb' [Ee Hcase]]]]];
      rewrite Ee in E; [discriminate|].
    injection E as _ Ev. rewrite <- Ev in Hb, Ha.
    destruct Hcase as [Hnone|[ea' [Ha' Hne]]]; congruence.
  - intros e e' He He'.
    destruct (PN e He) as [[item [Hin [Hobj [Hk Ee]]]]|[v [ea [Ha [Ee Hcase]]]]];
      destruct (PD e' He')
        as [[item' [Hk' [Hno Ee']]]|[v' [eb' [Hb' [Ee' Hcase']]]]];
      rewrite Ee, Ee'; (split; [discriminate|]); try discriminate.
    + intros E. injection E as Es _. apply (Hno item Hin Hobj). congruence.
    + intros E. injection E as Es Ev. subst v'.
      destruct Hcase' as [Hnone|[ea' [Ha' Hne]]]; congruence.
Qed.

(** ** The first variant of the page *)

Lemma legacy_parseJson_items parsed kf items :
  Legacy.parseJson parsed kf = Some items -> parsed = JArr items.
Proof.
  unfold Legacy.parseJson. destruct (String.eqb (trim kf) ""); [discriminate|].
  destruct parsed as [ | | | | xs | ]; try discriminate.
  destruct (forallb _ xs); [|discriminate]. now intros [= ->].
Qed.

Lemma legacy_indexByKey_NoDup kf data :
  NoDup (map_keys (Legacy.indexByKey kf data)).
Proof.
  unfold Legacy.indexByKey.
  assert (NoDup (map_keys (@nil (string * Json)))) as H0 by constructor.
  revert H0. generalize (@nil (string * Json)).
  induction data as [|x data IH]; intros m Hm; simpl; [assumption|].
  apply IH. destruct (getProp x kf) as [[ | | | s | | ]|]; try assumption.
  now apply map_keys_set_NoDup.
Qed.

Lemma legacy_indexByKey_entries kf data k item :
  In (k, item) (Legacy.indexByKey kf data) ->
  In item data /\ getProp item kf = Some (JStr k).
Proof.
  intros Hin.
  apply In_map_get in Hin; [|apply legacy_indexByKey_NoDup].
  revert Hin. unfold Legacy.indexByKey.
  enough (forall m,
            map_get k
              (fold_left
                 (fun m item =>
                    match getProp item kf with
                    | Some (JStr keyValue) => map_set keyValue item m
                    | _ => m
                    end) data m) = Some item ->
            (In item data /\ getProp item kf = Some (JStr k)) \/
            map_get k m = Some item) as H.
  { intros Hg. apply H in Hg. destruct Hg as [?|Hg]; [assumption|discriminate]. }
  induction data as [|x data IH]; intros m Hg; simpl in *; [now right|].
  apply IH in Hg. destruct Hg as [[Hin Hp]|Hg]; [left; auto|].
  destruct (getProp x kf) as [[ | | | s | | ]|] eqn:E; try (now right).
  rewrite map_get_set in Hg.
  destruct (String.eqb_spec k s) as [->|Hne]; [|now right].
  injection Hg as <-. left. auto.
Qed.

Lemma legacy_afterStep_modified kf bm l st m :
  In m (snd (fold_left (Legacy.afterStep kf bm) l st)) ->
  In m (snd st) \/
  (In (Legacy.keyFieldValue m, Legacy.after m) l /\
   map_get (Legacy.keyFieldValue m) bm = Some (Legacy.before m) /\
   Legacy.changes m =
     calculateFieldChanges (Legacy.before m) (Legacy.after m)).
Proof.
  revert st. induction l as [|[k y] l IH]; intros st Hm; simpl in Hm;
    [now left|].
  apply IH in Hm. destruct Hm as [Hm|[Hin H]]; [|right; split; [now right|auto]].
  unfold Legacy.afterStep in Hm.
  destruct (map_get k bm) as [x|] eqn:Hb; [|now left].
  destruct (negb (isEqual x y)); [|now left].
  rewrite calculateFieldChangesLegacy_eq, dropSpuriousKeyChange_id in Hm.
  destruct (hasChanges _); [|now left].
  simpl in Hm. apply in_app_or in Hm. destruct Hm as [Hm|[<-|[]]]; [now left|].
  right. simpl. split; [now left|auto].
Qed.

(** Every modified entry of the first variant pairs the records that
    the two maps hold for its key value and carries their change set. *)
Lemma legacy_modified_matched kf beforeParsed afterParsed res m :
  Legacy.compareJsons kf beforeParsed afterParsed = Some res ->
  In m (Legacy.modifiedEntries res) ->
  exists beforeData afterData,
    beforeParsed = JArr beforeData /\ afterParsed = JArr afterData /\
    In (Legacy.before m) beforeData /\ In (Legacy.after m) afterData /\
    getProp (Legacy.before m) kf = Some (JStr (Legacy.keyFieldValue m)) /\
    getProp (Legacy.after m) kf = Some (JStr (Legacy.keyFieldValue m)) /\
    Legacy.changes m =
      calculateFieldChanges (Legacy.before m) (Legacy.after m).
Proof.
  unfold Legacy.compareJsons.
  destruct (String.eqb (trim kf) ""); [discriminate|].
  destruct (Legacy.parseJson beforeParsed kf) as [bD|] eqn:PB; [|discriminate].
  destruct (Legacy.parseJson afterParsed kf) as [aD|] eqn:PA; [|discriminate].
  apply legacy_parseJson_items in PB, PA. intros [= <-]. simpl.
  intros Hin. exists bD, aD. split; [assumption|]. split; [assumption|].
  apply legacy_afterStep_modified in Hin.
  destruct Hin as [[]|[Ha [Hb Hch]]].
  apply legacy_indexByKey_entries in Ha. apply map_get_In in Hb.
  apply legacy_indexByKey_entries in Hb.
  destruct Ha as [Ha1 Ha2]. destruct Hb as [Hb1 Hb2]. auto 10.
Qed.

(** In the first variant too, [changed] has no entry for the key
    field. *)
Lemma legacy_changed_excludes_key_field kf beforeParsed afterParsed res m :
  Legacy.compareJsons kf beforeParsed afterParsed = Some res ->
  In m (Legacy.modifiedEntries res) ->
  map_get kf (changed (Legacy.changes m)) = None.
Proof.
  intros Hc Hin.
  destruct (@legacy_modified_matched _ _ _ _ _ Hc Hin)
    as [bD [aD [_ [_ [_ [_ [Hb [Ha Hch]]]]]]]].
  destruct (map_get kf (changed (Legacy.changes m))) as [c|] eqn:E;
    [|reflexivity].
  rewrite Hch in E. apply changed_differs in E. rewrite Hb, Ha in E.
  simpl in E. rewrite String.eqb_refl in E. discriminate.
Qed.

(** In the first variant, the change set of a modified entry that pairs
    two plain objects that agree on the field [__proto__] reconstructs
    the after record. *)
Lemma legacy_field_changes_reconstruct_after kf beforeData afterData res m k :
  Forall wfJson beforeData -> Forall wfJson afterData ->
  Legacy.compareJsons kf (JArr beforeData) (JArr afterData) = Some res ->
  In m (Legacy.modifiedEntries res) ->
  isArray (Legacy.before m) = false -> isArray (Legacy.after m) = false ->
  isEqualValue (map_get "__proto__" (ownEntries (Legacy.before m)))
               (map_get "__proto__" (ownEntries (Legacy.after m))) = true ->
  isEqualValue
    (map_get k
       (applyChanges (Legacy.changes m) (ownEntries (Legacy.before m))))
    (map_get k (ownEntries (Legacy.after m))) = true.
Proof.
  intros HwB HwA Hc Hin Hb Ha Hproto.
  destruct (@legacy_modified_matched _ _ _ _ _ Hc Hin)
    as [bD [aD [[= <-] [[= <-] [Hinb [Hina [_ [_ Hch]]]]]]]].
  rewrite Forall_forall in HwB, HwA. rewrite Hch.
  apply applyChanges_calculateFieldChanges; auto.
Qed.

(** An array paired with a plain object that has a field [length] is
    outside the previous lemma: the array owns [length] without listing
    it, nothing is recorded for the field, and the reconstruction misses
    it.  The signatures of [compareJsons] exclude such a pair. *)
Example legacy_array_length :
  exists res m,
    Legacy.compareJsons "0" Legacy.arrayBefore Legacy.arrayAfter = Some res /\
    Legacy.modifiedEntries res = [m] /\
    map_get "length"
      (applyChanges (Legacy.changes m) (ownEntries (Legacy.before m))) = None /\
    map_get "length" (ownEntries (Legacy.after m)) = Some (JNum 1).
Proof.
  eexists. eexists. split; [reflexivity|]. repeat split.
Qed.

(** ** The scenarios of the specification *)

(** Scenario A: identical documents. *)
Example scenario_identical :
  diff String.compare (JArr Examples.aliceData) (JArr Examples.aliceData)
    Examples.nameKeys = inr Examples.noResult.
Proof. reflexivity. Qed.

(** Scenario B: one renamed record. *)
Example scenario_modified :
  diff String.compare (JArr Examples.aliceData) (JArr Examples.aliciaData)
    Examples.nameKeys = inr Examples.aliciaResult.
Proof. reflexivity. Qed.

(** Scenario C: a record on the 'after' side only. *)
Example scenario_new :
  diff String.compare (JArr [])
    (JArr [JObj [("id", JStr "2"); ("name", JStr "Bob")]])
    Examples.nameKeys =
  inr {| newEntries :=
           [[("id", JStr "2"); ("name", JStr "Bob");
             ("objectSignature", JStr "id,name"); ("keyFieldUsed", JStr "id")]];
         modifiedEntries := []; deletedEntries := []; errors := [] |}.
Proof. reflexivity. Qed.

(** Scenario D: a record on the 'before' side only. *)
Example scenario_deleted :
  diff String.compare
    (JArr [JObj [("id", JStr "3"); ("name", JStr "Cara")]]) (JArr [])
    Examples.nameKeys =
  inr {| newEntries := []; modifiedEntries := [];
         deletedEntries :=
           [[("id", JStr "3"); ("name", JStr "Cara");
             ("objectSignature", JStr "id,name"); ("keyFieldUsed", JStr "id")]];
         errors := [] |}.
Proof. reflexivity. Qed.

(** Scenario F: the shape changes and no key field is configured. *)
Example scenario_reshaped_unkeyed :
  diff String.compare
    (JArr [JObj [("id", JStr "5"); ("x", JNum 1)]])
    (JArr [JObj [("id", JStr "5"); ("x", JNum 1); ("y", JNum 2)]]) [] =
  inr {| newEntries :=
           [[("id", JStr "5"); ("x", JNum 1); ("y", JNum 2);
             ("objectSignature", JStr "id,x,y")]];
         modifiedEntries := [];
         deletedEntries :=
           [[("id", JStr "5"); ("x", JNum 1);
             ("objectSignature", JStr "id,x")]];
         errors := [] |}.
Proof. reflexivity. Qed.

(** A key mapping without entry for a shared signature stops the
    comparison. *)
Example scenario_missing_key :
  diff String.compare (JArr Examples.aliceData) (JArr Examples.aliciaData) [] =
  inl (MissingKeySelection "id,name").
Proof. reflexivity. Qed.

(** ** The properties on example documents *)

Ltac solve_wf :=
  repeat first
    [ progress simpl
    | match goal with
      | |- Forall _ _ => constructor
      | |- NoDup _ => constructor
      | |- _ /\ _ => split
      | |- True => exact I
      | |- ~ _ => intros H; simpl in H; intuition discriminate
      end ].


Lemma field_changes_reconstruct_after_witness :
  isEqual
    (JObj (applyChanges (changes Examples.aliciaEntry)
             (ownEntries (before Examples.aliciaEntry))))
    (JObj (ownEntries (after Examples.aliciaEntry))) = true.
Proof.
  apply (@field_changes_reconstruct_after String.compare Examples.aliceData
           Examples.aliciaData Examples.nameKeys Examples.aliciaResult
           Examples.aliciaEntry).
  - solve_wf.
  - solve_wf.
  - reflexivity.
  - simpl. left. reflexivity.
  - reflexivity.
Defined.

Lemma modified_changed_excludes_key_field_witness :
  exists keyField,
    keyFieldOf Examples.nameKeys
      (getObjectSignature (before Examples.aliciaEntry)) = Some keyField /\
    keyFieldOf Examples.nameKeys
      (getObjectSignature (after Examples.aliciaEntry)) = Some keyField /\
    getProp (before Examples.aliciaEntry) keyField =
      Some (JStr (keyFieldValue Examples.aliciaEntry)) /\
    getProp (after Examples.aliciaEntry) keyField =
      Some (JStr (keyFieldValue Examples.aliciaEntry)) /\
    map_get keyField (changed (changes Examples.aliciaEntry)) = None.
Proof.
  apply (@modified_changed_excludes_key_field String.compare
           Examples.aliceData Examples.aliciaData Examples.nameKeys
           Examples.aliciaResult Examples.aliciaEntry).
  - reflexivity.
  - simpl. left. reflexivity.
Defined.


Lemma signature_change_is_replacement_witness :
  In (keyedEntry (Entry.item Examples.reshapedOld) "id,x" "id")
    (deletedEntries Examples.reshapedResult) /\
  In (keyedEntry (Entry.item Examples.reshapedNew) "id,x,y" "id")
    (newEntries Examples.reshapedResult) /\
  (forall m, In m (modifiedEntries Examples.reshapedResult) ->
             keyFieldValue m <> "5").
Proof.
  destruct (@signature_change_is_replacement String.compare
              Examples.reshapedBefore Examples.reshapedAfter
              Examples.reshapedKeys Examples.reshapedResult "5"
              Examples.reshapedOld Examples.reshapedNew)
    as [Hm [_ [_ [_ [_ [Hd Hn]]]]]].
  - reflexivity.
  - reflexivity.
  - reflexivity.
  - simpl. discriminate.
  - split; [|split].
    + apply Hd. intros e [<-|[]] _. reflexivity.
    + apply Hn. intros e [<-|[]] _. reflexivity.
    + exact Hm.
Defined.


(** The claim of C4 fails for a record that a later record of another
    shape supersedes under its key value: its signature differs from that
    of the before-side record under the same key value, yet nothing is
    listed as new or deleted and the key value has a modified entry. *)
Lemma superseded_record_is_not_replaced :
  In Examples.supersededRecord Examples.supersededAfter /\
  keyFieldOf Examples.supersededKeys
    (getObjectSignature Examples.supersededRecord) = Some "id" /\
  validKeyValue Examples.supersededRecord "id" = Some "a" /\
  (exists eb,
      map_get "a" (keyLookup Examples.supersededKeys Examples.supersededBefore)
      = Some eb /\
      Entry.signature eb <> getObjectSignature Examples.supersededRecord) /\
  exists res,
    diff String.compare (JArr Examples.supersededBefore)
      (JArr Examples.supersededAfter) Examples.supersededKeys = inr res /\
    newEntries res = [] /\ deletedEntries res = [] /\
    exists m, In m (modifiedEntries res) /\ keyFieldValue m = "a".
Proof.
  split; [now left|]. split; [reflexivity|]. split; [reflexivity|]. split.
  - eexists. split; [reflexivity|]. simpl. discriminate.
  - eexists. split; [reflexivity|]. split; [reflexivity|].
    split; [reflexivity|]. eexists. split; [now left|reflexivity].
Qed.


(** C1.  On documents where two shapes share a key value on one
    side, the entity of signature [id,x] and key value [q] is listed
    twice: [newEntries] holds an entry whose entry id is [id,x::q], and
    [modifiedEntries] holds the entry of that signature and key value. *)
Theorem entity_listed_as_new_and_modified :
  exists res m,
    diff String.compare (JArr Examples.mislabelBefore)
      (JArr Examples.mislabelAfter) Examples.mislabelKeys = inr res /\
    In Examples.mislabelledEntry (newEntries res) /\
    makeEntryId Examples.mislabelKeys Examples.mislabelledEntry = "id,x::q" /\
    In m (modifiedEntries res) /\
    objectSignature m = "id,x" /\ keyFieldValue m = "q".
Proof.
  eexists. eexists. split; [reflexivity|]. split; [now left|].
  split; [reflexivity|]. split; [now left|]. split; reflexivity.
Qed.



(* ================================================================== *)
(** ** Key fields read from [Object.prototype] *)

Lemma listed_chars item k c :
  In k (objectKeys item) -> In c (chars k) ->
  In c (chars (getObjectSignature item)).
Proof.
  intros Hk Hc. unfold getObjectSignature. apply chars_join_In. left.
  exists k. split; [|assumption]. now apply sortStrings_In.
Qed.

Lemma inheritedName_cases sig :
  inheritedName sig = true -> In sig objectPrototypeNames.
Proof.
  unfold inheritedName. intros H. apply existsb_exists in H.
  destruct H as [x [Hx E]]. apply String.eqb_eq in E. now subst.
Qed.

(** A record of a signature that is the name of a member of
    [Object.prototype] does not own the field named by the text of that
    member. *)
Lemma inherited_key_field_not_owned item :
  inheritedName (getObjectSignature item) = true ->
  getProp item (memberText (getObjectSignature item)) = None.
Proof.
  intros H. apply inheritedName_cases in H.
  destruct (getProp item (memberText (getObjectSignature item)))
    as [v|] eqn:E; [exfalso|reflexivity].
  assert (memberText (getObjectSignature item) <> "length") as Hl.
  { unfold memberText.
    destruct (String.eqb (getObjectSignature item) "__proto__");
      discriminate. }
  assert (In (memberText (getObjectSignature item)) (objectKeys item)) as Hk.
  { rewrite getProp_own in E by (right; exact Hl).
    eapply map_get_Some_key; eassumption. }
  assert (In " "%char (chars (memberText (getObjectSignature item)))) as Hc.
  { unfold memberText, chars.
    destruct (String.eqb (getObjectSignature item) "__proto__");
      simpl; tauto. }
  pose proof (listed_chars item _ _ Hk Hc) as Hs. clear E Hk Hc Hl.
  unfold objectPrototypeNames in H. simpl in H.
  repeat (destruct H as [H|H];
          [rewrite <- H in Hs; simpl in Hs; intuition discriminate|]).
  exact H.
Qed.

(** So a key field read from [Object.prototype] is valid in no record of
    its signature: such a record leaves an [InvalidKeyValue] warning, is
    never stored in a lookup, and no entry is labelled with the member. *)
Lemma inherited_key_field_never_valid kc item :
  map_get (getObjectSignature item) kc = None ->
  inheritedName (getObjectSignature item) = true ->
  keyFieldOf kc (getObjectSignature item) =
    Some (memberText (getObjectSignature item)) /\
  validKeyValue item (memberText (getObjectSignature item)) = None.
Proof.
  intros Hg Hi. split.
  - unfold keyFieldOf. now rewrite Hg, Hi.
  - unfold validKeyValue, hasOwnProperty.
    now rewrite (inherited_key_field_not_owned item Hi).
Qed.

(** The gate never names a signature that is the name of a member of
    [Object.prototype] and has no entry of its own. *)
Lemma gate_never_names_inherited_signature
  (lc : string -> string -> comparison) (bD aD : list Json)
  (kc : SelectedKeyConfig) (sig : string) :
  map_get sig kc = None -> inheritedName sig = true ->
  diff lc (JArr bD) (JArr aD) kc <> inl (MissingKeySelection sig).
Proof.
  intros Hg Hi C. unfold diff in C.
  pose proof (compareJsons_gate bD aD
                (structures (analyzeJsonStructures lc (JArr bD)))
                (structures (analyzeJsonStructures lc (JArr aD))) kc) as G.
  destruct (missingKeySelection _ _ kc _) as [s|] eqn:E.
  - rewrite G in C. injection C as ->.
    unfold missingKeySelection in E. apply find_some in E.
    destruct E as [_ E]. apply andb_true_iff in E. destruct E as [_ E].
    unfold keyFieldOf in E. rewrite Hg, Hi in E. discriminate.
  - destruct G as [res G]. congruence.
Qed.

(* ================================================================== *)
(** ** The reported key field *)

(** Where no record of 'after' is superseded under its key value, the
    key field a modified entry reports is the one its pair was matched
    on: both records hold the entry's key value there, and [changed]
    has no entry for it. *)
Lemma key_field_used_excluded_without_superseded
  (lc : string -> string -> comparison) (bD aD : list Json)
  (kc : SelectedKeyConfig) (res : ComparisonResult) (m : ModifiedEntry) :
  diff lc (JArr bD) (JArr aD) kc = inr res ->
  noSuperseded kc aD ->
  In m (modifiedEntries res) ->
  getProp (before m) (keyFieldUsed m) = Some (JStr (keyFieldValue m)) /\
  getProp (after m) (keyFieldUsed m) = Some (JStr (keyFieldValue m)) /\
  map_get (keyFieldUsed m) (changed (changes m)) = None.
Proof.
  intros H Hns Hin. unfold diff in H. apply compareJsons_result in H.
  destruct H as [_ [_ [Hm _]]]. cbv zeta in Hm. rewrite Hm in Hin.
  clear Hm. revert m Hin. apply classify_ind.
  - intros m [].
  - intros item st st' Hitem IH Hout m Hin.
    destruct Hout as [ | | | |kf v ea eb Hobj Hk Hp Ha Hb Hs He Hc];
      simpl in Hin; auto.
    apply in_app_or in Hin. destruct Hin as [Hin|[<-|[]]]; [auto|]. simpl.
    pose proof Ha as Ha'. pose proof Hb as Hb'.
    apply storeItem_entries in Ha', Hb'.
    destruct Ha' as [C|[ia [_ Ea]]]; [discriminate|].
    destruct Hb' as [C|[ib [_ Eb]]]; [discriminate|].
    destruct Ea as [_ [_ [_ [_ Hva]]]].
    destruct Eb as [_ [Eib [Esb [Hkb Hvb]]]].
    apply validKeyValue_Some in Hva. destruct Hva as [_ Htrim].
    assert (validKeyValue item kf = Some v) as Hv.
    { apply validKeyValue_Some. auto. }
    destruct (Hns item kf v Hitem Hobj Hk Hv) as [e [He1 He2]].
    unfold keyLookup in He1. rewrite Ha in He1. injection He1 as <-.
    destruct (@lookup_current kc aD item kf v ea Hns Hitem Hobj Hk Hp Ha)
      as [Hsa _].
    assert (Entry.keyField eb = kf) as Hkf.
    { rewrite <- Esb, Hs, Hsa, Hk in Hkb. congruence. }
    assert (getProp (Entry.item eb) kf = Some (JStr v)) as Hpb.
    { rewrite Eib. rewrite Hkf in Hvb.
      apply validKeyValue_Some in Hvb. tauto. }
    assert (getProp (Entry.item ea) kf = Some (JStr v)) as Hpa.
    { now rewrite He2. }
    split; [assumption|]. split; [assumption|].
    destruct (map_get kf _) as [c|] eqn:E; [|reflexivity].
    apply changed_differs in E. rewrite Hpb, Hpa in E. simpl in E.
    rewrite String.eqb_refl in E. discriminate.
  - intros item st st' _ IH Hout m Hin. destruct Hout; simpl in Hin; auto.
Qed.

(* ================================================================== *)
(** ** Three claims the code does not keep *)

(** C3.  Two records matched under the key value [1], with the key
    field the auto-select effect chooses, differ in the field
    [__proto__] and in the field [x].  The modified entry emitted
    for them records the change of [x] only: its change set has nothing
    under [__proto__], and applied to the before record it leaves the
    before value there, so the result is not the after record. *)
Theorem proto_change_is_not_reconstructed :
  resolveKeys
    (structures
       (analyzeJsonStructures String.compare (JArr Samples.protoBefore)))
    (structures
       (analyzeJsonStructures String.compare (JArr Samples.protoAfter)))
    [] = Samples.protoKeys /\
  diff String.compare (JArr Samples.protoBefore) (JArr Samples.protoAfter)
    Samples.protoKeys =
  inr {| newEntries := []; modifiedEntries := [Samples.protoEntry];
         deletedEntries := []; errors := [] |} /\
  map_get "__proto__" (changed (changes Samples.protoEntry)) = None /\
  map_get "__proto__"
    (applyChanges (changes Samples.protoEntry)
       (ownEntries (before Samples.protoEntry))) = Some (JNum 1) /\
  map_get "__proto__" (ownEntries (after Samples.protoEntry)) =
    Some (JNum 2) /\
  isEqual
    (JObj (applyChanges (changes Samples.protoEntry)
             (ownEntries (before Samples.protoEntry))))
    (JObj (ownEntries (after Samples.protoEntry))) = false.
Proof. repeat split. Qed.

(** C6.  The signature [constructor] is in both inventories and the
    key mapping is empty, as the auto-select effect leaves it, yet the
    comparison does not stop with [MissingKeySelection]: the mapping
    reads the member of [Object.prototype] under that name, and the
    comparison returns a result in which both records are warned
    about. *)
Theorem gate_passes_prototype_named_signature :
  hasSignature
    (structures
       (analyzeJsonStructures String.compare (JArr Samples.ctorBefore)))
    "constructor" = true /\
  hasSignature
    (structures
       (analyzeJsonStructures String.compare (JArr Samples.ctorAfter)))
    "constructor" = true /\
  resolveKeys
    (structures
       (analyzeJsonStructures String.compare (JArr Samples.ctorBefore)))
    (structures
       (analyzeJsonStructures String.compare (JArr Samples.ctorAfter)))
    [] = [] /\
  diff String.compare (JArr Samples.ctorBefore) (JArr Samples.ctorAfter) [] =
  inr Samples.ctorResult.
Proof. repeat split. Qed.

(** C8.  With the key fields the auto-select effect chooses, a record
    of the shape [a,k] shares its key value with a record of the shape
    [id,k] that follows it.  The modified entry emitted at the first
    record pairs the two records of the shape [id,k], reports the key
    field [k] of the first record, and lists [k] as changed. *)
Theorem key_field_used_is_listed_as_changed :
  resolveKeys
    (structures
       (analyzeJsonStructures String.compare (JArr Samples.mixedBefore)))
    (structures
       (analyzeJsonStructures String.compare (JArr Samples.mixedAfter)))
    [] = Samples.mixedKeys /\
  (exists res,
      diff String.compare (JArr Samples.mixedBefore) (JArr Samples.mixedAfter)
        Samples.mixedKeys = inr res /\
      In Samples.mixedEntry (modifiedEntries res)) /\
  keyFieldUsed Samples.mixedEntry = "k" /\
  map_get (keyFieldUsed Samples.mixedEntry)
    (changed (changes Samples.mixedEntry)) =
  Some (Change.make (JNum 1) (JNum 2)).
Proof.
  split; [reflexivity|]. split; [|split; reflexivity].
  eexists. split; [reflexivity|]. simpl. left. reflexivity.
Qed.

(* ================================================================== *)
(** ** Further properties: signatures and shape analysis *)

Lemma map_get_update (V : Type) k k' (f : V -> V) m :
  map_get k (map_update k' f m) =
  if String.eqb k k' then option_map f (map_get k m) else map_get k m.
Proof.
  induction m as [|[k0 v0] m IH]; simpl.
  - now destruct (String.eqb k k').
  - destruct (String.eqb_spec k' k0) as [->|Hne]; simpl.
    + destruct (String.eqb_spec k k0) as [->|Hne']; reflexivity.
    + rewrite IH. destruct (String.eqb_spec k k0) as [->|Hne'].
      * destruct (String.eqb_spec k0 k'); [congruence|reflexivity].
      * reflexivity.
Qed.

Lemma instancesAt_fold_keys sig sig' l m :
  instancesAt sig
    (fold_left
       (fun m k =>
          map_update sig'
            (fun d => Shape.make (set_add k (Shape.keys d)) (Shape.instances d))
            m) l m) = instancesAt sig m.
Proof.
  revert m. induction l as [|a l IH]; intros m; simpl; [reflexivity|].
  rewrite IH. unfold instancesAt. rewrite map_get_update.
  destruct (String.eqb sig sig'); [|reflexivity].
  now destruct (map_get sig m).
Qed.

Lemma groupItem_instances sig m item :
  instancesAt sig (groupItem m item) =
  (instancesAt sig m ++ recordsOf sig [item])%list.
Proof.
  unfold groupItem, recordsOf. simpl.
  destruct (isObject item) eqn:Hobj; simpl; [|now rewrite app_nil_r].
  rewrite instancesAt_fold_keys. unfold instancesAt.
  rewrite map_get_update.
  destruct (String.eqb_spec (getObjectSignature item) sig) as [<-|Hne].
  - rewrite String.eqb_refl.
    destruct (map_has (getObjectSignature item) m) eqn:Hhas; simpl.
    + unfold map_has in Hhas.
      destruct (map_get (getObjectSignature item) m); [reflexivity|discriminate].
    + rewrite map_get_set_same. simpl. unfold map_has in Hhas.
      destruct (map_get (getObjectSignature item) m); [discriminate|reflexivity].
  - destruct (String.eqb_spec sig (getObjectSignature item)) as [E|_];
      [congruence|].
    rewrite app_nil_r.
    destruct (map_has (getObjectSignature item) m); simpl; [reflexivity|].
    rewrite map_get_set_other by congruence. reflexivity.
Qed.

Lemma structureMap_instances sig items m :
  instancesAt sig (fold_left groupItem items m) =
  (instancesAt sig m ++ recordsOf sig items)%list.
Proof.
  revert m. induction items as [|a items IH]; intros m; simpl.
  - now rewrite app_nil_r.
  - rewrite IH, groupItem_instances. rewrite <- app_assoc. f_equal.
    unfold recordsOf. simpl.
    destruct (isObject a && String.eqb (getObjectSignature a) sig); reflexivity.
Qed.

Lemma structureMap_NoDup items m :
  NoDup (map_keys m) -> NoDup (map_keys (fold_left groupItem items m)).
Proof.
  revert m. induction items as [|a items IH]; intros m Hnd; simpl;
    [assumption|].
  apply IH. now apply groupItem_NoDup.
Qed.

(** A structure of the inventory is built from the records of its
    signature. *)
Lemma inventory_structure lc items s :
  forallb isObject items = true ->
  In s (structures (analyzeJsonStructures lc (JArr items))) ->
  let instances := recordsOf (signature s) items in
  instances <> [] /\
  count s = List.length instances /\
  potentialKeyFields s = sortStrings (potentialKeysOf instances).
Proof.
  intros Hobj Hin. cbv zeta. unfold analyzeJsonStructures in Hin.
  assert (existsb (fun item => negb (isObject item)) items = false) as E.
  { apply not_true_is_false. intros C. apply existsb_exists in C.
    destruct C as [x [Hx Hn]]. rewrite forallb_forall in Hobj.
    rewrite (Hobj _ Hx) in Hn. discriminate. }
  rewrite E in Hin. simpl in Hin.
  apply sortStructures_In in Hin. apply in_map_iff in Hin.
  destruct Hin as [[sig d] [<- Hin]]. simpl.
  assert (map_get sig (fold_left groupItem items []) = Some d) as Hg.
  { apply In_map_get; [|assumption]. apply structureMap_NoDup. constructor. }
  pose proof (structureMap_instances sig items []) as Hi.
  unfold instancesAt in Hi at 1. rewrite Hg in Hi. simpl in Hi.
  rewrite <- Hi. split; [|split; reflexivity].
  rewrite Hi. intros C.
  assert (In sig (map_keys (fold_left groupItem items []))) as Hk.
  { apply in_map_iff. exists (sig, d). auto. }
  apply structureMap_keys in Hk. destruct Hk as [[]|[item [Hi1 [Hi2 Hi3]]]].
  assert (In item (recordsOf sig items)) as Hr.
  { apply filter_In. split; [assumption|].
    rewrite Hi2, Hi3, String.eqb_refl. reflexivity. }
  rewrite C in Hr. destruct Hr.
Qed.

Lemma isNonEmptyStringField_valid item k :
  isNonEmptyStringField item k = true <-> validKeyValue item k <> None.
Proof.
  unfold isNonEmptyStringField, validKeyValue, hasOwnProperty.
  destruct (getProp item k) as [[ | | | s | | ]|]; simpl;
    try (split; [discriminate|congruence]).
  destruct (String.eqb (trim s) ""); simpl; split; congruence.
Qed.

Lemma valid_key_listed item k :
  validKeyValue item k <> None -> In k (objectKeys item).
Proof.
  intros H. destruct (validKeyValue item k) as [v|] eqn:E; [|congruence].
  apply validKeyValue_Some in E. destruct E as [E _].
  unfold objectKeys.
  assert (map_get k (ownEntries item) = Some (JStr v)) as Hg.
  { destruct item; simpl in E; try assumption.
    destruct (String.eqb k "length"); [discriminate|assumption]. }
  apply map_get_In in Hg. apply in_map_iff. exists (k, JStr v). auto.
Qed.

Lemma potentialKeysOf_spec instances k :
  instances <> [] ->
  (In k (potentialKeysOf instances) <->
   forall item, In item instances -> validKeyValue item k <> None).
Proof.
  intros Hne. destruct instances as [|first rest]; [congruence|].
  unfold potentialKeysOf. rewrite filter_In, forallb_forall. split.
  - intros [_ H] item Hin. apply isNonEmptyStringField_valid. auto.
  - intros H. split.
    + apply valid_key_listed. apply H. now left.
    + intros item Hin. apply isNonEmptyStringField_valid. auto.
Qed.

Lemma recordsOf_In sig items item :
  In item (recordsOf sig items) <->
  In item items /\ isObject item = true /\ getObjectSignature item = sig.
Proof.
  unfold recordsOf. rewrite filter_In, andb_true_iff, String.eqb_eq. tauto.
Qed.

(** The candidates of a structure are the fields that hold a valid key
    value in every record of its signature. *)
Lemma inventory_candidates lc items s k :
  forallb isObject items = true ->
  In s (structures (analyzeJsonStructures lc (JArr items))) ->
  (In k (potentialKeyFields s) <->
   forall item, In item items -> getObjectSignature item = signature s ->
                validKeyValue item k <> None).
Proof.
  intros Hobj Hin.
  destruct (inventory_structure lc items s Hobj Hin) as [Hne [_ Hp]].
  rewrite Hp, sortStrings_In, (potentialKeysOf_spec k Hne).
  rewrite forallb_forall in Hobj. split.
  - intros H item Hi Hs. apply H. apply recordsOf_In. auto.
  - intros H item Hi. apply recordsOf_In in Hi. destruct Hi as [? [? ?]]. auto.
Qed.

Lemma findStructure_Some l sig s :
  findStructure l sig = Some s -> In s l /\ signature s = sig.
Proof.
  unfold findStructure. intros H. apply find_some in H.
  destruct H as [H1 H2]. apply String.eqb_eq in H2. auto.
Qed.

Lemma findStructure_None l sig :
  findStructure l sig = None -> hasSignature l sig = false.
Proof.
  unfold findStructure, hasSignature. intros H.
  apply not_true_is_false. intros C. apply existsb_exists in C.
  destruct C as [x [Hx Hs]]. apply (find_none _ _ H) in Hx. congruence.
Qed.

(** X1.  [getObjectSignature] does not depend on the order in which a
    record lists its fields. *)
Theorem signature_ignores_field_order (a b : Json) :
  Permutation (objectKeys a) (objectKeys b) ->
  getObjectSignature a = getObjectSignature b.
Proof.
  intros H. unfold getObjectSignature. now rewrite (sortStrings_permutation H).
Qed.

(** X2.  On an array of objects, [analyzeJsonStructures] reports no error
    and lists every signature that occurs in the document, each once. *)
Theorem analysis_lists_each_signature_once
  (lc : string -> string -> comparison) (items : list Json) :
  forallb isObject items = true ->
  let result := analyzeJsonStructures lc (JArr items) in
  error result = None /\
  NoDup (map signature (structures result)) /\
  forall sig,
    In sig (map signature (structures result)) <->
    exists item, In item items /\ getObjectSignature item = sig.
Proof.
  intros Hobj result. split; [|split].
  - unfold result, analyzeJsonStructures.
    destruct (existsb (fun item => negb (isObject item)) items) eqn:E;
      [|reflexivity].
    apply existsb_exists in E. destruct E as [x [Hx Hn]].
    rewrite forallb_forall in Hobj. rewrite (Hobj _ Hx) in Hn. discriminate.
  - apply inventory_NoDup.
  - intros sig. rewrite <- hasSignature_true.
    unfold result. rewrite inventory_signatures. tauto.
Qed.

(** X3.  The [count] of a structure is the number of records of the
    document that have its signature, and is never zero. *)
Theorem analysis_count_is_number_of_records
  (lc : string -> string -> comparison) (items : list Json)
  (s : JsonObjectStructure) :
  forallb isObject items = true ->
  In s (structures (analyzeJsonStructures lc (JArr items))) ->
  count s =
    List.length
      (filter (fun item => String.eqb (getObjectSignature item) (signature s))
         items) /\
  (0 < count s)%nat.
Proof.
  intros Hobj Hin.
  destruct (inventory_structure lc items s Hobj Hin) as [Hne [Hc _]].
  assert (recordsOf (signature s) items =
          filter (fun item => String.eqb (getObjectSignature item) (signature s))
            items) as E.
  { unfold recordsOf. apply filter_ext_in. intros x Hx.
    rewrite forallb_forall in Hobj. now rewrite (Hobj _ Hx). }
  rewrite <- E, Hc. split; [reflexivity|].
  destruct (recordsOf (signature s) items); [congruence|simpl; lia].
Qed.

(** X4.  A field is a potential key field of a structure exactly when
    every record of that signature owns it with a string value that is
    not empty once trimmed. *)
Theorem potential_key_fields_are_the_valid_keys
  (lc : string -> string -> comparison) (items : list Json)
  (s : JsonObjectStructure) (k : string) :
  forallb isObject items = true ->
  In s (structures (analyzeJsonStructures lc (JArr items))) ->
  (In k (potentialKeyFields s) <->
   forall item, In item items -> getObjectSignature item = signature s ->
                exists v, getProp item k = Some (JStr v) /\ trim v <> "").
Proof.
  intros Hobj Hin. rewrite (inventory_candidates lc items s k Hobj Hin).
  split; intros H item Hi Hs; specialize (H item Hi Hs).
  - destruct (validKeyValue item k) as [v|] eqn:E; [|congruence].
    apply validKeyValue_Some in E. destruct E as [E1 E2].
    exists v. split; [assumption|]. now apply String.eqb_neq.
  - destruct H as [v [E1 E2]].
    assert (validKeyValue item k = Some v) as E.
    { apply validKeyValue_Some. split; [assumption|]. now apply String.eqb_neq. }
    congruence.
Qed.

(** X5.  For a signature present in both inventories, every key offered
    by the selector of the configuration table is valid in every record
    of that signature, on both sides. *)
Theorem offered_keys_are_valid_on_both_sides
  (lc : string -> string -> comparison) (beforeData afterData : list Json)
  (sig k : string) :
  forallb isObject beforeData = true ->
  forallb isObject afterData = true ->
  let inventoryB := structures (analyzeJsonStructures lc (JArr beforeData)) in
  let inventoryA := structures (analyzeJsonStructures lc (JArr afterData)) in
  hasSignature inventoryB sig = true ->
  hasSignature inventoryA sig = true ->
  In k (validKeysForSelect inventoryB inventoryA sig) ->
  forall item, In item (beforeData ++ afterData)%list ->
               getObjectSignature item = sig ->
               validKeyValue item k <> None.
Proof.
  intros HoB HoA inventoryB inventoryA HB HA Hk item Hi Hs.
  unfold validKeysForSelect in Hk.
  destruct (findStructure inventoryB sig) as [sb|] eqn:EB;
    [|apply findStructure_None in EB; congruence].
  destruct (findStructure inventoryA sig) as [sa|] eqn:EA;
    [|apply findStructure_None in EA; congruence].
  apply findStructure_Some in EB, EA.
  destruct EB as [EB1 EB2]. destruct EA as [EA1 EA2].
  apply filter_In in Hk. destruct Hk as [Hkb Hka].
  apply existsb_exists in Hka. destruct Hka as [k' [Hka E]].
  apply String.eqb_eq in E. subst k'.
  apply in_app_or in Hi. destruct Hi as [Hi|Hi].
  - apply (proj1 (inventory_candidates lc beforeData sb k HoB EB1) Hkb item Hi).
    congruence.
  - apply (proj1 (inventory_candidates lc afterData sa k HoA EA1) Hka item Hi).
    congruence.
Qed.

(* ================================================================== *)
(** ** Further properties: key selection and the compare button *)

Lemma autoSelectFlagged_fst l kc b :
  fst (fold_left autoSelectFlagged l (kc, b)) = fold_left autoSelect l kc.
Proof.
  revert kc b. induction l as [|s l IH]; intros kc b; simpl; [reflexivity|].
  unfold autoSelectFlagged at 2, autoSelect at 2. simpl.
  destruct (potentialKeyFields s) as [|c [|c' r]]; try apply IH.
  destruct (keyFieldOf kc (signature s)); apply IH.
Qed.

Lemma autoSelectFlagged_settled l kc :
  (forall s c, In s l -> potentialKeyFields s = [c] ->
               keyFieldOf kc (signature s) <> None) ->
  fold_left autoSelectFlagged l (kc, false) = (kc, false).
Proof.
  induction l as [|s l IH]; intros H; simpl; [reflexivity|].
  assert (autoSelectFlagged (kc, false) s = (kc, false)) as E.
  { unfold autoSelectFlagged. simpl.
    destruct (potentialKeyFields s) as [|c [|c' r]] eqn:Ep; try reflexivity.
    destruct (keyFieldOf kc (signature s)) eqn:Ek; [reflexivity|].
    exfalso. apply (H s c); auto. now left. }
  rewrite E. apply IH. intros s' c Hin. apply H. now right.
Qed.

Lemma mergeStructures_values bS aS s :
  In s (map_values (mergeStructures bS aS)) -> In s bS \/ In s aS.
Proof.
  unfold mergeStructures.
  assert (forall l m,
            In s (map_values
                    (fold_left (fun m s => map_set (signature s) s m) l m)) ->
            In s (map_values m) \/ In s l) as H1.
  { induction l as [|x l IH]; intros m H; simpl in *; [now left|].
    apply IH in H. destruct H as [H|H]; [|now right; right].
    apply map_values_set_In in H. destruct H as [->|H]; [right|]; auto. }
  assert (forall l m,
            In s (map_values
                    (fold_left
                       (fun m s =>
                          if negb (map_has (signature s) m) ||
                             match map_get (signature s) m with
                             | Some s0 =>
                                 Nat.eqb (List.length (potentialKeyFields s0)) 0
                             | None => false
                             end
                          then map_set (signature s) s m
                          else m) l m)) ->
            In s (map_values m) \/ In s l) as H2.
  { induction l as [|x l IH]; intros m H; simpl in *; [now left|].
    apply IH in H. destruct H as [H|H]; [|now right; right].
    destruct (_ || _) in H; [|now left].
    apply map_values_set_In in H. destruct H as [->|H]; [right|]; auto. }
  intros H. apply H2 in H. destruct H as [H|H]; [|now right].
  apply H1 in H. destruct H as [[]|H]. now left.
Qed.

Lemma keyFieldOf_Some kc sig kf :
  map_get sig kc = Some kf -> kf <> "" -> keyFieldOf kc sig = Some kf.
Proof.
  intros H Hne. unfold keyFieldOf. rewrite H.
  destruct (String.eqb_spec kf ""); congruence.
Qed.

Lemma keyFieldOf_get kc kc' sig :
  map_get sig kc = map_get sig kc' -> keyFieldOf kc sig = keyFieldOf kc' sig.
Proof. unfold keyFieldOf. now intros ->. Qed.

(** After the effect, every merged structure with a single candidate
    that is not the empty name has a key field. *)
Lemma resolveKeys_selected bS aS kc s c :
  In s (map_values (mergeStructures bS aS)) ->
  potentialKeyFields s = [c] -> c <> "" ->
  keyFieldOf (resolveKeys bS aS kc) (signature s) <> None.
Proof.
  intros Hin Hc Hne. unfold resolveKeys.
  destruct (keyFieldOf kc (signature s)) as [kf|] eqn:Ek.
  - rewrite (keyFieldOf_get _ kc (signature s)
               (fold_autoSelect_sticky _ _ _ Ek)).
    congruence.
  - assert (NoDup (map signature (map_values (mergeStructures bS aS)))) as Hnd.
    { rewrite (keyedBySignature_values (mergeStructures_keyed bS aS)).
      apply (mergeStructures_keyed bS aS). }
    rewrite (keyFieldOf_Some _ _ (fold_autoSelect_fills _ _ _ Hnd Hin Hc Ek) Hne).
    discriminate.
Qed.

Lemma fold_set_add_In (l : list JsonObjectStructure) s0 x :
  In x (fold_left (fun sigs s => set_add (signature s) sigs) l s0) <->
  In x s0 \/ In x (map signature l).
Proof.
  revert s0. induction l as [|a l IH]; intros s0; simpl; [tauto|].
  rewrite IH, set_add_In. intuition.
Qed.

Lemma fold_set_add_NoDup (l : list JsonObjectStructure) s0 :
  NoDup s0 ->
  NoDup (fold_left (fun sigs s => set_add (signature s) sigs) l s0).
Proof.
  revert s0. induction l as [|a l IH]; intros s0 H; simpl; [assumption|].
  apply IH. now apply set_add_NoDup.
Qed.

Lemma combinedSignatures_In bS aS sig :
  In sig (combinedSignatures bS aS) <->
  hasSignature bS sig = true \/ hasSignature aS sig = true.
Proof.
  unfold combinedSignatures. rewrite sortStrings_In, !fold_set_add_In.
  rewrite !hasSignature_true. simpl. tauto.
Qed.

(** The loop of [isCompareDisabled] and the loop of the validation gate
    find a signature under the same condition. *)
Lemma gate_blocks_iff lc bD aD kc :
  let iB := structures (analyzeJsonStructures lc (JArr bD)) in
  let iA := structures (analyzeJsonStructures lc (JArr aD)) in
  (exists sig, In sig (combinedSignatures iB iA) /\
               hasSignature iB sig = true /\ hasSignature iA sig = true /\
               keyFieldOf kc sig = None) <->
  (exists sig, diff lc (JArr bD) (JArr aD) kc = inl (MissingKeySelection sig)).
Proof.
  intros iB iA. unfold diff. fold iB iA.
  pose proof (compareJsons_gate bD aD iB iA kc) as G.
  split.
  - intros [sig [_ [HB [HA Hk]]]].
    destruct (missingKeySelection iB iA kc _) as [s|] eqn:E; [eauto|].
    exfalso. unfold missingKeySelection in E.
    assert (In sig (addSignatures aD (addSignatures bD []))) as Hact.
    { apply addSignatures_In. left. apply addSignatures_In. right.
      unfold iB in HB. apply inventory_signatures in HB.
      destruct HB as [Hall [item [Hi Hs]]]. exists item.
      rewrite forallb_forall in Hall. auto. }
    apply (find_none _ _ E) in Hact. rewrite HB, HA, Hk in Hact. discriminate.
  - intros [sig Hd].
    destruct (missingKeySelection iB iA kc _) as [s|] eqn:E.
    + unfold missingKeySelection in E. apply find_some in E.
      destruct E as [_ E]. apply andb_true_iff in E. destruct E as [E Hk].
      apply andb_true_iff in E. destruct E as [HB HA].
      exists s. split; [apply combinedSignatures_In; auto|].
      destruct (keyFieldOf kc s); [discriminate|auto].
    + destruct G as [res G]. congruence.
Qed.

(** X6.  Once the auto-select effect has run, running it again selects
    nothing: the flag [changedByAutoSelect] stays down, so the effect
    does not trigger itself again.  The sole candidate of a structure is
    assumed not to be the field with the empty name. *)
Theorem auto_select_effect_settles
  (bS aS : list JsonObjectStructure) (kc : SelectedKeyConfig) :
  (forall s, In s (bS ++ aS)%list -> potentialKeyFields s <> [""]) ->
  changedByAutoSelect bS aS (resolveKeys bS aS kc) = false /\
  resolveKeys bS aS (resolveKeys bS aS kc) = resolveKeys bS aS kc.
Proof.
  intros Hne.
  assert (fold_left autoSelectFlagged (map_values (mergeStructures bS aS))
            (resolveKeys bS aS kc, false) = (resolveKeys bS aS kc, false)) as E.
  { apply autoSelectFlagged_settled. intros s c Hin Hc.
    apply (resolveKeys_selected bS aS kc s Hin Hc).
    intros ->. apply (Hne s); [|assumption].
    apply in_or_app. now apply mergeStructures_values. }
  split.
  - unfold changedByAutoSelect. now rewrite E.
  - unfold resolveKeys at 1. rewrite <- (autoSelectFlagged_fst _ _ false).
    now rewrite E.
Qed.

(** X7.  A key field chosen in the selector is stored under its signature,
    leaves the other signatures as they were, and is kept by the
    auto-select effect whatever the inventories offer. *)
Theorem manual_selection_is_kept
  (bS aS : list JsonObjectStructure) (kc : SelectedKeyConfig)
  (sig kf : string) :
  kf <> "" ->
  let kc' := handleKeySelectionChange sig kf kc in
  keyFieldOf kc' sig = Some kf /\
  keyFieldOf (resolveKeys bS aS kc') sig = Some kf /\
  forall sig', sig' <> sig -> keyFieldOf kc' sig' = keyFieldOf kc sig'.
Proof.
  intros Hne kc'.
  assert (keyFieldOf kc' sig = Some kf) as Hk.
  { apply keyFieldOf_Some; [|assumption]. apply map_get_set_same. }
  split; [assumption|]. split.
  - unfold resolveKeys.
    rewrite (keyFieldOf_get _ kc' sig (fold_autoSelect_sticky _ _ _ Hk)).
    assumption.
  - intros sig' Hs. apply keyFieldOf_get. unfold kc', handleKeySelectionChange.
    apply map_get_set_other. congruence.
Qed.


(** X9.  [combinedSignatures] lists the signatures of the two
    inventories, each once. *)
Theorem combined_signatures_cover_both_inventories
  (bS aS : list JsonObjectStructure) :
  NoDup (combinedSignatures bS aS) /\
  forall sig,
    In sig (combinedSignatures bS aS) <->
    In sig (map signature bS) \/ In sig (map signature aS).
Proof.
  split.
  - unfold combinedSignatures.
    apply (Permutation_NoDup (sortStrings_perm _)).
    apply fold_set_add_NoDup, fold_set_add_NoDup. constructor.
  - intros sig. rewrite combinedSignatures_In, !hasSignature_true. tauto.
Qed.

(** X10.  The compare button is disabled exactly when a text is blank or
    the comparison of the two documents would stop at the validation
    gate with [MissingKeySelection]. *)
Theorem compare_button_matches_the_gate
  (lc : string -> string -> comparison) (beforeData afterData : list Json)
  (beforeJsonString afterJsonString : string) (kc : SelectedKeyConfig) :
  let inventoryB := structures (analyzeJsonStructures lc (JArr beforeData)) in
  let inventoryA := structures (analyzeJsonStructures lc (JArr afterData)) in
  isCompareDisabled beforeJsonString afterJsonString
    (combinedSignatures inventoryB inventoryA) inventoryB inventoryA kc = true
  <->
  trim beforeJsonString = "" \/ trim afterJsonString = "" \/
  exists sig,
    diff lc (JArr beforeData) (JArr afterData) kc =
    inl (MissingKeySelection sig).
Proof.
  intros iB iA. unfold isCompareDisabled.
  rewrite <- (gate_blocks_iff lc beforeData afterData kc). fold iB iA.
  destruct (String.eqb_spec (trim beforeJsonString) "") as [Eb|Nb];
    [simpl; tauto|].
  destruct (String.eqb_spec (trim afterJsonString) "") as [Ea|Na];
    [simpl; tauto|].
  simpl. rewrite existsb_exists. split.
  - intros [sig [Hin Hc]]. right. right. exists sig.
    apply andb_true_iff in Hc. destruct Hc as [Hc Hk].
    apply andb_true_iff in Hc. destruct Hc as [HB HA].
    destruct (keyFieldOf kc sig); [discriminate|auto].
  - intros [C|[C|[sig [Hin [HB [HA Hk]]]]]]; try congruence.
    exists sig. split; [assumption|]. now rewrite HB, HA, Hk.
Qed.

(* ================================================================== *)
(** ** Further properties: field changes *)









(** X11.  A field is recorded under one heading only: an added field is
    neither removed nor changed, and a removed field is not changed.
    What is recorded is the value of the record that owns the field, and
    for a changed field the two values, which are not deeply equal. *)
Theorem field_change_kinds_are_exclusive (obj1 obj2 : Json) (k : string) :
  let ch := calculateFieldChanges obj1 obj2 in
  (forall v, map_get k (added ch) = Some v ->
             getProp obj1 k = None /\ getProp obj2 k = Some v /\
             map_get k (removed ch) = None /\ map_get k (changed ch) = None) /\
  (forall v, map_get k (removed ch) = Some v ->
             getProp obj1 k = Some v /\ getProp obj2 k = None /\
             map_get k (added ch) = None /\ map_get k (changed ch) = None) /\
  (forall c, map_get k (changed ch) = Some c ->
             getProp obj1 k = Some (Change.before c) /\
             getProp obj2 k = Some (Change.after c) /\
             isEqual (Change.before c) (Change.after c) = false /\
             map_get k (added ch) = None /\ map_get k (removed ch) = None).
Proof.
  cbv zeta.
  rewrite calculateFieldChanges_added, calculateFieldChanges_removed,
    calculateFieldChanges_changed.
  unfold addedAt, removedAt, changedAt.
  destruct (existsb (String.eqb k) (allKeysOf obj1 obj2));
    [|repeat split; discriminate].
  destruct (String.eqb k "__proto__"); [repeat split; discriminate|].
  destruct (getProp obj1 k) as [v1|], (getProp obj2 k) as [v2|];
    try (repeat split; discriminate).
  - destruct (isEqual v1 v2) eqn:E; simpl.
    + repeat split; discriminate.
    + split; [discriminate|]. split; [discriminate|].
      intros c [= <-]. simpl. auto.
  - split; [discriminate|]. split; [|discriminate].
    intros v [= <-]. auto.
  - split; [|split; discriminate].
    intros v [= <-]. auto.
Qed.




(* ================================================================== *)
(** ** Further properties: the comparison *)

Lemma fold_left_filter (A B : Type) (f : A -> B -> A) (p : B -> bool) l a :
  (forall a x, p x = false -> f a x = a) ->
  fold_left f l a = fold_left f (filter p l) a.
Proof.
  intros H. revert a. induction l as [|x l IH]; intros a; simpl; [reflexivity|].
  destruct (p x) eqn:E; simpl; [apply IH|].
  rewrite (H a x E). apply IH.
Qed.

Lemma fold_left_pointwise (A B : Type) (f g : A -> B -> A) l a :
  (forall a x, f a x = g a x) -> fold_left f l a = fold_left g l a.
Proof.
  intros H. revert a. induction l as [|x l IH]; intros a; simpl; [reflexivity|].
  rewrite H. apply IH.
Qed.

Lemma addSignatures_objects data s :
  addSignatures data s = addSignatures (filter isObject data) s.
Proof.
  unfold addSignatures. apply fold_left_filter. intros a x E. now rewrite E.
Qed.

Lemma storeItem_objects kc data m :
  fold_left (storeItem kc) data m =
  fold_left (storeItem kc) (filter isObject data) m.
Proof.
  apply fold_left_filter. intros a x E. unfold storeItem. now rewrite E.
Qed.

Lemma existsb_objects (g : Json -> bool) l :
  existsb (fun x => if isObject x then g x else false) l =
  existsb (fun x => if isObject x then g x else false) (filter isObject l).
Proof.
  induction l as [|x l IH]; simpl; [reflexivity|].
  destruct (isObject x) eqn:E; simpl; rewrite ?E; congruence.
Qed.

Lemma classifyBeforeStep_objects kc aD bm am st item :
  classifyBeforeStep kc aD bm am st item =
  classifyBeforeStep kc (filter isObject aD) bm am st item.
Proof.
  unfold classifyBeforeStep. cbv zeta.
  now rewrite (existsb_objects
                 (fun x => String.eqb (getObjectSignature x)
                             (getObjectSignature item)) aD).
Qed.

Lemma classify_objects kc bD aD bm am :
  classify kc bD aD bm am =
  classify kc (filter isObject bD) (filter isObject aD) bm am.
Proof.
  unfold classify.
  rewrite (fold_left_filter (classifyAfterStep kc bm am) isObject aD).
  - rewrite (fold_left_filter (classifyBeforeStep kc aD bm am) isObject bD).
    + apply fold_left_pointwise. intros st x. apply classifyBeforeStep_objects.
    + intros st x E. unfold classifyBeforeStep. now rewrite E.
  - intros st x E. unfold classifyAfterStep. now rewrite E.
Qed.

Lemma populate_warns_skipping side kc data m errs item :
  In item data -> isObject item = false ->
  In (SkippingNonObject side item)
    (snd (fold_left (populateStep side kc) data (m, errs))).
Proof.
  intros Hin Hobj. revert m errs.
  induction data as [|x data IH]; intros m errs; [destruct Hin|].
  cbn [fold_left]. destruct Hin as [->|Hin].
  - assert (In (SkippingNonObject side item)
              (snd (populateStep side kc (m, errs) item))) as H.
    { unfold populateStep. rewrite Hobj. simpl.
      apply in_or_app. right. now left. }
    destruct (populateStep side kc (m, errs) item) as [m' errs'].
    now apply populate_keeps.
  - destruct (populateStep side kc (m, errs) x) as [m' errs']. now apply IH.
Qed.

Lemma populate_silent side kc data m errs :
  snd (fold_left (populateStep side kc) data (m, errs)) = [] -> errs = [].
Proof.
  intros H. destruct errs as [|w errs]; [reflexivity|].
  pose proof (@populate_keeps side kc data m (w :: errs) w (or_introl eq_refl))
    as C.
  rewrite H in C. destruct C.
Qed.

(** In a run without warnings nothing stored is overwritten. *)
Lemma populate_silent_keeps side kc data : forall m errs v e,
  snd (fold_left (populateStep side kc) data (m, errs)) = [] ->
  map_get v m = Some e ->
  map_get v (fst (fold_left (populateStep side kc) data (m, errs))) = Some e.
Proof.
  induction data as [|x data IH]; intros m errs v e Hs Hg; [assumption|].
  cbn [fold_left] in *.
  destruct (populateStep side kc (m, errs) x) as [m' errs'] eqn:E.
  apply IH; [exact Hs|].
  pose proof (populate_silent _ _ _ _ _ Hs) as He'. subst errs'.
  unfold populateStep in E.
  destruct (negb (isObject x)).
  { injection E as <- E. destruct errs; discriminate. }
  destruct (keyFieldOf kc (getObjectSignature x)) as [kf|];
    [|injection E as <- _; assumption].
  destruct (validKeyValue x kf) as [v'|].
  - injection E as <- E.
    destruct (map_has v' m) eqn:Hhas; [destruct errs; discriminate|].
    rewrite map_get_set_other; [assumption|].
    intros ->. unfold map_has in Hhas. rewrite Hg in Hhas. discriminate.
  - injection E as <- E. destruct errs; discriminate.
Qed.

Lemma populate_silent_current side kc data : forall m errs item kf v,
  snd (fold_left (populateStep side kc) data (m, errs)) = [] ->
  In item data -> isObject item = true ->
  keyFieldOf kc (getObjectSignature item) = Some kf ->
  validKeyValue item kf = Some v ->
  exists e,
    map_get v (fst (fold_left (populateStep side kc) data (m, errs))) = Some e /\
    Entry.item e = item.
Proof.
  induction data as [|x data IH]; intros m errs item kf v Hs Hin Hobj Hk Hv;
    [destruct Hin|].
  cbn [fold_left] in *.
  destruct (populateStep side kc (m, errs) x) as [m' errs'] eqn:E.
  destruct Hin as [->|Hin]; [|eapply IH; eassumption].
  exists (Entry.make item (getObjectSignature item) kf). split; [|reflexivity].
  apply populate_silent_keeps; [exact Hs|].
  unfold populateStep in E. rewrite Hobj, Hk, Hv in E. simpl in E.
  injection E as <- _. apply map_get_set_same.
Qed.

Lemma silent_noSuperseded side kc data errs :
  snd (populateMap side kc data errs) = [] -> noSuperseded kc data.
Proof.
  intros Hs item kf v Hin Hobj Hk Hv.
  unfold keyLookup. rewrite <- (populateMap_fst side kc data errs).
  unfold populateMap in *. eapply populate_silent_current; eassumption.
Qed.

Lemma storeItem_keeps_key kc data : forall m v,
  map_has v m = true -> map_has v (fold_left (storeItem kc) data m) = true.
Proof.
  induction data as [|x data IH]; intros m v H; simpl; [assumption|].
  apply IH. unfold storeItem.
  destruct (negb (isObject x)); [assumption|].
  destruct (keyFieldOf kc (getObjectSignature x)) as [kf|]; [|assumption].
  destruct (validKeyValue x kf) as [v'|]; [|assumption].
  unfold map_has in *. rewrite map_get_set.
  destruct (String.eqb v v'); [reflexivity|assumption].
Qed.

Lemma storeItem_has kc data : forall m x kf v,
  In x data -> isObject x = true ->
  keyFieldOf kc (getObjectSignature x) = Some kf ->
  validKeyValue x kf = Some v ->
  map_has v (fold_left (storeItem kc) data m) = true.
Proof.
  induction data as [|a data IH]; intros m x kf v Hin Hobj Hk Hv;
    [destruct Hin|].
  simpl. destruct Hin as [->|Hin]; [|eapply IH; eassumption].
  apply storeItem_keeps_key. unfold storeItem. rewrite Hobj, Hk, Hv. simpl.
  unfold map_has. now rewrite map_get_set_same.
Qed.

Lemma storeItem_untouched kc data : forall m v,
  (forall z kf, In z data -> isObject z = true ->
                keyFieldOf kc (getObjectSignature z) = Some kf ->
                validKeyValue z kf <> Some v) ->
  map_get v (fold_left (storeItem kc) data m) = map_get v m.
Proof.
  induction data as [|a data IH]; intros m v H; simpl; [reflexivity|].
  rewrite IH by (intros z kf Hz; apply H; now right).
  unfold storeItem. destruct (isObject a) eqn:Hobj; simpl; [|reflexivity].
  destruct (keyFieldOf kc (getObjectSignature a)) as [kf|] eqn:Hk;
    [|reflexivity].
  destruct (validKeyValue a kf) as [v'|] eqn:Hv; [|reflexivity].
  apply map_get_set_other. intros ->.
  apply (H a kf (or_introl eq_refl) Hobj Hk Hv).
Qed.

Lemma filter_all (A : Type) (p : A -> bool) l :
  forallb p l = true -> filter p l = l.
Proof.
  induction l as [|x l IH]; simpl; [reflexivity|].
  intros H. apply andb_true_iff in H. destruct H as [Hx Hl].
  rewrite Hx. now rewrite IH.
Qed.

(** A signature of the inventory of a document is a signature of the
    inventory of its objects. *)
Lemma inventory_of_objects lc data sig :
  hasSignature (structures (analyzeJsonStructures lc (JArr data))) sig = true ->
  hasSignature
    (structures (analyzeJsonStructures lc (JArr (filter isObject data))))
    sig = true.
Proof.
  intros H. pose proof H as H'. apply inventory_signatures in H'.
  destruct H' as [Hall _]. now rewrite (filter_all _ _ Hall).
Qed.

(** X14.  Elements that are not objects take no part in the
    classification: when the comparison of the two documents without
    such elements returns a result, the comparison of the documents
    themselves returns a result with the same new, modified and deleted
    entries, in which each such element has left a [SkippingNonObject]
    warning. *)
Theorem non_object_elements_are_skipped
  (lc : string -> string -> comparison) (bD aD : list Json)
  (kc : SelectedKeyConfig) (res' : ComparisonResult) :
  diff lc (JArr (filter isObject bD)) (JArr (filter isObject aD)) kc =
    inr res' ->
  exists res,
    diff lc (JArr bD) (JArr aD) kc = inr res /\
    newEntries res = newEntries res' /\
    modifiedEntries res = modifiedEntries res' /\
    deletedEntries res = deletedEntries res' /\
    (forall item, In item bD -> isObject item = false ->
                  In (SkippingNonObject Before item) (errors res)) /\
    (forall item, In item aD -> isObject item = false ->
                  In (SkippingNonObject After item) (errors res)).
Proof.
  intros H'. unfold diff in *.
  set (iB := structures (analyzeJsonStructures lc (JArr bD))).
  set (iA := structures (analyzeJsonStructures lc (JArr aD))).
  apply compareJsons_result in H'.
  destruct H' as [Hgate [Hn' [Hm' [Hd' _]]]].
  rewrite <- (addSignatures_objects bD), <- (addSignatures_objects aD)
    in Hgate.
  rewrite <- !storeItem_objects, <- classify_objects in Hn', Hm', Hd'.
  pose proof (compareJsons_gate bD aD iB iA kc) as G.
  destruct (missingKeySelection iB iA kc _) as [sig|] eqn:E.
  - exfalso. unfold missingKeySelection in E, Hgate. apply find_some in E.
    destruct E as [Hact E]. apply andb_true_iff in E. destruct E as [E Hk].
    apply andb_true_iff in E. destruct E as [HB HA].
    apply (find_none _ _ Hgate) in Hact.
    unfold iB in HB. unfold iA in HA.
    rewrite (inventory_of_objects lc bD sig HB),
      (inventory_of_objects lc aD sig HA), Hk in Hact.
    discriminate.
  - destruct G as [res G]. exists res. split; [exact G|].
    apply compareJsons_result in G.
    destruct G as [_ [Hn [Hm [Hd He]]]].
    split; [congruence|]. split; [congruence|]. split; [congruence|].
    rewrite He. unfold populateMap. split.
    + intros item Hin Hobj.
      destruct (fold_left (populateStep Before kc) bD ([], [])) as [m1 e1] eqn:E1.
      simpl. apply populate_keeps.
      change e1 with (snd (m1, e1)). rewrite <- E1.
      now apply populate_warns_skipping.
    + intros item Hin Hobj. now apply populate_warns_skipping.
Qed.

(** X15.  Against an empty 'before' document nothing is modified or
    deleted, and against an empty 'after' document nothing is new or
    modified. *)
Theorem one_side_empty
  (data : list Json) (bS aS : list JsonObjectStructure)
  (kc : SelectedKeyConfig) :
  (forall res,
      compareJsons (JArr []) (JArr data) bS aS kc = inr res ->
      modifiedEntries res = [] /\ deletedEntries res = []) /\
  (forall res,
      compareJsons (JArr data) (JArr []) bS aS kc = inr res ->
      newEntries res = [] /\ modifiedEntries res = []).
Proof.
  split; intros res H; apply compareJsons_result in H;
    destruct H as [_ [Hn [Hm [Hd _]]]]; cbv zeta in *.
  - assert (pushedModified
              (classify kc [] data (fold_left (storeItem kc) [] [])
                 (fold_left (storeItem kc) data [])) = [] /\
            pushedDeleted
              (classify kc [] data (fold_left (storeItem kc) [] [])
                 (fold_left (storeItem kc) data [])) = []) as [E1 E2].
    { apply classify_ind.
      - split; reflexivity.
      - intros item st st' _ [P1 P2] Hout.
        destruct Hout; simpl in *; auto; discriminate.
      - intros item st st' []. }
    rewrite Hm, Hd, E1, E2. split; reflexivity.
  - assert (pushedNew
              (classify kc data [] (fold_left (storeItem kc) data [])
                 (fold_left (storeItem kc) [] [])) = [] /\
            pushedModified
              (classify kc data [] (fold_left (storeItem kc) data [])
                 (fold_left (storeItem kc) [] [])) = []) as [E1 E2].
    { apply classify_ind.
      - split; reflexivity.
      - intros item st st' [].
      - intros item st st' _ [P1 P2] Hout.
        destruct Hout; simpl in *; auto. }
    rewrite Hn, Hm, E1, E2. split; reflexivity.
Qed.

(** X16.  Every entry of the result comes from the document of its side:
    a new entry is a labelled copy of a tracked record of 'after', a
    deleted entry of a tracked record of 'before', and a modified entry
    pairs a record of 'before' with a record of 'after'. *)
Theorem entries_come_from_their_side
  (bD aD : list Json) (bS aS : list JsonObjectStructure)
  (kc : SelectedKeyConfig) (res : ComparisonResult) :
  compareJsons (JArr bD) (JArr aD) bS aS kc = inr res ->
  (forall e, In e (newEntries res) ->
             exists item, In item aD /\ trackable kc item /\
                          labelledCopy e item) /\
  (forall e, In e (deletedEntries res) ->
             exists item, In item bD /\ trackable kc item /\
                          labelledCopy e item) /\
  (forall m, In m (modifiedEntries res) ->
             In (before m) bD /\ In (after m) aD).
Proof.
  intros H. apply compareJsons_result in H.
  destruct H as [_ [Hn [Hm [Hd _]]]]. cbv zeta in *.
  destruct (classify_sources kc bD aD) as [S1 [S2 S3]].
  split; [|split].
  - intros e He. rewrite Hn in He. apply dedupEntries_incl in He.
    apply (S1 e He).
  - intros e He. rewrite Hd in He. apply dedupEntries_incl in He.
    apply (S2 e He).
  - intros m Hin. rewrite Hm in Hin. destruct (S3 m Hin) as [? [_ [? _]]]. auto.
Qed.

(** X17.  A modified entry pairs two records of one signature that are
    not deeply equal, and its change set, computed from the pair, is
    not empty. *)
Theorem modified_entries_record_a_difference
  (bD aD : list Json) (bS aS : list JsonObjectStructure)
  (kc : SelectedKeyConfig) (res : ComparisonResult) (m : ModifiedEntry) :
  compareJsons (JArr bD) (JArr aD) bS aS kc = inr res ->
  In m (modifiedEntries res) ->
  isEqual (before m) (after m) = false /\
  getObjectSignature (before m) = getObjectSignature (after m) /\
  changes m = calculateFieldChanges (before m) (after m) /\
  hasChanges (changes m) = true.
Proof.
  intros H Hin. apply compareJsons_result in H.
  destruct H as [_ [_ [Hm _]]]. cbv zeta in Hm. rewrite Hm in Hin.
  revert m Hin. apply classify_ind.
  - intros m [].
  - intros item st st' _ IH Hout m Hin.
    destruct Hout as [ | | | |kf v ea eb Hobj Hk Hp Ha Hb Hs He Hc];
      simpl in Hin; auto.
    apply in_app_or in Hin. destruct Hin as [Hin|[<-|[]]]; [auto|]. simpl.
    split; [assumption|]. split; [|auto].
    apply storeItem_entries in Ha, Hb.
    destruct Ha as [Ha|[ia [_ Ha]]]; [discriminate|].
    destruct Hb as [Hb|[ib [_ Hb]]]; [discriminate|].
    apply entryOf_keyed in Ha, Hb.
    destruct Ha as [_ [_ Ha]]. destruct Hb as [_ [_ Hb]]. congruence.
  - intros item st st' _ IH Hout m Hin. destruct Hout; simpl in Hin; auto.
Qed.

(** X18.  A comparison that reports no warning lists no entity twice:
    no new or deleted entry stands for the entity of a modified entry,
    and no entity is both new and deleted.  No key field is assumed to
    bear the name of a label ([objectSignature], [keyFieldUsed]). *)
Theorem run_without_warnings_partitions
  (lc : string -> string -> comparison) (bD aD : list Json)
  (kc : SelectedKeyConfig) (res : ComparisonResult) :
  diff lc (JArr bD) (JArr aD) kc = inr res ->
  errors res = [] ->
  noReservedKeyField kc ->
  (forall e m, In e (newEntries res) -> In m (modifiedEntries res) ->
               entityOfEntry kc e <> Some (entityOfModified m)) /\
  (forall e m, In e (deletedEntries res) -> In m (modifiedEntries res) ->
               entityOfEntry kc e <> Some (entityOfModified m)) /\
  (forall e e', In e (newEntries res) -> In e' (deletedEntries res) ->
                entityOfEntry kc e <> None /\
                entityOfEntry kc e <> entityOfEntry kc e').
Proof.
  intros H He Hr.
  pose proof H as H'. unfold diff in H'. apply compareJsons_result in H'.
  destruct H' as [_ [_ [_ [_ Herr]]]]. rewrite He in Herr. symmetry in Herr.
  apply (@partition_without_superseded_records lc bD aD kc res H);
    try assumption.
  - apply (@silent_noSuperseded Before kc bD []).
    unfold populateMap in *. now apply populate_silent in Herr.
  - now apply (@silent_noSuperseded After kc aD _ Herr).
Qed.

(** X19.  When several records of one side carry the same key value, the
    lookup keeps the last of them, and a [DuplicateKey] warning is left
    for it. *)
Theorem duplicate_key_last_record_wins
  (side : Side) (kc : SelectedKeyConfig) (earlier later : list Json)
  (item : Json) (kf v : string) :
  isObject item = true ->
  keyFieldOf kc (getObjectSignature item) = Some kf ->
  validKeyValue item kf = Some v ->
  (forall z kf', In z later -> isObject z = true ->
                 keyFieldOf kc (getObjectSignature z) = Some kf' ->
                 validKeyValue z kf' <> Some v) ->
  let r := populateMap side kc (earlier ++ item :: later) [] in
  map_get v (fst r) = Some (Entry.make item (getObjectSignature item) kf) /\
  ((exists x kf0, In x earlier /\ isObject x = true /\
                  keyFieldOf kc (getObjectSignature x) = Some kf0 /\
                  validKeyValue x kf0 = Some v) ->
   In (DuplicateKey side v kf (getObjectSignature item)) (snd r)).
Proof.
  intros Hobj Hk Hv Hlater r. unfold r, populateMap. split.
  - rewrite populateMap_fold, fold_left_app. simpl.
    rewrite (storeItem_untouched kc later _ Hlater).
    unfold storeItem at 1. rewrite Hobj, Hk, Hv. simpl.
    apply map_get_set_same.
  - intros [x [kf0 [Hin [Hox [Hkx Hvx]]]]].
    rewrite fold_left_app. cbn [fold_left].
    destruct (fold_left (populateStep side kc) earlier ([], []))
      as [m1 e1] eqn:E.
    assert (map_has v m1 = true) as Hhas.
    { change m1 with (fst (m1, e1)). rewrite <- E, populateMap_fold.
      eapply storeItem_has; eassumption. }
    assert (In (DuplicateKey side v kf (getObjectSignature item))
              (snd (populateStep side kc (m1, e1) item))) as Hw.
    { unfold populateStep. rewrite Hobj, Hk, Hv, Hhas. simpl.
      apply in_or_app. right. now left. }
    destruct (populateStep side kc (m1, e1) item) as [m2 e2].
    now apply populate_keeps.
Qed.

(* ================================================================== *)
(** ** Further properties: signatures determine field names *)

Lemma concat_cons sep x l :
  String.concat sep (x :: l) =
  x ++ match l with
       | [] => ""
       | _ :: _ => sep ++ String.concat sep l
       end.
Proof.
  destruct l as [|y l]; simpl; [|reflexivity].
  induction x as [|c x IH]; simpl; [reflexivity|]. now rewrite <- IH.
Qed.

Lemma append_comma_free x : forall x' t t',
  ~ In ","%char (chars x) -> ~ In ","%char (chars x') ->
  (t = "" \/ exists r, t = String ","%char r) ->
  (t' = "" \/ exists r, t' = String ","%char r) ->
  x ++ t = x' ++ t' -> x = x' /\ t = t'.
Proof.
  induction x as [|c x IH]; intros [|c' x'] t t' Hx Hx' Ht Ht' E; simpl in *.
  - auto.
  - exfalso. destruct Ht as [->|[r ->]]; [discriminate|].
    injection E as <- _. apply Hx'. now left.
  - exfalso. destruct Ht' as [->|[r ->]]; [discriminate|].
    injection E as -> _. apply Hx. now left.
  - injection E as <- E.
    destruct (IH x' t t') as [-> ->]; auto.
Qed.

Lemma join_comma_inj l : forall l',
  (forall k, In k l -> k <> "" /\ ~ In ","%char (chars k)) ->
  (forall k, In k l' -> k <> "" /\ ~ In ","%char (chars k)) ->
  join "," l = join "," l' -> l = l'.
Proof.
  unfold join.
  induction l as [|x l IH]; intros [|x' l'] H H' E.
  - reflexivity.
  - exfalso. rewrite concat_cons in E. simpl in E.
    destruct x' as [|c x']; [|discriminate].
    destruct (H' "" (or_introl eq_refl)) as [C _]. now apply C.
  - exfalso. rewrite concat_cons in E. simpl in E.
    destruct x as [|c x]; [|discriminate].
    destruct (H "" (or_introl eq_refl)) as [C _]. now apply C.
  - rewrite !concat_cons in E.
    apply append_comma_free in E.
    + destruct E as [-> E]. f_equal.
      destruct l as [|y l], l' as [|y' l']; try discriminate; [reflexivity|].
      apply IH.
      * intros k Hk. apply H. now right.
      * intros k Hk. apply H'. now right.
      * simpl in E. now injection E.
    + apply (H x). now left.
    + apply (H' x'). now left.
    + destruct l; [now left|right; simpl; eauto].
    + destruct l'; [now left|right; simpl; eauto].
Qed.

(** X20.  Where no field name is empty or contains a comma, the
    signature determines the field names: two records with the same
    signature list the same fields. *)
Theorem signature_determines_field_names (a b : Json) :
  (forall k, In k (objectKeys a) \/ In k (objectKeys b) ->
             k <> "" /\ ~ In ","%char (chars k)) ->
  getObjectSignature a = getObjectSignature b ->
  Permutation (objectKeys a) (objectKeys b).
Proof.
  intros H E. unfold getObjectSignature in E.
  apply join_comma_inj in E.
  - apply (Permutation_trans (sortStrings_perm (objectKeys a))).
    rewrite E. symmetry. apply sortStrings_perm.
  - intros k Hk. apply (proj1 (sortStrings_In _ _)) in Hk. auto.
  - intros k Hk. apply (proj1 (sortStrings_In _ _)) in Hk. auto.
Qed.

(* ================================================================== *)
(** ** Further properties: the deduplication pass *)

Lemma map_set_In (V : Type) k v (m : JsMap V) k' v' :
  In (k', v') (map_set k v m) -> (k', v') = (k, v) \/ In (k', v') m.
Proof.
  induction m as [|[k0 v0] m IH]; simpl.
  - intros [H|[]]. now left.
  - destruct (String.eqb k k0); simpl.
    + intros [H|H]; auto.
    + intros [H|H]; auto. apply IH in H. tauto.
Qed.

Lemma map_set_fresh (V : Type) k v (m : JsMap V) :
  ~ In k (map_keys m) -> map_set k v m = (m ++ [(k, v)])%list.
Proof.
  induction m as [|[k0 v0] m IH]; simpl; intros H; [reflexivity|].
  destruct (String.eqb_spec k k0) as [->|Hne]; [tauto|].
  rewrite IH; [reflexivity|tauto].
Qed.

Lemma dedup_fold_invariant kc l : forall m,
  NoDup (map_keys m) ->
  (forall k e, In (k, e) m -> k = makeEntryId kc e) ->
  let m' := fold_left (fun m e => map_set (makeEntryId kc e) e m) l m in
  NoDup (map_keys m') /\ forall k e, In (k, e) m' -> k = makeEntryId kc e.
Proof.
  induction l as [|x l IH]; intros m Hnd Hid; simpl; [auto|].
  apply IH.
  - now apply map_keys_set_NoDup.
  - intros k e Hin. apply map_set_In in Hin.
    destruct Hin as [[= -> ->]|Hin]; auto.
Qed.

Lemma dedup_fold_distinct kc l : forall m,
  NoDup (map_keys m ++ map (makeEntryId kc) l)%list ->
  fold_left (fun m e => map_set (makeEntryId kc e) e m) l m =
  (m ++ map (fun e => (makeEntryId kc e, e)) l)%list.
Proof.
  induction l as [|x l IH]; intros m Hnd; simpl; [now rewrite app_nil_r|].
  simpl in Hnd.
  assert (~ In (makeEntryId kc x) (map_keys m)) as Hfresh.
  { intros C. apply NoDup_remove_2 in Hnd. apply Hnd.
    apply in_or_app. now left. }
  rewrite map_set_fresh by exact Hfresh. rewrite IH.
  - now rewrite <- app_assoc.
  - unfold map_keys. rewrite map_app. simpl. rewrite <- app_assoc. simpl.
    apply NoDup_remove_1 in Hnd as Hnd'.
    apply NoDup_remove_2 in Hnd.
    apply (Permutation_NoDup
             (l := (makeEntryId kc x :: map fst m ++ map (makeEntryId kc) l)%list)).
    + apply Permutation_middle.
    + constructor; assumption.
Qed.

Lemma dedup_fold_untouched kc l : forall m k,
  (forall e, In e l -> makeEntryId kc e <> k) ->
  map_get k (fold_left (fun m e => map_set (makeEntryId kc e) e m) l m) =
  map_get k m.
Proof.
  induction l as [|x l IH]; intros m k H; simpl; [reflexivity|].
  rewrite IH by (intros e He; apply H; now right).
  apply map_get_set_other. intros C. apply (H x (or_introl eq_refl)).
  now symmetry.
Qed.

Lemma dedupEntries_distinct kc l :
  NoDup (map (makeEntryId kc) l) -> dedupEntries kc l = l.
Proof.
  intros H. unfold dedupEntries. rewrite dedup_fold_distinct by exact H.
  simpl. unfold map_values. rewrite map_map. simpl. apply map_id.
Qed.

Lemma dedupEntries_NoDup kc l : NoDup (map (makeEntryId kc) (dedupEntries kc l)).
Proof.
  unfold dedupEntries.
  assert (NoDup (map_keys (@nil (string * JsonEntry)))) as H0 by constructor.
  assert (forall k e, In (k, e) (@nil (string * JsonEntry)) ->
                      k = makeEntryId kc e) as H1 by (intros k e []).
  destruct (@dedup_fold_invariant kc l [] H0 H1) as [Hnd Hid].
  clear H0 H1. cbv zeta in *.
  generalize dependent
    (fold_left (fun m e => map_set (makeEntryId kc e) e m) l []).
  intros m Hnd Hid.
  assert (map (makeEntryId kc) (map_values m) = map_keys m) as E.
  { induction m as [|[k e] m IH]; simpl; [reflexivity|].
    rewrite <- (Hid k e (or_introl eq_refl)). f_equal. apply IH.
    - now inversion Hnd.
    - intros k' e' Hin. apply Hid. now right. }
  now rewrite E.
Qed.

(** X21.  The deduplication pass keeps one entry per entry id: the ids of
    its result are pairwise distinct, every id of the list is still
    there, carried by the last entry pushed with it, and a list whose
    ids are distinct already is left as it is. *)
Theorem dedup_keeps_the_last_entry_per_id
  (kc : SelectedKeyConfig) (l : list JsonEntry) :
  NoDup (map (makeEntryId kc) (dedupEntries kc l)) /\
  (forall e, In e (dedupEntries kc l) -> In e l) /\
  (forall l1 e l2,
      l = (l1 ++ e :: l2)%list ->
      (forall e', In e' l2 -> makeEntryId kc e' <> makeEntryId kc e) ->
      In e (dedupEntries kc l)) /\
  (NoDup (map (makeEntryId kc) l) -> dedupEntries kc l = l) /\
  dedupEntries kc (dedupEntries kc l) = dedupEntries kc l.
Proof.
  split; [apply dedupEntries_NoDup|].
  split; [intros e; apply dedupEntries_incl|].
  split; [|split; [apply dedupEntries_distinct|]].
  - intros l1 e l2 -> H. unfold dedupEntries.
    rewrite fold_left_app. simpl. unfold map_values. apply in_map_iff.
    exists (makeEntryId kc e, e). split; [reflexivity|].
    apply map_get_In. rewrite dedup_fold_untouched by exact H.
    apply map_get_set_same.
  - apply dedupEntries_distinct, dedupEntries_NoDup.
Qed.

(* ================================================================== *)
(** ** Further properties: the first variant of the page *)

Lemma legacy_afterStep_new kf bm l : forall st,
  fst (fold_left (Legacy.afterStep kf bm) l st) =
  (fst st ++
   map snd (filter (fun p => negb (map_has (fst p) bm)) l))%list.
Proof.
  induction l as [|[k y] l IH]; intros st; simpl; [now rewrite app_nil_r|].
  rewrite IH. unfold Legacy.afterStep, map_has.
  destruct (map_get k bm) as [x|]; simpl.
  - destruct (negb (isEqual x y)); [|reflexivity].
    destruct (hasChanges _); reflexivity.
  - now rewrite <- app_assoc.
Qed.

Lemma legacy_beforeStep_deleted am l : forall deleted,
  fold_left (Legacy.beforeStep am) l deleted =
  (deleted ++ map snd (filter (fun p => negb (map_has (fst p) am)) l))%list.
Proof.
  induction l as [|[k x] l IH]; intros deleted; simpl;
    [now rewrite app_nil_r|].
  rewrite IH. destruct (negb (map_has k am)); simpl; [|reflexivity].
  now rewrite <- app_assoc.
Qed.

Lemma legacy_compareJsons_result kf beforeParsed afterParsed res :
  Legacy.compareJsons kf beforeParsed afterParsed = Some res ->
  exists beforeData afterData,
    beforeParsed = JArr beforeData /\ afterParsed = JArr afterData /\
    let beforeMap := Legacy.indexByKey kf beforeData in
    let afterMap := Legacy.indexByKey kf afterData in
    Legacy.newEntries res =
      map snd (filter (fun p => negb (map_has (fst p) beforeMap)) afterMap) /\
    Legacy.modifiedEntries res =
      snd (fold_left (Legacy.afterStep kf beforeMap) afterMap ([], [])) /\
    Legacy.deletedEntries res =
      map snd (filter (fun p => negb (map_has (fst p) afterMap)) beforeMap).
Proof.
  unfold Legacy.compareJsons.
  destruct (String.eqb (trim kf) ""); [discriminate|].
  destruct (Legacy.parseJson beforeParsed kf) as [bD|] eqn:PB; [|discriminate].
  destruct (Legacy.parseJson afterParsed kf) as [aD|] eqn:PA; [|discriminate].
  apply legacy_parseJson_items in PB, PA. intros [= <-]. simpl.
  exists bD, aD. rewrite legacy_afterStep_new, legacy_beforeStep_deleted.
  simpl. auto.
Qed.

Lemma legacy_modified_keys kf bm l : forall st,
  NoDup (map Legacy.keyFieldValue (snd st) ++ map fst l)%list ->
  NoDup (map Legacy.keyFieldValue
           (snd (fold_left (Legacy.afterStep kf bm) l st))).
Proof.
  induction l as [|[k y] l IH]; intros st H; simpl in *.
  - now rewrite app_nil_r in H.
  - apply IH.
    assert (NoDup (map Legacy.keyFieldValue (snd st) ++ map fst l)%list) as H1.
    { now apply NoDup_remove_1 in H. }
    unfold Legacy.afterStep.
    destruct (map_get k bm) as [x|]; [|exact H1].
    destruct (negb (isEqual x y)); [|exact H1].
    destruct (hasChanges _); [|exact H1].
    simpl. rewrite map_app, <- app_assoc. exact H.
Qed.

Lemma present_key (V : Type) k (v : V) m : In (k, v) m -> map_has k m = true.
Proof.
  intros H. unfold map_has.
  destruct (map_get k m) eqn:E; [reflexivity|].
  apply map_get_None in E. exfalso. apply E. apply in_map_iff.
  exists (k, v). auto.
Qed.

Lemma legacy_filtered_entry kf data (p : string -> bool) x :
  In x (map snd (filter (fun e => p (fst e)) (Legacy.indexByKey kf data))) ->
  exists k, In (k, x) (Legacy.indexByKey kf data) /\ p k = true /\
            getProp x kf = Some (JStr k).
Proof.
  intros H. apply in_map_iff in H. destruct H as [[k y] [E H]].
  simpl in E. subst y. apply filter_In in H. destruct H as [H Hp].
  exists k. split; [assumption|]. split; [assumption|].
  now apply legacy_indexByKey_entries in H.
Qed.

Lemma legacy_filtered_keys kf data (p : string -> bool) :
  NoDup (map (fun x => getProp x kf)
           (map snd (filter (fun e => p (fst e))
                       (Legacy.indexByKey kf data)))).
Proof.
  pose proof (legacy_indexByKey_NoDup kf data) as Hnd.
  pose proof (legacy_indexByKey_entries kf data) as He.
  induction (Legacy.indexByKey kf data) as [|[k x] m IH]; simpl;
    [constructor|].
  inversion Hnd as [|? ? Hnotin Hnd']; subst.
  assert (forall k0 item, In (k0, item) m ->
            In item data /\ getProp item kf = Some (JStr k0)) as He'.
  { intros k0 item Hin. apply He. now right. }
  destruct (p k); simpl; [|now apply IH].
  constructor; [|now apply IH].
  intros C. apply in_map_iff in C. destruct C as [y [Ey C]].
  apply in_map_iff in C. destruct C as [[k' y'] [E C]]. simpl in E. subst y'.
  apply filter_In in C. destruct C as [C _].
  destruct (He k x (or_introl eq_refl)) as [_ Ex].
  destruct (He' k' y C) as [_ Ey'].
  rewrite Ex, Ey' in Ey. injection Ey as ->.
  apply Hnotin. apply in_map_iff. exists (k, y). auto.
Qed.


(** X23.  In the first variant a key value is reported once: the modified
    entries, the new entries and the deleted entries each have pairwise
    distinct key values, and no key value occurs in two of the lists. *)
Theorem legacy_key_values_are_partitioned
  (kf : string) (beforeParsed afterParsed : Json)
  (res : Legacy.ComparisonResult) :
  Legacy.compareJsons kf beforeParsed afterParsed = Some res ->
  NoDup (map Legacy.keyFieldValue (Legacy.modifiedEntries res)) /\
  NoDup (map (fun x => getProp x kf) (Legacy.newEntries res)) /\
  NoDup (map (fun x => getProp x kf) (Legacy.deletedEntries res)) /\
  (forall x m, In x (Legacy.newEntries res) ->
               In m (Legacy.modifiedEntries res) ->
               getProp x kf <> Some (JStr (Legacy.keyFieldValue m))) /\
  (forall y m, In y (Legacy.deletedEntries res) ->
               In m (Legacy.modifiedEntries res) ->
               getProp y kf <> Some (JStr (Legacy.keyFieldValue m))) /\
  (forall x y, In x (Legacy.newEntries res) ->
               In y (Legacy.deletedEntries res) ->
               getProp x kf <> getProp y kf).
Proof.
  intros H. apply legacy_compareJsons_result in H.
  destruct H as [bD [aD [_ [_ [Hn [Hm Hd]]]]]]. cbv zeta in *.
  rewrite Hn, Hm, Hd.
  split; [|split; [|split; [|split; [|split]]]].
  - apply legacy_modified_keys. simpl. apply legacy_indexByKey_NoDup.
  - apply (legacy_filtered_keys kf aD
             (fun k => negb (map_has k (Legacy.indexByKey kf bD)))).
  - apply (legacy_filtered_keys kf bD
             (fun k => negb (map_has k (Legacy.indexByKey kf aD)))).
  - intros x m Hx Hin.
    apply (legacy_filtered_entry kf aD
             (fun k => negb (map_has k (Legacy.indexByKey kf bD)))) in Hx.
    destruct Hx as [k [_ [Hk Hx]]].
    apply legacy_afterStep_modified in Hin.
    destruct Hin as [[]|[_ [Hb _]]].
    rewrite Hx. intros [= ->]. unfold map_has in Hk. rewrite Hb in Hk.
    discriminate.
  - intros y m Hy Hin.
    apply (legacy_filtered_entry kf bD
             (fun k => negb (map_has k (Legacy.indexByKey kf aD)))) in Hy.
    destruct Hy as [k [_ [Hk Hy]]].
    apply legacy_afterStep_modified in Hin.
    destruct Hin as [[]|[Ha _]].
    rewrite Hy. intros [= ->]. apply present_key in Ha. rewrite Ha in Hk.
    discriminate.
  - intros x y Hx Hy.
    apply (legacy_filtered_entry kf aD
             (fun k => negb (map_has k (Legacy.indexByKey kf bD)))) in Hx.
    apply (legacy_filtered_entry kf bD
             (fun k => negb (map_has k (Legacy.indexByKey kf aD)))) in Hy.
    destruct Hx as [k [Hxa [_ Hx]]]. destruct Hy as [k' [_ [Hk' Hy]]].
    rewrite Hx, Hy. intros [= ->]. apply present_key in Hxa.
    rewrite Hxa in Hk'. discriminate.
Qed.

(** X24.  In the first variant, exchanging the two documents exchanges
    the new entries and the deleted entries. *)
Theorem legacy_exchange_swaps_new_and_deleted
  (kf : string) (beforeParsed afterParsed : Json)
  (res res' : Legacy.ComparisonResult) :
  Legacy.compareJsons kf beforeParsed afterParsed = Some res ->
  Legacy.compareJsons kf afterParsed beforeParsed = Some res' ->
  Legacy.newEntries res' = Legacy.deletedEntries res /\
  Legacy.deletedEntries res' = Legacy.newEntries res.
Proof.
  intros H H'. apply legacy_compareJsons_result in H, H'.
  destruct H as [bD [aD [-> [-> [Hn [_ Hd]]]]]].
  destruct H' as [aD' [bD' [[= <-] [[= <-] [Hn' [_ Hd']]]]]].
  cbv zeta in *. split; congruence.
Qed.

(* ================================================================== *)
(** ** Further properties: warnings and rejected documents *)

Lemma keysAt_fold_add sig sig' l : forall m,
  forall k,
    In k (keysAt sig
            (fold_left
               (fun m k =>
                  map_update sig'
                    (fun d => Shape.make (set_add k (Shape.keys d))
                                (Shape.instances d)) m) l m)) <->
    In k (keysAt sig m) \/
    (sig = sig' /\ map_has sig m = true /\ In k l).
Proof.
  induction l as [|a l IH]; intros m k; simpl.
  - intuition.
  - rewrite IH. unfold keysAt, map_has. rewrite !map_get_update.
    destruct (String.eqb_spec sig sig') as [->|Hne].
    + destruct (map_get sig' m) as [d|]; simpl.
      * rewrite set_add_In. intuition.
      * intuition; discriminate.
    + intuition.
Qed.

Lemma groupItem_collects sig m item k :
  In k (keysAt sig (groupItem m item)) <->
  In k (keysAt sig m) \/
  (isObject item = true /\ getObjectSignature item = sig /\
   In k (objectKeys item)).
Proof.
  unfold groupItem.
  destruct (isObject item) eqn:Hobj; simpl;
    [|intuition; discriminate].
  rewrite keysAt_fold_add. unfold map_has.
  destruct (map_get (getObjectSignature item) m) as [d|] eqn:Eg; simpl.
  - unfold keysAt. rewrite !map_get_update.
    destruct (String.eqb_spec sig (getObjectSignature item)) as [->|Hne].
    + rewrite Eg. simpl. intuition.
    + intuition congruence.
  - unfold keysAt. rewrite !map_get_update.
    destruct (String.eqb_spec sig (getObjectSignature item)) as [->|Hne].
    + rewrite map_get_set_same, Eg. simpl. rewrite set_of_list_In. intuition.
    + rewrite map_get_set_other by assumption. intuition congruence.
Qed.

Lemma structureMap_collects sig items : forall m k,
  In k (keysAt sig (fold_left groupItem items m)) <->
  In k (keysAt sig m) \/
  exists item, In item items /\ isObject item = true /\
               getObjectSignature item = sig /\ In k (objectKeys item).
Proof.
  induction items as [|a items IH]; intros m k; simpl.
  - split; [auto|]. intros [H|[item [[] _]]]. assumption.
  - rewrite IH, groupItem_collects. split.
    + intros [[H|H]|[item [Hin H]]]; eauto 8.
    + intros [H|[item [[<-|Hin] H]]]; eauto 8.
Qed.


Lemma populateStep_justified side kc bD aD earlier x later m errs :
  match side with Before => bD | After => aD end =
    (earlier ++ x :: later)%list ->
  m = keyLookup kc earlier ->
  Forall (justified bD aD kc) errs ->
  Forall (justified bD aD kc) (snd (populateStep side kc (m, errs) x)).
Proof.
  intros Hd -> He.
  assert (In x (match side with Before => bD | After => aD end)) as Hin.
  { rewrite Hd. apply in_or_app. right. now left. }
  unfold populateStep.
  destruct (isObject x) eqn:Hobj; simpl.
  - destruct (keyFieldOf kc (getObjectSignature x)) as [kf|] eqn:Hk;
      [|assumption].
    destruct (validKeyValue x kf) as [v|] eqn:Hv; simpl.
    + destruct (map_has v (keyLookup kc earlier)) eqn:Hhas; [|assumption].
      apply Forall_app. split; [assumption|]. constructor; [|constructor].
      simpl. exists earlier, x, later.
      destruct side; auto 10.
    + apply Forall_app. split; [assumption|]. constructor; [|constructor].
      simpl. exists x. destruct side; auto 10.
  - apply Forall_app. split; [assumption|]. constructor; [|constructor].
    simpl. destruct side; auto.
Qed.

Lemma populate_justified side kc bD aD later : forall earlier errs,
  match side with Before => bD | After => aD end = (earlier ++ later)%list ->
  Forall (justified bD aD kc) errs ->
  Forall (justified bD aD kc)
    (snd (fold_left (populateStep side kc) later (keyLookup kc earlier, errs))).
Proof.
  induction later as [|x later IH]; intros earlier errs Hd He;
    [assumption|].
  cbn [fold_left].
  pose proof (@populateStep_justified side kc bD aD earlier x later
                (keyLookup kc earlier) errs Hd eq_refl He) as Hs.
  pose proof (populateStep_fst side kc (keyLookup kc earlier) errs x) as Hf.
  destruct (populateStep side kc (keyLookup kc earlier, errs) x)
    as [m' errs'].
  simpl in Hs, Hf. subst m'.
  assert (storeItem kc (keyLookup kc earlier) x =
          keyLookup kc (earlier ++ [x])) as E.
  { unfold keyLookup. now rewrite fold_left_app. }
  rewrite E. apply IH; [|assumption].
  now rewrite <- app_assoc.
Qed.

(** X25.  The [keys] of a structure are the field names listed by the
    records of its signature. *)
Theorem structure_keys_are_the_field_names
  (lc : string -> string -> comparison) (items : list Json)
  (s : JsonObjectStructure) (k : string) :
  forallb isObject items = true ->
  In s (structures (analyzeJsonStructures lc (JArr items))) ->
  (In k (keys s) <->
   exists item, In item items /\ getObjectSignature item = signature s /\
                In k (objectKeys item)).
Proof.
  intros Hobj Hin. unfold analyzeJsonStructures in Hin.
  assert (existsb (fun item => negb (isObject item)) items = false) as E.
  { apply not_true_is_false. intros C. apply existsb_exists in C.
    destruct C as [x [Hx Hn]]. rewrite forallb_forall in Hobj.
    rewrite (Hobj _ Hx) in Hn. discriminate. }
  rewrite E in Hin. simpl in Hin.
  apply (proj1 (sortStructures_In _ _ _)) in Hin. apply in_map_iff in Hin.
  destruct Hin as [[sig d] [<- Hin]]. simpl.
  assert (map_get sig (fold_left groupItem items []) = Some d) as Hg.
  { apply In_map_get; [|assumption]. apply structureMap_NoDup. constructor. }
  pose proof (structureMap_collects sig items [] k) as Hc.
  unfold keysAt in Hc at 1. rewrite Hg in Hc.
  rewrite sortStrings_In, Hc. simpl. rewrite forallb_forall in Hobj. split.
  - intros [[]|[item [H1 [_ [H2 H3]]]]]. eauto.
  - intros [item [H1 [H2 H3]]]. right. exists item. auto.
Qed.


(** X27.  Every warning of a comparison is justified by a record of the
    side it names: an element that is not an object, a keyed record
    without a valid key value, or a keyed record whose key value an
    earlier record of that side already holds. *)
Theorem warnings_are_justified
  (bD aD : list Json) (bS aS : list JsonObjectStructure)
  (kc : SelectedKeyConfig) (res : ComparisonResult) (w : Warning) :
  compareJsons (JArr bD) (JArr aD) bS aS kc = inr res ->
  In w (errors res) ->
  justified bD aD kc w.
Proof.
  intros H Hin. apply compareJsons_result in H.
  destruct H as [_ [_ [_ [_ He]]]]. rewrite He in Hin. clear He.
  revert w Hin. apply Forall_forall. unfold populateMap.
  apply (@populate_justified After kc bD aD aD [] _ eq_refl).
  apply (@populate_justified Before kc bD aD bD [] [] eq_refl).
  constructor.
Qed.


(* ================================================================== *)
(** ** Further properties: what the loops report *)

Lemma classify_after_at kc bD aD bm am item :
  In item aD ->
  exists st0,
    let st' := classifyAfterStep kc bm am st0 item in
    let st := classify kc bD aD bm am in
    incl (pushedNew st') (pushedNew st) /\
    incl (pushedModified st') (pushedModified st) /\
    incl (pushedDeleted st') (pushedDeleted st).
Proof.
  intros Hin. apply in_split in Hin. destruct Hin as [l1 [l2 ->]].
  exists (fold_left (classifyAfterStep kc bm am) l1 emptyLists).
  cbv zeta. unfold classify. rewrite fold_left_app. cbn [fold_left].
  set (st1 := classifyAfterStep kc bm am _ item).
  destruct (@fold_grows (classifyAfterStep kc bm am) l2 st1) as [A1 [A2 A3]].
  { intros. apply classifyAfterStep_grows. }
  destruct (@fold_grows (classifyBeforeStep kc (l1 ++ item :: l2) bm am) bD
              (fold_left (classifyAfterStep kc bm am) l2 st1))
    as [B1 [B2 B3]].
  { intros. apply classifyBeforeStep_grows. }
  repeat split; eapply incl_tran; eauto.
Qed.

Lemma classify_before_at kc bD aD bm am item :
  In item bD ->
  exists st0,
    let st' := classifyBeforeStep kc aD bm am st0 item in
    let st := classify kc bD aD bm am in
    incl (pushedNew st') (pushedNew st) /\
    incl (pushedModified st') (pushedModified st) /\
    incl (pushedDeleted st') (pushedDeleted st).
Proof.
  intros Hin. apply in_split in Hin. destruct Hin as [l1 [l2 ->]].
  exists (fold_left (classifyBeforeStep kc aD bm am) l1
            (fold_left (classifyAfterStep kc bm am) aD emptyLists)).
  cbv zeta. unfold classify. rewrite fold_left_app. cbn [fold_left].
  apply fold_grows. intros. apply classifyBeforeStep_grows.
Qed.

(** X29.  A record whose signature has no key field is never matched:
    on the 'after' side it is reported as new, and on the 'before' side
    it is reported as deleted when no record of 'after' has its
    signature.  The entry is the one the deduplication keeps for its
    entry id. *)
Theorem unkeyed_records_are_new_or_deleted
  (bD aD : list Json) (bS aS : list JsonObjectStructure)
  (kc : SelectedKeyConfig) (res : ComparisonResult) :
  compareJsons (JArr bD) (JArr aD) bS aS kc = inr res ->
  (forall item,
      In item aD -> isObject item = true ->
      keyFieldOf kc (getObjectSignature item) = None ->
      exists e,
        In e (newEntries res) /\
        makeEntryId kc e =
        makeEntryId kc (unkeyedEntry item (getObjectSignature item))) /\
  (forall item,
      In item bD -> isObject item = true ->
      keyFieldOf kc (getObjectSignature item) = None ->
      (forall afterItem,
          In afterItem aD -> isObject afterItem = true ->
          getObjectSignature afterItem <> getObjectSignature item) ->
      exists e,
        In e (deletedEntries res) /\
        makeEntryId kc e =
        makeEntryId kc (unkeyedEntry item (getObjectSignature item))).
Proof.
  intros H. apply compareJsons_result in H.
  destruct H as [_ [Hn [_ [Hd _]]]]. cbv zeta in *. split.
  - intros item Hin Hobj Hk. rewrite Hn. apply dedupEntries_keeps_id.
    destruct (@classify_after_at kc bD aD
                (fold_left (storeItem kc) bD [])
                (fold_left (storeItem kc) aD []) item Hin)
      as [st0 [H1 _]].
    apply H1. unfold classifyAfterStep. rewrite Hobj, Hk. simpl.
    apply in_or_app. right. now left.
  - intros item Hin Hobj Hk Hsig. rewrite Hd. apply dedupEntries_keeps_id.
    destruct (@classify_before_at kc bD aD
                (fold_left (storeItem kc) bD [])
                (fold_left (storeItem kc) aD []) item Hin)
      as [st0 [_ [_ H3]]].
    apply H3. unfold classifyBeforeStep. rewrite Hobj, Hk. simpl.
    assert (existsb
              (fun afterItem =>
                 if isObject afterItem
                 then String.eqb (getObjectSignature afterItem)
                        (getObjectSignature item)
                 else false) aD = false) as E.
    { apply not_true_is_false. intros C. apply existsb_exists in C.
      destruct C as [x [Hx C]]. destruct (isObject x) eqn:Ex; [|discriminate].
      apply String.eqb_eq in C. apply (Hsig x Hx Ex C). }
    rewrite E. simpl. apply in_or_app. right. now left.
Qed.


(* ================================================================== *)
(** ** The further properties on example documents *)

Lemma signature_ignores_field_order_witness :
  getObjectSignature Samples.alice = getObjectSignature Samples.aliceReordered.
Proof.
  apply signature_ignores_field_order. simpl. apply perm_swap.
Defined.

Lemma signature_determines_field_names_witness :
  Permutation (objectKeys Samples.alice) (objectKeys Samples.aliceReordered).
Proof.
  apply signature_determines_field_names.
  - intros k H. simpl in H.
    destruct H as [[<-|[<-|[]]]|[<-|[<-|[]]]];
      (split; [discriminate|simpl; intuition discriminate]).
  - reflexivity.
Defined.

Lemma analysis_lists_each_signature_once_witness :
  error (analyzeJsonStructures String.compare (JArr Examples.aliceData))
  = None /\
  NoDup (map signature
           (structures
              (analyzeJsonStructures String.compare (JArr Examples.aliceData)))) /\
  forall sig,
    In sig (map signature
              (structures
                 (analyzeJsonStructures String.compare
                    (JArr Examples.aliceData)))) <->
    exists item, In item Examples.aliceData /\ getObjectSignature item = sig.
Proof.
  apply (@analysis_lists_each_signature_once String.compare Examples.aliceData).
  reflexivity.
Defined.

Lemma analysis_count_is_number_of_records_witness :
  count Samples.personStructure = 1%nat /\
  (0 < count Samples.personStructure)%nat.
Proof.
  apply (@analysis_count_is_number_of_records String.compare
           Examples.aliceData Samples.personStructure).
  - reflexivity.
  - simpl. left. reflexivity.
Defined.

Lemma potential_key_fields_are_the_valid_keys_witness :
  In "id" (potentialKeyFields Samples.personStructure) <->
  forall item, In item Examples.aliceData ->
               getObjectSignature item = signature Samples.personStructure ->
               exists v, getProp item "id" = Some (JStr v) /\ trim v <> "".
Proof.
  apply (@potential_key_fields_are_the_valid_keys String.compare
           Examples.aliceData Samples.personStructure "id").
  - reflexivity.
  - simpl. left. reflexivity.
Defined.

Lemma offered_keys_are_valid_on_both_sides_witness :
  validKeyValue Samples.alicia "id" <> None.
Proof.
  apply (@offered_keys_are_valid_on_both_sides String.compare
           Examples.aliceData Examples.aliciaData "id,name" "id");
    try reflexivity.
  - simpl. left. reflexivity.
  - simpl. right. left. reflexivity.
Defined.

Lemma auto_select_effect_settles_witness :
  changedByAutoSelect Examples.candidatesBefore Examples.candidatesAfter
    (resolveKeys Examples.candidatesBefore Examples.candidatesAfter []) = false /\
  resolveKeys Examples.candidatesBefore Examples.candidatesAfter
    (resolveKeys Examples.candidatesBefore Examples.candidatesAfter []) =
  resolveKeys Examples.candidatesBefore Examples.candidatesAfter [].
Proof.
  apply auto_select_effect_settles.
  intros s Hs. vm_compute in Hs.
  destruct Hs as [<-|[<-|[<-|[]]]]; discriminate.
Defined.

Lemma manual_selection_is_kept_witness :
  keyFieldOf
    (resolveKeys Examples.candidatesBefore Examples.candidatesAfter
       (handleKeySelectionChange "id,name" "name" []))
    "id,name" = Some "name".
Proof.
  apply (@manual_selection_is_kept Examples.candidatesBefore
           Examples.candidatesAfter [] "id,name" "name").
  discriminate.
Defined.




Lemma entries_come_from_their_side_witness :
  In (before Examples.aliciaEntry) Samples.peopleBefore /\
  In (after Examples.aliciaEntry) Samples.peopleAfter.
Proof.
  destruct (@entries_come_from_their_side Samples.peopleBefore
              Samples.peopleAfter [] [] Examples.nameKeys Samples.peopleDiff)
    as [_ [_ H]].
  - reflexivity.
  - apply H. simpl. left. reflexivity.
Defined.

Lemma modified_entries_record_a_difference_witness :
  isEqual (before Examples.aliciaEntry) (after Examples.aliciaEntry) = false /\
  getObjectSignature (before Examples.aliciaEntry) =
    getObjectSignature (after Examples.aliciaEntry) /\
  changes Examples.aliciaEntry =
    calculateFieldChanges (before Examples.aliciaEntry)
      (after Examples.aliciaEntry) /\
  hasChanges (changes Examples.aliciaEntry) = true.
Proof.
  apply (@modified_entries_record_a_difference Examples.aliceData
           Examples.aliciaData [] [] Examples.nameKeys Examples.aliciaResult
           Examples.aliciaEntry).
  - reflexivity.
  - simpl. left. reflexivity.
Defined.

Lemma run_without_warnings_partitions_witness :
  entityOfEntry Examples.nameKeys Samples.carolEntry <>
    Some (entityOfModified Examples.aliciaEntry) /\
  entityOfEntry Examples.nameKeys Samples.carolEntry <>
    entityOfEntry Examples.nameKeys Samples.bobEntry.
Proof.
  destruct (@run_without_warnings_partitions String.compare
              Samples.peopleBefore Samples.peopleAfter Examples.nameKeys
              Samples.peopleDiff) as [H1 [_ H3]].
  - reflexivity.
  - reflexivity.
  - intros s kf H. unfold keyFieldOf in H. simpl in H.
    destruct (String.eqb s "id,name").
    + injection H as <-. split; discriminate.
    + destruct (inheritedName s); [|discriminate].
      injection H as <-. unfold memberText.
      destruct (String.eqb s "__proto__"); split; discriminate.
  - split.
    + apply H1; simpl; left; reflexivity.
    + apply H3; simpl; left; reflexivity.
Defined.

Lemma duplicate_key_last_record_wins_witness :
  map_get "q"
    (fst (populateMap After Samples.idKeys [Samples.first; Samples.second] []))
  = Some (Entry.make Samples.second "id,x" "id") /\
  In (DuplicateKey After "q" "id" "id,x")
    (snd (populateMap After Samples.idKeys [Samples.first; Samples.second] [])).
Proof.
  destruct (@duplicate_key_last_record_wins After Samples.idKeys
              [Samples.first] [] Samples.second "id" "q") as [H1 H2].
  - reflexivity.
  - reflexivity.
  - reflexivity.
  - intros z kf' [].
  - split; [exact H1|]. apply H2. exists Samples.first, "id".
    repeat split. simpl. left. reflexivity.
Defined.


Lemma legacy_key_values_are_partitioned_witness :
  getProp Samples.carol "id" <> getProp Samples.bob "id" /\
  getProp Samples.carol "id" <> Some (JStr "1").
Proof.
  destruct (@legacy_key_values_are_partitioned "id" (JArr Samples.peopleBefore)
              (JArr Samples.peopleAfter) Samples.peopleResult)
    as [_ [_ [_ [H1 [_ H3]]]]].
  - reflexivity.
  - split.
    + apply H3; simpl; left; reflexivity.
    + apply (H1 Samples.carol
               {| Legacy.keyFieldValue := "1";
                  Legacy.before := Samples.alice;
                  Legacy.after := Samples.alicia;
                  Legacy.changes :=
                    {| added := []; removed := [];
                       changed :=
                         [("name",
                           Change.make (JStr "Alice") (JStr "Alicia"))] |} |});
        simpl; left; reflexivity.
Defined.

Lemma legacy_exchange_swaps_new_and_deleted_witness :
  Legacy.newEntries Samples.peopleReversed =
    Legacy.deletedEntries Samples.peopleResult /\
  Legacy.deletedEntries Samples.peopleReversed =
    Legacy.newEntries Samples.peopleResult.
Proof.
  apply (@legacy_exchange_swaps_new_and_deleted "id"
           (JArr Samples.peopleBefore) (JArr Samples.peopleAfter)
           Samples.peopleResult Samples.peopleReversed); reflexivity.
Defined.

Lemma structure_keys_are_the_field_names_witness :
  In "name" (keys Samples.personStructure) <->
  exists item,
    In item Examples.aliceData /\
    getObjectSignature item = signature Samples.personStructure /\
    In "name" (objectKeys item).
Proof.
  apply (@structure_keys_are_the_field_names String.compare
           Examples.aliceData Samples.personStructure "name").
  - reflexivity.
  - simpl. left. reflexivity.
Defined.


Lemma warnings_are_justified_witness :
  justified [] [Examples.blankKeyRecord] Examples.blankKeyKeys
    (InvalidKeyValue After "id" "id,x" (Some (JStr ""))).
Proof.
  apply (@warnings_are_justified [] [Examples.blankKeyRecord] [] []
           Examples.blankKeyKeys Examples.blankKeyResult).
  - reflexivity.
  - simpl. left. reflexivity.
Defined.

Lemma unkeyed_records_are_new_or_deleted_witness :
  exists e,
    In e (newEntries Samples.looseResult) /\
    makeEntryId [] e = makeEntryId [] (unkeyedEntry Samples.loose "note").
Proof.
  destruct (@unkeyed_records_are_new_or_deleted [] [Samples.loose] [] [] []
              Samples.looseResult) as [H _].
  - reflexivity.
  - apply (H Samples.loose).
    + simpl. left. reflexivity.
    + reflexivity.
    + reflexivity.
Defined.


Lemma non_object_elements_are_skipped_witness :
  exists res,
    diff String.compare (JArr (JNum 1 :: Examples.aliceData))
      (JArr Examples.aliciaData) Examples.nameKeys = inr res /\
    newEntries res = newEntries Examples.aliciaResult /\
    modifiedEntries res = modifiedEntries Examples.aliciaResult /\
    deletedEntries res = deletedEntries Examples.aliciaResult /\
    (forall item,
        In item (JNum 1 :: Examples.aliceData) -> isObject item = false ->
        In (SkippingNonObject Before item) (errors res)) /\
    (forall item,
        In item Examples.aliciaData -> isObject item = false ->
        In (SkippingNonObject After item) (errors res)).
Proof.
  apply (@non_object_elements_are_skipped String.compare
           (JNum 1 :: Examples.aliceData) Examples.aliciaData
           Examples.nameKeys Examples.aliciaResult).
  reflexivity.
Defined.
